(** * The job queue of the background-removal front end

    A shallow embedding of [frontend/src/main.ts]: the job store (a JS [Map]
    of mutable job objects), the admission of files, the click handler of the
    job list (remove, download, retry), the scheduler [startNextJobs], the
    worker [runJob] split at its single [await], and the archive export
    [downloadAllReadyJobs] split at [await zip.generateAsync].

    The program is single threaded: every handler runs to its next suspension
    point without interruption.  A run of the program is therefore a sequence
    of events (files added, a button clicked, a removal promise settled, the
    export button clicked, an archive promise settled), each handled
    atomically by [step]. *)

From Stdlib Require Import ZArith Ascii String List Bool Lia.
From stdpp Require Import base list strings pretty.

Local Open Scope string_scope.
Local Open Scope list_scope.
Local Open Scope Z_scope.

(** Reverse application, so that a handler reads top to bottom like its
    source. *)
Notation "s |> f" := (f s) (at level 45, left associativity, only parsing).

(* ===================================================================== *)
(** ** Data model *)
(* ===================================================================== *)

(** [type JobStatus = 'pending' | 'processing' | 'ready' | 'error'] *)
Inductive JobStatus := pending | processing | ready | error.

#[global] Instance JobStatus_eq_dec : EqDecision JobStatus.
Proof. solve_decision. Defined.

(** Binary payloads ([Blob]) are opaque to the queue; a byte string. *)
Definition Blob : Type := string.

(** An entry of a JSZip archive: a file with its content, or a folder. *)
Inductive ZipObject := ZipFile (data : Blob) | ZipFolder.

#[global] Instance ZipObject_eq_dec : EqDecision ZipObject.
Proof. solve_decision. Defined.

(** The part of a DOM [File] the program reads. *)
Module File.
Record t := mk { name : string; size : Z; type : string }.
End File.

#[global] Instance File_eq_dec : EqDecision File.t.
Proof. solve_decision. Defined.

(** [interface RemovalJob] *)
Module Job.
Record t := mk {
  id : string;
  file : File.t;
  status : JobStatus;
  previewUrl : string;
  resultUrl : option string;
  resultBlob : option Blob;
  error : option string
}.

Definition set_status (v : JobStatus) (j : t) : t :=
  mk (id j) (file j) v (previewUrl j) (resultUrl j) (resultBlob j) (error j).
Definition set_resultUrl (v : option string) (j : t) : t :=
  mk (id j) (file j) (status j) (previewUrl j) v (resultBlob j) (error j).
Definition set_resultBlob (v : option Blob) (j : t) : t :=
  mk (id j) (file j) (status j) (previewUrl j) (resultUrl j) v (error j).
Definition set_error (v : option string) (j : t) : t :=
  mk (id j) (file j) (status j) (previewUrl j) (resultUrl j) (resultBlob j) v.
End Job.

Definition MAX_FILE_SIZE_MB : Z := 12.
Definition MAX_FILE_SIZE_BYTES : Z := MAX_FILE_SIZE_MB * 1024 * 1024.
Definition MAX_PARALLEL_JOBS : Z := 2.

(** A JS [Map] with string keys: iteration is in insertion order, [set] on
    a present key replaces the value in place, [delete] drops the entry. *)
Module JsMap.
Section Ops.
Context {V : Type}.

Fixpoint get (k : string) (m : list (string * V)) : option V :=
  match m with
  | [] => None
  | (k', v) :: m' => if decide (k' = k) then Some v else get k m'
  end.

Fixpoint set (k : string) (v : V) (m : list (string * V)) : list (string * V) :=
  match m with
  | [] => [(k, v)]
  | (k', v') :: m' =>
      if decide (k' = k) then (k', v) :: m' else (k', v') :: set k v m'
  end.

Fixpoint delete (k : string) (m : list (string * V)) : list (string * V) :=
  match m with
  | [] => []
  | (k', v') :: m' =>
      if decide (k' = k) then m' else (k', v') :: delete k m'
  end.

Definition values (m : list (string * V)) : list V := m.*2.
Definition keys (m : list (string * V)) : list string := m.*1.
End Ops.
End JsMap.

(** What [announce] writes to the live region.  The constructors stand for
    the message templates of the source:
    - [AnnAdded n]: "n uj kep hozzaadva a feldolgozasi sorhoz."
    - [AnnRejected n]: "n fajl meghaladta a 12 MB limitet es kimaradt."
    - [AnnRemoved name]: "name eltavolitva a sorbol."
    - [AnnFinished name]: "name feldolgozasa befejezodott."
    - [AnnFailed name]: "name feldolgozasa hibaval leallt."
    - [AnnZipStarted]: "Az osszes elkeszult kep letoltese megkezdodott."
    - [AnnZipFailed]: "A csomagolt letoltes nem sikerult, probald ujra." *)
Inductive Announcement :=
| AnnAdded (added : Z)
| AnnRejected (rejected : Z)
| AnnRemoved (name : string)
| AnnFinished (name : string)
| AnnFailed (name : string)
| AnnZipStarted
| AnnZipFailed.

(** One [<article class="job">] as [renderJobs] writes it: the attributes
    and texts that depend on the job (HTML escaping and the size label are
    left out). *)
Record JobCard := {
  card_id : string;
  card_src : string;
  card_name : string;
  card_status : JobStatus;
  card_error : option string;
  card_downloadDisabled : bool;
  card_retryHidden : bool;
  card_removeDisabled : bool
}.

Abbreviation RemovalJob := Job.t.
Abbreviation File := File.t.

(** The program state.
    - [heap]: the job objects ever created, by reference (an index); objects
      are mutated in place and never freed while referenced.
    - [jobs]: [const jobs = new Map<string, RemovalJob>()], from id to the
      reference of the job object.
    - [inflight]: the references captured by the [runJob] activations that
      are suspended at [await performBackgroundRemoval(job.file)].
    - [zipping]: the archives of the [downloadAllReadyJobs] activations that
      are suspended at [await zip.generateAsync(...)].
    - [nextUuid], [nextUrl]: how many identifiers [crypto.randomUUID] and
      [URL.createObjectURL] have minted.
    - [revoked]: the arguments of the calls of [URL.revokeObjectURL].
    - [liveRegion], [jobList]: every text [announce] wrote and every content
      [renderJobs] gave to [#job-list], newest first.
    - [summary]: the three counters of the summary section.
    - [downloads]: the links clicked, as (download name, href).
    - [archives]: the contents of the archives [zip.generateAsync] built.
    - [console]: the number of calls of [console.error]. *)
Record State := {
  heap : list RemovalJob;
  jobs : list (string * nat);
  readyJobCount : Z;
  activeWorkers : Z;
  inflight : list nat;
  zipping : list (list (string * ZipObject));
  nextUuid : nat;
  nextUrl : nat;
  revoked : list string;
  liveRegion : list Announcement;
  jobList : list (list JobCard);
  summary : Z * Z * Z;
  downloadAllDisabled : bool;
  downloads : list (string * string);
  archives : list (list (string * ZipObject));
  console : nat
}.

Definition set_heap (v : list RemovalJob) (s : State) : State :=
  {| heap := v; jobs := jobs s; readyJobCount := readyJobCount s;
     activeWorkers := activeWorkers s; inflight := inflight s;
     zipping := zipping s; nextUuid := nextUuid s; nextUrl := nextUrl s;
     revoked := revoked s; liveRegion := liveRegion s; jobList := jobList s;
     summary := summary s; downloadAllDisabled := downloadAllDisabled s;
     downloads := downloads s; archives := archives s;
     console := console s |}.
Definition set_jobs (v : list (string * nat)) (s : State) : State :=
  {| heap := heap s; jobs := v; readyJobCount := readyJobCount s;
     activeWorkers := activeWorkers s; inflight := inflight s;
     zipping := zipping s; nextUuid := nextUuid s; nextUrl := nextUrl s;
     revoked := revoked s; liveRegion := liveRegion s; jobList := jobList s;
     summary := summary s; downloadAllDisabled := downloadAllDisabled s;
     downloads := downloads s; archives := archives s;
     console := console s |}.
Definition set_readyJobCount (v : Z) (s : State) : State :=
  {| heap := heap s; jobs := jobs s; readyJobCount := v;
     activeWorkers := activeWorkers s; inflight := inflight s;
     zipping := zipping s; nextUuid := nextUuid s; nextUrl := nextUrl s;
     revoked := revoked s; liveRegion := liveRegion s; jobList := jobList s;
     summary := summary s; downloadAllDisabled := downloadAllDisabled s;
     downloads := downloads s; archives := archives s;
     console := console s |}.
Definition set_activeWorkers (v : Z) (s : State) : State :=
  {| heap := heap s; jobs := jobs s; readyJobCount := readyJobCount s;
     activeWorkers := v; inflight := inflight s; zipping := zipping s;
     nextUuid := nextUuid s; nextUrl := nextUrl s; revoked := revoked s;
     liveRegion := liveRegion s; jobList := jobList s; summary := summary s;
     downloadAllDisabled := downloadAllDisabled s; downloads := downloads s;
     archives := archives s; console := console s |}.
Definition set_inflight (v : list nat) (s : State) : State :=
  {| heap := heap s; jobs := jobs s; readyJobCount := readyJobCount s;
     activeWorkers := activeWorkers s; inflight := v; zipping := zipping s;
     nextUuid := nextUuid s; nextUrl := nextUrl s; revoked := revoked s;
     liveRegion := liveRegion s; jobList := jobList s; summary := summary s;
     downloadAllDisabled := downloadAllDisabled s; downloads := downloads s;
     archives := archives s; console := console s |}.
Definition set_zipping (v : list (list (string * ZipObject))) (s : State) : State :=
  {| heap := heap s; jobs := jobs s; readyJobCount := readyJobCount s;
     activeWorkers := activeWorkers s; inflight := inflight s; zipping := v;
     nextUuid := nextUuid s; nextUrl := nextUrl s; revoked := revoked s;
     liveRegion := liveRegion s; jobList := jobList s; summary := summary s;
     downloadAllDisabled := downloadAllDisabled s; downloads := downloads s;
     archives := archives s; console := console s |}.
Definition set_nextUuid (v : nat) (s : State) : State :=
  {| heap := heap s; jobs := jobs s; readyJobCount := readyJobCount s;
     activeWorkers := activeWorkers s; inflight := inflight s;
     zipping := zipping s; nextUuid := v; nextUrl := nextUrl s;
     revoked := revoked s; liveRegion := liveRegion s; jobList := jobList s;
     summary := summary s; downloadAllDisabled := downloadAllDisabled s;
     downloads := downloads s; archives := archives s;
     console := console s |}.
Definition set_nextUrl (v : nat) (s : State) : State :=
  {| heap := heap s; jobs := jobs s; readyJobCount := readyJobCount s;
     activeWorkers := activeWorkers s; inflight := inflight s;
     zipping := zipping s; nextUuid := nextUuid s; nextUrl := v;
     revoked := revoked s; liveRegion := liveRegion s; jobList := jobList s;
     summary := summary s; downloadAllDisabled := downloadAllDisabled s;
     downloads := downloads s; archives := archives s;
     console := console s |}.
Definition set_revoked (v : list string) (s : State) : State :=
  {| heap := heap s; jobs := jobs s; readyJobCount := readyJobCount s;
     activeWorkers := activeWorkers s; inflight := inflight s;
     zipping := zipping s; nextUuid := nextUuid s; nextUrl := nextUrl s;
     revoked := v; liveRegion := liveRegion s; jobList := jobList s;
     summary := summary s; downloadAllDisabled := downloadAllDisabled s;
     downloads := downloads s; archives := archives s;
     console := console s |}.
Definition set_liveRegion (v : list Announcement) (s : State) : State :=
  {| heap := heap s; jobs := jobs s; readyJobCount := readyJobCount s;
     activeWorkers := activeWorkers s; inflight := inflight s;
     zipping := zipping s; nextUuid := nextUuid s; nextUrl := nextUrl s;
     revoked := revoked s; liveRegion := v; jobList := jobList s;
     summary := summary s; downloadAllDisabled := downloadAllDisabled s;
     downloads := downloads s; archives := archives s;
     console := console s |}.
Definition set_jobList (v : list (list JobCard)) (s : State) : State :=
  {| heap := heap s; jobs := jobs s; readyJobCount := readyJobCount s;
     activeWorkers := activeWorkers s; inflight := inflight s;
     zipping := zipping s; nextUuid := nextUuid s; nextUrl := nextUrl s;
     revoked := revoked s; liveRegion := liveRegion s; jobList := v;
     summary := summary s; downloadAllDisabled := downloadAllDisabled s;
     downloads := downloads s; archives := archives s;
     console := console s |}.
Definition set_summary (v : Z * Z * Z) (s : State) : State :=
  {| heap := heap s; jobs := jobs s; readyJobCount := readyJobCount s;
     activeWorkers := activeWorkers s; inflight := inflight s;
     zipping := zipping s; nextUuid := nextUuid s; nextUrl := nextUrl s;
     revoked := revoked s; liveRegion := liveRegion s; jobList := jobList s;
     summary := v; downloadAllDisabled := downloadAllDisabled s;
     downloads := downloads s; archives := archives s;
     console := console s |}.
Definition set_downloadAllDisabled (v : bool) (s : State) : State :=
  {| heap := heap s; jobs := jobs s; readyJobCount := readyJobCount s;
     activeWorkers := activeWorkers s; inflight := inflight s;
     zipping := zipping s; nextUuid := nextUuid s; nextUrl := nextUrl s;
     revoked := revoked s; liveRegion := liveRegion s; jobList := jobList s;
     summary := summary s; downloadAllDisabled := v;
     downloads := downloads s; archives := archives s;
     console := console s |}.
Definition set_downloads (v : list (string * string)) (s : State) : State :=
  {| heap := heap s; jobs := jobs s; readyJobCount := readyJobCount s;
     activeWorkers := activeWorkers s; inflight := inflight s;
     zipping := zipping s; nextUuid := nextUuid s; nextUrl := nextUrl s;
     revoked := revoked s; liveRegion := liveRegion s; jobList := jobList s;
     summary := summary s; downloadAllDisabled := downloadAllDisabled s;
     downloads := v; archives := archives s; console := console s |}.
Definition set_archives (v : list (list (string * ZipObject))) (s : State) : State :=
  {| heap := heap s; jobs := jobs s; readyJobCount := readyJobCount s;
     activeWorkers := activeWorkers s; inflight := inflight s;
     zipping := zipping s; nextUuid := nextUuid s; nextUrl := nextUrl s;
     revoked := revoked s; liveRegion := liveRegion s; jobList := jobList s;
     summary := summary s; downloadAllDisabled := downloadAllDisabled s;
     downloads := downloads s; archives := v; console := console s |}.
Definition set_console (v : nat) (s : State) : State :=
  {| heap := heap s; jobs := jobs s; readyJobCount := readyJobCount s;
     activeWorkers := activeWorkers s; inflight := inflight s;
     zipping := zipping s; nextUuid := nextUuid s; nextUrl := nextUrl s;
     revoked := revoked s; liveRegion := liveRegion s; jobList := jobList s;
     summary := summary s; downloadAllDisabled := downloadAllDisabled s;
     downloads := downloads s; archives := archives s; console := v |}.

(** The state when the module has been evaluated: an empty store, no
    worker, the placeholder in [#job-list] (no card), the export button
    disabled. *)
Definition init : State :=
  {| heap := []; jobs := []; readyJobCount := 0; activeWorkers := 0;
     inflight := []; zipping := []; nextUuid := 0; nextUrl := 0; revoked := [];
     liveRegion := []; jobList := [[]]; summary := (0, 0, 0);
     downloadAllDisabled := true; downloads := []; archives := [];
     console := 0 |}.

(* ===================================================================== *)
(** ** The browser capabilities the program calls *)
(* ===================================================================== *)

(** [crypto.randomUUID()]: a fresh identifier at every call. *)
Definition randomUUID (s : State) : string * State :=
  (pretty (nextUuid s), set_nextUuid (S (nextUuid s)) s).

(** [URL.createObjectURL(object)]: a fresh URL of the [blob:] scheme (what
    the URL stands for is not recorded). *)
Definition createObjectURL (s : State) : string * State :=
  ("blob:" +:+ pretty (nextUrl s), set_nextUrl (S (nextUrl s)) s).

Definition revokeObjectURL (url : string) (s : State) : State :=
  set_revoked (url :: revoked s) s.

Definition announce (message : Announcement) (s : State) : State :=
  set_liveRegion (message :: liveRegion s) s.

Definition console_error (s : State) : State := set_console (S (console s)) s.

(** A string in a boolean context: the empty string is falsy. *)
Definition truthy (u : string) : bool := negb (String.eqb u "").

(** [url && url.startsWith('blob:')] on an optional field. *)
Definition isBlobUrl (u : option string) : bool :=
  match u with
  | Some url => truthy url && String.prefix "blob:" url
  | None => false
  end.

(** [if (url && url.startsWith('blob:')) URL.revokeObjectURL(url)] *)
Definition revokeBlobUrl (u : option string) (s : State) : State :=
  match u with
  | Some url => if isBlobUrl u then revokeObjectURL url s else s
  | None => s
  end.

(* ===================================================================== *)
(** ** The store and its views *)
(* ===================================================================== *)

(** Mutation of the job object behind a reference. *)
Definition update_job (a : nat) (f : RemovalJob -> RemovalJob) (s : State) : State :=
  set_heap (alter f a (heap s)) s.

(** [Array.from(jobs.values())], as references and as objects. *)
Definition refs (s : State) : list nat := JsMap.values (jobs s).
Definition values (s : State) : list RemovalJob :=
  omap (fun a => heap s !! a) (refs s).

Definition has_status (st : JobStatus) (job : RemovalJob) : bool :=
  bool_decide (Job.status job = st).

Definition ref_has_status (s : State) (st : JobStatus) (a : nat) : bool :=
  match heap s !! a with
  | Some job => has_status st job
  | None => false
  end.

Definition count_status (st : JobStatus) (s : State) : Z :=
  Z.of_nat (length (filter (has_status st) (values s))).

Definition updateBatchDownloadState (s : State) : State :=
  set_downloadAllDisabled (readyJobCount s =? 0) s.

Definition updateSummary (s : State) : State :=
  let vals := values s in
  let active :=
    Z.of_nat (length (filter
      (fun job => has_status pending job || has_status processing job) vals)) in
  let done := Z.of_nat (length (filter (has_status ready) vals)) in
  let failed := Z.of_nat (length (filter (has_status error) vals)) in
  s |> set_readyJobCount done
    |> set_summary (active, done, failed)
    |> updateBatchDownloadState.

Definition card (job : RemovalJob) : JobCard :=
  {| card_id := Job.id job;
     card_src := match Job.resultUrl job with
                 | Some u => u
                 | None => Job.previewUrl job
                 end;
     card_name := File.name (Job.file job);
     card_status := Job.status job;
     card_error := match Job.error job with
                   | Some e => if truthy e then Some e else None
                   | None => None
                   end;
     card_downloadDisabled := negb (has_status ready job);
     card_retryHidden := negb (has_status error job);
     card_removeDisabled := has_status processing job |}.

(** What [renderJobs] would write now: the cards, newest job first (the
    empty store gives the placeholder, no card). *)
Definition view (s : State) : list JobCard := reverse (card <$> values s).

Definition renderJobs (s : State) : State :=
  set_jobList (view s :: jobList s) s.

(* ===================================================================== *)
(** ** Admission: [createJob], [addFiles] *)
(* ===================================================================== *)

(** [jobs.set(id, job)] and [jobs.delete(id)], [job] by reference. *)
Definition jobs_set (id : string) (a : nat) (s : State) : State :=
  set_jobs (JsMap.set id a (jobs s)) s.

Definition jobs_delete (id : string) (s : State) : State :=
  set_jobs (JsMap.delete id (jobs s)) s.

(** [createJob]: a new job object; the result is its reference, with the
    object as created. *)
Definition createJob (file : File) (s : State) : nat * RemovalJob * State :=
  let '(id, s1) := randomUUID s in
  let '(previewUrl, s2) := createObjectURL s1 in
  let job := Job.mk id file pending previewUrl None None None in
  (length (heap s2), job, set_heap (heap s2 ++ [job]) s2).

(** The files that pass both tests of [addFiles]. *)
Definition acceptable (file : File) : bool :=
  String.prefix "image/" (File.type file) && negb (MAX_FILE_SIZE_BYTES <? File.size file).

(** The body of the [forEach] of [addFiles], on the state and the two
    counters [added] and [rejected]. *)
Definition addFile (acc : State * Z * Z) (file : File) : State * Z * Z :=
  let '(s, added, rejected) := acc in
  if negb (String.prefix "image/" (File.type file)) then (s, added, rejected)
  else if MAX_FILE_SIZE_BYTES <? File.size file then (s, added, rejected + 1)
  else
    let '(a, job, s1) := createJob file s in
    (jobs_set (Job.id job) a s1, added + 1, rejected).

(* ===================================================================== *)
(** ** The scheduler and the worker *)
(* ===================================================================== *)

(** [runJob] up to its [await]: the job reference joins [inflight]. *)
Definition runJob (a : nat) (s : State) : State :=
  s |> (fun s => set_activeWorkers (activeWorkers s + 1) s)
    |> update_job a (Job.set_status processing)
    |> update_job a (Job.set_error None)
    |> renderJobs
    |> updateSummary
    |> (fun s => set_inflight (inflight s ++ [a]) s).

(** [Array.from(jobs.values()).find((item) => item.status === 'pending')] *)
Definition find_pending (s : State) : option nat :=
  List.find (ref_has_status s pending) (refs s).

(** The [while] loop of [startNextJobs], for at most [fuel] iterations. *)
Fixpoint startNextJobs_loop (fuel : nat) (s : State) : State :=
  match fuel with
  | O => s
  | S fuel' =>
      if activeWorkers s <? MAX_PARALLEL_JOBS then
        match find_pending s with
        | Some a => startNextJobs_loop fuel' (runJob a s)
        | None => s
        end
      else s
  end.

(** Every iteration turns a pending job of the store into a processing one,
    so the loop ends within as many iterations as the store has jobs. *)
Definition startNextJobs (s : State) : State :=
  startNextJobs_loop (length (jobs s)) s.

(** What [await performBackgroundRemoval] gives back to [runJob]. *)
Inductive Thrown := ErrorObject (message : string) | OtherValue.
Inductive Settlement := Resolved (blob : Blob) | Rejected (e : Thrown).

(** The [try] block of [runJob] after the [await]. *)
Definition runJob_try (a : nat) (blob : Blob) (s : State) : State :=
  match heap s !! a with
  | None => s
  | Some job =>
      let s1 := revokeBlobUrl (Job.resultUrl job) s in
      let s2 := update_job a (Job.set_resultBlob (Some blob)) s1 in
      let '(url, s3) := createObjectURL s2 in
      s3 |> update_job a (Job.set_resultUrl (Some url))
         |> update_job a (Job.set_status ready)
         |> announce (AnnFinished (File.name (Job.file job)))
  end.

(** The [catch] block of [runJob]. *)
Definition runJob_catch (a : nat) (e : Thrown) (s : State) : State :=
  match heap s !! a with
  | None => s
  | Some job =>
      let message := match e with
                     | ErrorObject m => m
                     | OtherValue => "Ismeretlen hiba történt."
                     end in
      s |> update_job a (Job.set_status error)
        |> update_job a (Job.set_error (Some message))
        |> announce (AnnFailed (File.name (Job.file job)))
  end.

(** The [finally] block of [runJob]. *)
Definition runJob_finally (s : State) : State :=
  s |> renderJobs
    |> updateSummary
    |> (fun s => set_activeWorkers (Z.max 0 (activeWorkers s - 1)) s)
    |> startNextJobs.

(** Removes the first occurrence of a reference. *)
Fixpoint remove_first (a : nat) (l : list nat) : list nat :=
  match l with
  | [] => []
  | b :: l' => if decide (b = a) then l' else b :: remove_first a l'
  end.

(** [runJob] from its [await] to its end, for the activation that holds the
    reference [a]. *)
Definition runJob_resume (a : nat) (o : Settlement) (s : State) : State :=
  let s1 := set_inflight (remove_first a (inflight s)) s in
  let s2 := match o with
            | Resolved blob => runJob_try a blob s1
            | Rejected e => runJob_catch a e s1
            end in
  runJob_finally s2.

(* ===================================================================== *)
(** ** The click handler of the job list *)
(* ===================================================================== *)

(** [cleanupJobUrls] *)
Definition cleanupJobUrls (a : nat) (s : State) : State :=
  match heap s !! a with
  | None => s
  | Some job =>
      s |> revokeObjectURL (Job.previewUrl job)
        |> revokeBlobUrl (Job.resultUrl job)
        |> update_job a (Job.set_resultBlob None)
  end.

Fixpoint hasDot (s : string) : bool :=
  match s with
  | EmptyString => false
  | String c rest => Ascii.eqb c "."%char || hasDot rest
  end.

(** [name.replace(/\.[^.]+$/, '')]: the match starts at the first dot that
    is followed by at least one character and by no other dot. *)
Fixpoint stripExtension (s : string) : string :=
  match s with
  | EmptyString => EmptyString
  | String c rest =>
      if Ascii.eqb c "."%char && truthy rest && negb (hasDot rest)
      then EmptyString
      else String c (stripExtension rest)
  end.

(** [`${name.replace(/\.[^.]+$/, '') || 'eltavolitott-hatter'}-bg-removed.png`] *)
Definition downloadName (name : string) : string :=
  let stripped := stripExtension name in
  let baseName := if truthy stripped then stripped else "eltavolitott-hatter" in
  baseName +:+ "-bg-removed.png".

(** A click on a link made for the occasion: the browser downloads [href]
    under [name]. *)
Definition click_link (name href : string) (s : State) : State :=
  set_downloads ((name, href) :: downloads s) s.

(** [button.dataset.action] of the three buttons of a card. *)
Inductive Action := remove | download | retry.

(** How a handler ends: it returns, or an exception leaves it. *)
Inductive Completion := Normal | Throw (errorName : string).

(** The click handler of [#job-list], for a click on the button [action] of
    the card whose [data-id] is [id].  (A reference of the store always
    leads to its object: objects are not freed.) *)
Definition jobListClick (id : string) (action : Action) (s : State)
  : State * Completion :=
  match JsMap.get id (jobs s) with
  | None => (s, Normal)
  | Some a =>
      match heap s !! a with
      | None => (s, Normal)
      | Some job =>
          match action with
          | remove =>
              if has_status processing job then (s, Normal)
              else
                (s |> cleanupJobUrls a
                   |> jobs_delete id
                   |> renderJobs
                   |> updateSummary
                   |> announce (AnnRemoved (File.name (Job.file job))),
                 Normal)
          | download =>
              match Job.resultUrl job with
              | Some url =>
                  if negb (has_status ready job) || negb (truthy url)
                  then (s, Normal)
                  else (click_link (downloadName (File.name (Job.file job))) url s,
                        Normal)
              | None => (s, Normal)
              end
          | retry =>
              if negb (has_status error job) then (s, Normal)
              else
                (s |> update_job a (Job.set_status pending)
                   |> update_job a (Job.set_error None)
                   |> renderJobs
                   |> updateSummary
                   |> startNextJobs,
                 Normal)
          end
      end
  end.

(** [addFiles] *)
Definition addFiles (fileList : list File) (s : State) : State :=
  let '(s1, added, rejected) := fold_left addFile fileList (s, 0, 0) in
  let s2 := if 0 <? added
            then s1 |> renderJobs
                    |> updateSummary
                    |> announce (AnnAdded added)
                    |> startNextJobs
            else s1 in
  if 0 <? rejected then announce (AnnRejected rejected) s2 else s2.

(* ===================================================================== *)
(** ** The archive export *)
(* ===================================================================== *)

(** The archive builder is the library JSZip (version 3), whose code is not
    part of the repository.  An archive is its table [files], from entry
    name to entry, in the order the names were first filed (no name of this
    program is an array index, so the order of a JS object's keys is the
    order of insertion).  [zip.file(name, blob)] is the library's
    [fileAdd] with its default option [createFolders: true]: it makes sure
    the folders of the name exist, then files the entry, replacing the
    entry that has this name. *)

(** [path.slice(-1) === "/"] *)
Fixpoint endsWithSlash (path : string) : bool :=
  match path with
  | EmptyString => false
  | String c rest =>
      match rest with
      | EmptyString => Ascii.eqb c "/"%char
      | String _ _ => endsWithSlash rest
      end
  end.

(** [path.substring(0, path.length - 1)] *)
Fixpoint dropLast (path : string) : string :=
  match path with
  | EmptyString => EmptyString
  | String c rest =>
      match rest with
      | EmptyString => EmptyString
      | String _ _ => String c (dropLast rest)
      end
  end.

(** [path.substring(0, path.lastIndexOf("/"))] for a path that has a
    slash, [None] for a path without one. *)
Fixpoint beforeLastSlash (path : string) : option string :=
  match path with
  | EmptyString => None
  | String c rest =>
      match beforeLastSlash rest with
      | Some parent => Some (String c parent)
      | None => if Ascii.eqb c "/"%char then Some EmptyString else None
      end
  end.

(** JSZip's [forceTrailingSlash]: the path, ended by a slash. *)
Definition forceTrailingSlash (path : string) : string :=
  if endsWithSlash path then path else path +:+ "/".

(** JSZip's [parentFolder]: the path without one trailing slash, up to its
    last slash; the empty string when it has no slash past its first
    character. *)
Definition parentFolder (path : string) : string :=
  let path := if endsWithSlash path then dropLast path else path in
  match beforeLastSlash path with
  | Some parent => parent
  | None => EmptyString
  end.

(** JSZip's [folderAdd(name, true)]: when no entry has the name of the
    folder, the folder is filed by [fileAdd(name, null, {dir: true})], after
    its own parent folder.  The parent is a shorter path, so the recursion
    ends within as many calls as the name has characters (lemma
    [folderAdd_fuel]); [fuel] bounds the calls. *)
Fixpoint folderAdd (fuel : nat) (name : string) (files : list (string * ZipObject))
  : list (string * ZipObject) :=
  match fuel with
  | O => files
  | S fuel' =>
      let name := forceTrailingSlash name in
      match JsMap.get name files with
      | Some _ => files
      | None =>
          let parent := parentFolder name in
          let files1 := if truthy parent then folderAdd fuel' parent files else files in
          JsMap.set name ZipFolder files1
      end
  end.

(** [zip.file(name, blob)] *)
Definition JSZip_file (name : string) (blob : Blob) (zip : list (string * ZipObject))
  : list (string * ZipObject) :=
  let parent := parentFolder name in
  let zip1 := if truthy parent then folderAdd (String.length name) parent zip else zip in
  JsMap.set name (ZipFile blob) zip1.

(** The entries of the archive after a sequence of [zip.file] calls. *)
Definition JSZip_entries (calls : list (string * Blob)) : list (string * ZipObject) :=
  fold_left (fun zip c => JSZip_file c.1 c.2 zip) calls [].

(** [job.status === 'ready' && (job.resultBlob || job.resultUrl)] *)
Definition exportable (job : RemovalJob) : bool :=
  has_status ready job &&
  (bool_decide (is_Some (Job.resultBlob job)) ||
   match Job.resultUrl job with Some url => truthy url | None => false end).

Definition ref_exportable (s : State) (a : nat) : bool :=
  match heap s !! a with
  | Some job => exportable job
  | None => false
  end.

(** The [for] loop of [downloadAllReadyJobs] over the snapshot [readyJobs].
    [fetch url] is what [await fetch(url)] followed by [response.blob()]
    gives ([None]: it throws, which ends the loop).  The result is the list
    of the [zip.file] calls made, oldest first. *)
Fixpoint zip_loop (fetch : string -> option Blob) (readyJobs : list nat)
    (calls : list (string * Blob)) (s : State)
  : option (list (string * Blob)) * State :=
  match readyJobs with
  | [] => (Some calls, s)
  | a :: rest =>
      match heap s !! a with
      | None => zip_loop fetch rest calls s
      | Some job =>
          let name := downloadName (File.name (Job.file job)) in
          match Job.resultBlob job with
          | Some blob => zip_loop fetch rest (calls ++ [(name, blob)]) s
          | None =>
              match Job.resultUrl job with
              | Some url =>
                  if truthy url then
                    match fetch url with
                    | Some blob =>
                        zip_loop fetch rest (calls ++ [(name, blob)])
                          (update_job a (Job.set_resultBlob (Some blob)) s)
                    | None => (None, s)
                    end
                  else zip_loop fetch rest calls s
              | None => zip_loop fetch rest calls s
              end
          end
      end
  end.

(** [new Date().toISOString().replace(/[:.]/g, '-')] on the clock reading
    [now]. *)
Fixpoint timestamp (now : string) : string :=
  match now with
  | EmptyString => EmptyString
  | String c rest =>
      String (if Ascii.eqb c ":"%char || Ascii.eqb c "."%char then "-"%char else c)
             (timestamp rest)
  end.

(** [downloadAllReadyJobs] up to [await zip.generateAsync(...)]: the archive
    joins [zipping].  The loop itself is taken in one step; in the states
    the program reaches every ready job holds its bytes, so the loop never
    fetches and never suspends (lemmas [readyJobs_blobs], [zip_loop_blobs]).
    A return or a throw inside the [try] runs the [finally] block. *)
Definition downloadAllReadyJobs (fetch : string -> option Blob) (s : State)
  : State :=
  if readyJobCount s =? 0 then s
  else
    let s0 := set_downloadAllDisabled true s in
    let readyJobs := filter (ref_exportable s0) (refs s0) in
    if bool_decide (readyJobs = []) then updateBatchDownloadState s0
    else
      match zip_loop fetch readyJobs [] s0 with
      | (Some calls, s1) =>
          set_zipping (zipping s1 ++ [JSZip_entries calls]) s1
      | (None, s1) =>
          s1 |> console_error
             |> announce AnnZipFailed
             |> updateBatchDownloadState
      end.

(** [downloadAllReadyJobs] from [await zip.generateAsync(...)] to its end,
    for the activation that waits for the [i]-th archive of [zipping].
    [generateOk] tells whether the promise fulfils, [now] is the clock
    reading.  (The revocation of the archive URL five seconds later is left
    out.) *)
Definition downloadAllReadyJobs_resume (i : nat) (generateOk : bool)
    (now : string) (s : State) : State :=
  match zipping s !! i with
  | None => s
  | Some entries =>
      let s1 := set_zipping (delete i (zipping s)) s in
      let s2 :=
        if generateOk then
          let s2 := set_archives (entries :: archives s1) s1 in
          let '(href, s3) := createObjectURL s2 in
          s3 |> click_link ("bg-removed-" +:+ timestamp now +:+ ".zip") href
             |> announce AnnZipStarted
        else s1 |> console_error |> announce AnnZipFailed in
      updateBatchDownloadState s2
  end.

(** The click handler of [#download-all]. *)
Definition downloadAllClick (fetch : string -> option Blob) (s : State)
  : State * Completion :=
  if readyJobCount s =? 0 then (s, Normal)
  else (downloadAllReadyJobs fetch s, Normal).

(* ===================================================================== *)
(** ** Runs of the program *)
(* ===================================================================== *)

Inductive Event :=
| AddFiles (fileList : list File)
| Click (id : string) (action : Action)
| Settle (a : nat) (o : Settlement)
| DownloadAll (fetch : string -> option Blob)
| ZipSettle (i : nat) (generateOk : bool) (now : string).

(** One event-loop step.  A promise can only settle for an activation that
    is suspended on it: [Settle] is for a reference of [inflight],
    [ZipSettle] for an index of [zipping]; elsewhere they do nothing. *)
Definition step (s : State) (e : Event) : State :=
  match e with
  | AddFiles fileList => addFiles fileList s
  | Click id action => (jobListClick id action s).1
  | Settle a o => if bool_decide (a ∈ inflight s) then runJob_resume a o s else s
  | DownloadAll fetch => (downloadAllClick fetch s).1
  | ZipSettle i generateOk now => downloadAllReadyJobs_resume i generateOk now s
  end.

Definition run (events : list Event) (s : State) : State :=
  fold_left step events s.

(** The states the program can be in between two event-loop steps. *)
Definition reachable (s : State) : Prop := exists events, s = run events init.

(* ===================================================================== *)
(** ** Sample data *)
(* ===================================================================== *)

Definition png (name : string) (size : Z) : File := File.mk name size "image/png".

Definition statuses (s : State) : list JobStatus := Job.status <$> values s.

(* ===================================================================== *)
(** ** Properties of states *)
(* ===================================================================== *)

(** The moves of a job's status between two consecutive observations:
    none, or one edge of
    pending -> processing -> (ready | error), error -> pending. *)
Definition status_step (st st' : JobStatus) : Prop :=
  st' = st ∨
  (st = pending ∧ st' = processing) ∨
  (st = processing ∧ (st' = ready ∨ st' = error)) ∨
  (st = error ∧ st' = pending).


(** Two consecutive contents of [#job-list]: a card that is in both (the
    same [data-id]) made a [status_step]. *)
Definition snap_step (old new : list JobCard) : Prop :=
  ∀ c c', c ∈ old → c' ∈ new → card_id c = card_id c' →
    status_step (card_status c) (card_status c').

(** A history of contents, newest first. *)
Definition history_ok (h : list (list JobCard)) : Prop :=
  ∀ (i : nat) new old, h !! i = Some new → h !! S i = Some old → snap_step old new.

(** The number of cards of a content that show the status [st]. *)
Definition count_cards (st : JobStatus) (snap : list JobCard) : Z :=
  Z.of_nat (length (filter (λ c, card_status c = st) snap)).

(** The job holds a result exactly when it is ready, an error message
    exactly when it is in error; its result URL is a [blob:] URL and its
    file passed admission. *)
Record fields_ok (job : RemovalJob) : Prop := {
  fields_blob : is_Some (Job.resultBlob job) ↔ Job.status job = ready;
  fields_url : is_Some (Job.resultUrl job) ↔ Job.status job = ready;
  fields_error : is_Some (Job.error job) ↔ Job.status job = error;
  fields_blob_url : ∀ u, Job.resultUrl job = Some u → isBlobUrl (Some u) = true;
  fields_file : acceptable (Job.file job) = true
}.

(** The store is well formed: keys and references are not repeated, every
    entry leads to a job object that carries the key as its id, and the
    keys were minted by [randomUUID]. *)
Record StoreWf (s : State) : Prop := {
  wf_keys : NoDup (JsMap.keys (jobs s));
  wf_refs : NoDup (refs s);
  wf_heap : ∀ id a, (id, a) ∈ jobs s →
    ∃ job, heap s !! a = Some job ∧ Job.id job = id ∧ fields_ok job;
  wf_fresh : ∀ id, id ∈ JsMap.keys (jobs s) →
    ∃ k : nat, (k < nextUuid s)%nat ∧ id = pretty k
}.

(** The suspended workers are exactly the processing jobs of the store, one
    worker each, and [activeWorkers] counts them. *)
Record Workers (s : State) : Prop := {
  wk_nodup : NoDup (inflight s);
  wk_inflight : ∀ a, a ∈ inflight s ↔
    a ∈ refs s ∧ ∃ job, heap s !! a = Some job ∧ Job.status job = processing;
  wk_active : activeWorkers s = Z.of_nat (length (inflight s));
  wk_bound : activeWorkers s <= MAX_PARALLEL_JOBS
}.

(** The page shows the store: the last content rendered is the view of the
    store, [readyJobCount] is the number of ready jobs, and the history of
    contents is bounded and moves by [snap_step]. *)
Record DomOk (s : State) : Prop := {
  dom_view : head (jobList s) = Some (view s);
  dom_ready : readyJobCount s = count_status ready s;
  dom_bound : Forall (λ snap, count_cards processing snap <= MAX_PARALLEL_JOBS) (jobList s);
  dom_steps : history_ok (jobList s)
}.

(** The invariant of the program: it holds between any two event-loop
    steps (theorem [reachable_Inv]). *)
Record Inv (s : State) : Prop := {
  inv_store : StoreWf s;
  inv_workers : Workers s;
  inv_dom : DomOk s
}.

(** The pending jobs of the store, oldest first. *)
Definition pendingRefs (s : State) : list nat :=
  filter (λ a, ref_has_status s pending a) (refs s).

(* ===================================================================== *)
(** ** The handlers, piece by piece *)
(* ===================================================================== *)

(** What [runJob] writes to the job object before it suspends. *)
Definition start_fields (job : RemovalJob) : RemovalJob :=
  Job.set_error None (Job.set_status processing job).

(** What the [try] or the [catch] block writes to the job object; [url] is
    the URL minted for the result. *)
Definition settle_fields (o : Settlement) (url : string) (job : RemovalJob)
  : RemovalJob :=
  match o with
  | Resolved blob =>
      Job.set_status ready
        (Job.set_resultUrl (Some url) (Job.set_resultBlob (Some blob) job))
  | Rejected e =>
      Job.set_error
        (Some match e with
              | ErrorObject m => m
              | OtherValue => "Ismeretlen hiba történt."
              end)
        (Job.set_status error job)
  end.

(** The state of [runJob_resume] when it calls [startNextJobs]. *)
Definition settled (a : nat) (o : Settlement) (s : State) : State :=
  let s1 := set_inflight (remove_first a (inflight s)) s in
  let s2 := match o with
            | Resolved blob => runJob_try a blob s1
            | Rejected e => runJob_catch a e s1
            end in
  s2 |> renderJobs
     |> updateSummary
     |> (fun s => set_activeWorkers (Z.max 0 (activeWorkers s - 1)) s).

(** What the retry branch writes to the job object. *)
Definition retry_fields (job : RemovalJob) : RemovalJob :=
  Job.set_error None (Job.set_status pending job).

(** The state of the retry branch when it calls [startNextJobs]. *)
Definition retried (a : nat) (s : State) : State :=
  s |> update_job a (Job.set_status pending)
    |> update_job a (Job.set_error None)
    |> renderJobs
    |> updateSummary.

(** The state the remove branch leaves. *)
Definition removed (id : string) (a : nat) (job : RemovalJob) (s : State) : State :=
  s |> cleanupJobUrls a
    |> jobs_delete id
    |> renderJobs
    |> updateSummary
    |> announce (AnnRemoved (File.name (Job.file job))).

(** The image files over the size limit: the ones [addFiles] counts in
    [rejected]. *)
Definition oversized (file : File) : bool :=
  String.prefix "image/" (File.type file) && (MAX_FILE_SIZE_BYTES <? File.size file).

(** The job object [createJob] makes in state [s]. *)
Definition new_job (file : File) (s : State) : RemovalJob :=
  Job.mk (pretty (nextUuid s)) file pending ("blob:" +:+ pretty (nextUrl s))
         None None None.

(** The state after an accepted file went through the body of the loop. *)
Definition enqueue (file : File) (s : State) : State :=
  let '(a, job, s1) := createJob file s in jobs_set (Job.id job) a s1.

(** [s'] extends [s]: the store kept its entries and its objects, and
    nothing else moved. *)
Record extends (s s' : State) : Prop := {
  ext_jobs : ∀ id a, (id, a) ∈ jobs s → (id, a) ∈ jobs s';
  ext_heap : ∀ a job, heap s !! a = Some job → heap s' !! a = Some job;
  ext_inflight : inflight s' = inflight s;
  ext_active : activeWorkers s' = activeWorkers s;
  ext_jobList : jobList s' = jobList s;
  ext_ready : readyJobCount s' = readyJobCount s;
  ext_liveRegion : liveRegion s' = liveRegion s
}.

(** The state of [addFiles] when it calls [startNextJobs]. *)
Definition added_state (added : Z) (s1 : State) : State :=
  s1 |> renderJobs |> updateSummary |> announce (AnnAdded added).

(** The [zip.file] call the export makes for a job that holds [blob]. *)
Definition zip_call (job : RemovalJob) (blob : Blob) : string * Blob :=
  (downloadName (File.name (Job.file job)), blob).

(** The call made for the job behind a reference, when it holds its bytes. *)
Definition entry_of (s : State) (a : nat) : option (string * Blob) :=
  job ← heap s !! a; blob ← Job.resultBlob job; Some (zip_call job blob).

(** A handler signals a condition when it throws, announces a message or
    logs an error. *)
Definition signals (s s' : State) (c : Completion) : Prop :=
  c ≠ Normal ∨ liveRegion s' ≠ liveRegion s ∨ console s' ≠ console s.

(** A job object before and after the scheduler ran: untouched, or pending
    and started. *)
Definition started_or_same (job job' : RemovalJob) : Prop :=
  job' = job ∨ (Job.status job = pending ∧ job' = start_fields job).

(** Three pending jobs and no worker: the store in the middle of
    [addFiles], before the scheduler is called. *)
Definition three_pending : State :=
  enqueue (png "c.png" 30) (enqueue (png "b.png" 20) (enqueue (png "a.png" 10) init)).

(** The job of the queue after one image was added and its removal
    fulfilled with the bytes ["A"]. *)
Definition ready_job : RemovalJob :=
  Job.mk "0" (png "a.png" 10) ready "blob:0" (Some "blob:1") (Some "A") None.

(* ===================================================================== *)
(** ** The texts of a card: [escapeHtml] *)
(* ===================================================================== *)

(** The character class of the pattern of [escapeHtml]: the ampersand, the
    two angle brackets, the apostrophe and the double quote (written by its
    code). *)
Definition markup : list ascii := ["&"; "<"; ">"; "'"; "034"]%char.

(** The object literal of [escapeHtml]: the character reference of each
    character of the class. *)
Definition entities : list (ascii * string) :=
  [("&"%char, "&amp;"); ("<"%char, "&lt;"); (">"%char, "&gt;");
   ("'"%char, "&#39;"); ("034"%char, "&quot;")].

(** [table[char]], [None] for [undefined]. *)
Fixpoint entity_of (char : ascii) (table : list (ascii * string)) : option string :=
  match table with
  | [] => None
  | (c, e) :: table' => if Ascii.eqb c char then Some e else entity_of char table'
  end.

(** The replacer [(char) => table[char] ?? char]. *)
Definition replacer (char : ascii) : string :=
  default (String char "") (entity_of char entities).

(** [input.replace(pattern, replacer)], the pattern global: every character of the class is
    replaced, the others are kept.  (The five characters are ASCII, so the
    replacement reads the same on the bytes of the text as on its UTF-16
    code units.) *)
Fixpoint escapeHtml (input : string) : string :=
  match input with
  | EmptyString => EmptyString
  | String c rest =>
      (if bool_decide (c ∈ markup) then replacer c else String c EmptyString)
      +:+ escapeHtml rest
  end.

(** The characters of a text. *)
Abbreviation chars := list_ascii_of_string.

(* ===================================================================== *)
(** ** The controls of the page *)
(* ===================================================================== *)

(** What the three counters of the summary section show when they are up
    to date: the jobs waiting or running, the jobs done, the jobs failed. *)
Definition summary_of (s : State) : Z * Z * Z :=
  (count_status pending s + count_status processing s,
   count_status ready s, count_status error s).

(** The controls as [updateSummary] leaves them. *)
Record Fresh (s : State) : Prop := {
  fresh_summary : summary s = summary_of s;
  fresh_button : downloadAllDisabled s = (readyJobCount s =? 0)
}.

(** The controls between two event-loop steps: the counters are up to
    date; the export button is enabled only when a job is ready, and when
    no export is under way it is enabled whenever one is. *)
Record Sync (s : State) : Prop := {
  sync_summary : summary s = summary_of s;
  sync_enabled : downloadAllDisabled s = false → readyJobCount s ≠ 0;
  sync_idle : zipping s = [] → downloadAllDisabled s = (readyJobCount s =? 0)
}.

(** The scheduler leaves no slot idle: a job waits only when every worker
    is taken. *)
Definition Saturated (s : State) : Prop :=
  pendingRefs s = [] ∨ activeWorkers s = MAX_PARALLEL_JOBS.

(* ===================================================================== *)
(** ** Object URLs *)
(* ===================================================================== *)

(** The object URLs a job holds: its preview, and its result when it has
    one. *)
Definition job_urls (job : RemovalJob) : list string :=
  Job.previewUrl job ::
  match Job.resultUrl job with Some url => [url] | None => [] end.

(** The URLs held through the reference [a]: those of its job when the
    store holds it, none otherwise. *)
Definition store_urls (s : State) (a : nat) : list string :=
  if bool_decide (a ∈ refs s)
  then match heap s !! a with Some job => job_urls job | None => [] end
  else [].

(** The URLs [URL.createObjectURL] has made. *)
Definition minted (s : State) (url : string) : Prop :=
  ∃ k : nat, (k < nextUrl s)%nat ∧ url = "blob:" +:+ pretty k.

(** The discipline of the object URLs: the jobs of the store hold URLs the
    program made, no two of them the same; what was revoked was made by the
    program, is held by no job of the store and was revoked once; and every
    URL made is held by a job of the store, or revoked, or was handed to a
    download. *)
Record UrlsOk (s : State) : Prop := {
  url_minted : ∀ a url, url ∈ store_urls s a → minted s url;
  url_own : ∀ a, NoDup (store_urls s a);
  url_distinct : ∀ a b url,
    url ∈ store_urls s a → url ∈ store_urls s b → a = b;
  url_revoked : ∀ url, url ∈ revoked s → minted s url;
  url_live : ∀ a url, url ∈ store_urls s a → url ∉ revoked s;
  url_once : NoDup (revoked s);
  url_accounted : ∀ url, minted s url →
    (∃ a, url ∈ store_urls s a) ∨ url ∈ revoked s ∨ url ∈ (downloads s).*2
}.

(* ===================================================================== *)
(** ** What a job keeps *)
(* ===================================================================== *)

(** A job object now and at a later time: its id, its file and its preview
    URL are the same; once ready it stays ready, with the same result URL. *)
Record evolves (job job' : RemovalJob) : Prop := {
  ev_id : Job.id job' = Job.id job;
  ev_file : Job.file job' = Job.file job;
  ev_preview : Job.previewUrl job' = Job.previewUrl job;
  ev_ready : Job.status job = ready →
    Job.status job' = ready ∧ Job.resultUrl job' = Job.resultUrl job
}.

(** The state [s'] comes after [s]: the job objects of [s] are still there
    and evolved, a ready job that is still in the store holds the same
    bytes, and the entries the store gained have new ids and new objects. *)
Record later (s s' : State) : Prop := {
  later_heap : ∀ a job, heap s !! a = Some job →
    ∃ job', heap s' !! a = Some job' ∧ evolves job job' ∧
      (a ∈ refs s' → Job.status job = ready →
       Job.resultBlob job' = Job.resultBlob job);
  later_jobs : ∀ id a, (id, a) ∈ jobs s' →
    (id, a) ∈ jobs s ∨
    ∃ k : nat, (nextUuid s <= k)%nat ∧ id = pretty k ∧ (length (heap s) <= a)%nat;
  later_uuid : (nextUuid s <= nextUuid s')%nat;
  later_length : (length (heap s) <= length (heap s'))%nat
}.

(* ===================================================================== *)
(** ** More sample data *)
(* ===================================================================== *)

(** The queue after one image was added: its job is running. *)
Definition one_running : list Event := [AddFiles [png "a.png" 10]].

(** The job of [one_running]. *)
Definition running_job : RemovalJob :=
  Job.mk "0" (png "a.png" 10) processing "blob:0" None None None.

(** The queue after the removal of [one_running] fulfilled with the bytes
    ["A"], and the job and the card it holds. *)
Definition one_ready : list Event := one_running ++ [Settle 0 (Resolved "A")].

Definition done_job : RemovalJob :=
  Job.mk "0" (png "a.png" 10) ready "blob:0" (Some "blob:1") (Some "A") None.

(* ===================================================================== *)
(** ** Letting the workers finish *)
(* ===================================================================== *)

(** The jobs still to be finished: pending or processing. *)
Definition waiting (s : State) : Z :=
  count_status pending s + count_status processing s.

(** The promise of the oldest suspended worker settles with [o] (nothing
    happens when no worker is suspended). *)
Definition settle_first (s : State) (o : Settlement) : State :=
  match inflight s with
  | a :: _ => step s (Settle a o)
  | [] => s
  end.

(** The promises of the workers settle one after the other, each time the
    one of the oldest suspended worker, with the outcomes given. *)
Definition settle_all (outcomes : list Settlement) (s : State) : State :=
  fold_left settle_first outcomes s.

(* ===================================================================== *)
(** ** Batches *)
(* ===================================================================== *)

(** Two states with the same queue: the same job objects, store, workers,
    counters of identifiers, revoked URLs and downloads.  (What was
    rendered and announced on the way may differ.) *)
Record same_queue (s t : State) : Prop := {
  sq_heap : heap s = heap t;
  sq_jobs : jobs s = jobs t;
  sq_inflight : inflight s = inflight t;
  sq_active : activeWorkers s = activeWorkers t;
  sq_uuid : nextUuid s = nextUuid t;
  sq_url : nextUrl s = nextUrl t;
  sq_revoked : revoked s = revoked t;
  sq_downloads : downloads s = downloads t
}.

(** The store after the loop of [addFiles]: every acceptable file of the
    batch went through [createJob] and [jobs.set]. *)
Definition enqueue_all (fileList : list File) (s : State) : State :=
  fold_left (λ s file, if acceptable file then enqueue file s else s) fileList s.

(* ===================================================================== *)
(** ** Facts about the JS [Map] *)
(* ===================================================================== *)

Module JsMapFacts.
Section Facts.
Context {V : Type}.
Implicit Types (m : list (string * V)) (k : string) (v : V).

Lemma get_None k m : JsMap.get k m = None ↔ k ∉ JsMap.keys m.
Proof.
  unfold JsMap.keys. induction m as [|[k' v'] m IH]; simpl.
  - split; [intros _; apply not_elem_of_nil | done].
  - destruct (decide (k' = k)) as [->|Hk].
    + split; [done | intros H; exfalso; apply H; left].
    + rewrite IH, not_elem_of_cons.
      split; [intros ?; split; [congruence|done] | by intros [_ ?]].
Qed.

Lemma get_Some_elem k v m : JsMap.get k m = Some v → (k, v) ∈ m.
Proof.
  induction m as [|[k' v'] m IH]; simpl; [done|].
  destruct (decide (k' = k)) as [->|Hk].
  - intros [= ->]. left.
  - intros H. right. auto.
Qed.

Lemma elem_get k v m : NoDup (JsMap.keys m) → (k, v) ∈ m → JsMap.get k m = Some v.
Proof.
  unfold JsMap.keys. induction m as [|[k' v'] m IH]; simpl.
  - intros _ H. by apply elem_of_nil in H.
  - intros [Hk' Hnd]%NoDup_cons [Heq|Hin]%elem_of_cons.
    + inversion Heq; subst. by rewrite decide_True.
    + destruct (decide (k' = k)) as [->|Hk]; [|by auto].
      exfalso. apply Hk'. apply list_elem_of_fmap. by exists (k, v).
Qed.

Lemma keys_inj k v v' m : NoDup (JsMap.keys m) → (k, v) ∈ m → (k, v') ∈ m → v = v'.
Proof.
  intros Hnd H1 H2. apply (elem_get _ _ _ Hnd) in H1, H2. congruence.
Qed.

Lemma set_fresh k v m : k ∉ JsMap.keys m → JsMap.set k v m = m ++ [(k, v)].
Proof.
  unfold JsMap.keys. induction m as [|[k' v'] m IH]; simpl; [done|].
  intros [Hne Hk]%not_elem_of_cons.
  rewrite decide_False by done. by rewrite IH.
Qed.

Lemma elem_delete k k' v m :
  (k', v) ∈ JsMap.delete k m → (k', v) ∈ m.
Proof.
  induction m as [|[k0 v0] m IH]; simpl; [done|].
  destruct (decide (k0 = k)) as [->|Hk].
  - intros H. by right.
  - intros [->|H]%elem_of_cons; [left | right; auto].
Qed.

Lemma elem_delete_ne k k' v m :
  k' ≠ k → (k', v) ∈ m → (k', v) ∈ JsMap.delete k m.
Proof.
  intros Hne. induction m as [|[k0 v0] m IH]; simpl; [done|].
  intros [Heq|Hin]%elem_of_cons.
  - inversion Heq; subst. rewrite decide_False by done. left.
  - destruct (decide (k0 = k)); [done | right; auto].
Qed.

Lemma delete_split k v m :
  JsMap.get k m = Some v →
  ∃ m1 m2, m = m1 ++ (k, v) :: m2 ∧ JsMap.delete k m = m1 ++ m2.
Proof.
  induction m as [|[k0 v0] m IH]; simpl; [done|].
  destruct (decide (k0 = k)) as [->|Hk].
  - intros [= ->]. by exists [], m.
  - intros (m1 & m2 & -> & Hd)%IH. exists ((k0, v0) :: m1), m2.
    by rewrite Hd.
Qed.

Lemma get_delete_ne k k' m :
  k' ≠ k → JsMap.get k' (JsMap.delete k m) = JsMap.get k' m.
Proof.
  intros Hne. induction m as [|[k0 v0] m IH]; simpl; [done|].
  destruct (decide (k0 = k)) as [->|Hk]; simpl.
  - by rewrite decide_False.
  - by rewrite IH.
Qed.

Lemma get_delete_eq k m :
  NoDup (JsMap.keys m) → JsMap.get k (JsMap.delete k m) = None.
Proof.
  unfold JsMap.keys. induction m as [|[k0 v0] m IH]; simpl; [done|].
  intros [Hk0 Hnd]%NoDup_cons. destruct (decide (k0 = k)) as [->|Hk]; simpl.
  - by apply get_None.
  - rewrite decide_False by done. by apply IH.
Qed.

Lemma elem_keys_set k0 k v m :
  k0 ∈ JsMap.keys (JsMap.set k v m) ↔ k0 = k ∨ k0 ∈ JsMap.keys m.
Proof.
  unfold JsMap.keys. induction m as [|[k' v'] m IH]; simpl.
  - rewrite list_elem_of_singleton. split; [by left|].
    intros [?|?%elem_of_nil]; done.
  - destruct (decide (k' = k)) as [->|Hk]; simpl.
    + rewrite elem_of_cons. split; [by right|]. intros [->|?]; [by left|done].
    + rewrite !elem_of_cons, IH. tauto.
Qed.

Lemma NoDup_keys_set k v m :
  NoDup (JsMap.keys m) → NoDup (JsMap.keys (JsMap.set k v m)).
Proof.
  unfold JsMap.keys. induction m as [|[k' v'] m IH]; simpl.
  - intros _. apply NoDup_singleton.
  - intros [Hk' Hnd]%NoDup_cons. destruct (decide (k' = k)) as [->|Hk]; simpl.
    + by apply NoDup_cons.
    + apply NoDup_cons. split; [|by apply IH].
      intros [?|?]%elem_keys_set; done.
Qed.

Lemma elem_set k0 v0 k v m :
  (k0, v0) ∈ JsMap.set k v m → (k0, v0) = (k, v) ∨ (k0, v0) ∈ m.
Proof.
  induction m as [|[k' v'] m IH]; simpl.
  - intros ->%list_elem_of_singleton. by left.
  - destruct (decide (k' = k)) as [->|Hk].
    + intros [->|?]%elem_of_cons; [by left|]. right. by right.
    + intros [->|[?|?]%IH]%elem_of_cons; [right; left|by left|right; by right].
Qed.

Lemma delete_absent k m : JsMap.get k m = None → JsMap.delete k m = m.
Proof.
  induction m as [|[k0 v0] m IH]; simpl; [done|].
  destruct (decide (k0 = k)) as [->|Hk]; [done|].
  intros H. by rewrite IH.
Qed.
End Facts.
End JsMapFacts.

(* ===================================================================== *)
(** ** The store and its views *)
(* ===================================================================== *)

Lemma has_status_true st job : has_status st job = true ↔ Job.status job = st.
Proof. unfold has_status. apply bool_decide_eq_true. Qed.

Lemma has_status_false st job : has_status st job = false ↔ Job.status job ≠ st.
Proof. unfold has_status. apply bool_decide_eq_false. Qed.

Lemma ref_has_status_true s st a :
  ref_has_status s st a = true ↔ ∃ job, heap s !! a = Some job ∧ Job.status job = st.
Proof.
  unfold ref_has_status. destruct (heap s !! a) as [job|].
  - rewrite has_status_true. split; [eauto | by intros (? & [= <-] & ?)].
  - split; [done | by intros (? & ? & ?)].
Qed.

Lemma elem_refs s a : a ∈ refs s ↔ ∃ id, (id, a) ∈ jobs s.
Proof.
  unfold refs, JsMap.values. rewrite list_elem_of_fmap. split.
  - intros ([id a'] & -> & H). by exists id.
  - intros (id & H). by exists (id, a).
Qed.

Lemma elem_keys s id : id ∈ JsMap.keys (jobs s) ↔ ∃ a, (id, a) ∈ jobs s.
Proof.
  unfold JsMap.keys. rewrite list_elem_of_fmap. split.
  - intros ([id' a] & -> & H). by exists a.
  - intros (a & H). by exists (id, a).
Qed.

Lemma elem_values s job :
  job ∈ values s ↔ ∃ a, a ∈ refs s ∧ heap s !! a = Some job.
Proof. unfold values. by rewrite list_elem_of_omap. Qed.

Lemma elem_view s c : c ∈ view s ↔ ∃ job, job ∈ values s ∧ c = card job.
Proof.
  unfold view. rewrite elem_of_reverse, list_elem_of_fmap.
  split; intros (job & H1 & H2); eauto.
Qed.

Lemma values_ext s s' : heap s = heap s' → jobs s = jobs s' → values s = values s'.
Proof. unfold values, refs. by intros -> ->. Qed.

Lemma view_ext s s' : heap s = heap s' → jobs s = jobs s' → view s = view s'.
Proof. unfold view. intros H1 H2. by rewrite (values_ext s s'). Qed.

Lemma count_status_ext st s s' :
  heap s = heap s' → jobs s = jobs s' → count_status st s = count_status st s'.
Proof. unfold count_status. intros H1 H2. by rewrite (values_ext s s'). Qed.

Lemma count_cards_view st s : count_cards st (view s) = count_status st s.
Proof.
  unfold count_cards, count_status, view. f_equal.
  rewrite filter_reverse, length_reverse.
  induction (values s) as [|job l IH]; [done|].
  rewrite fmap_cons, !filter_cons. simpl.
  destruct (decide (Job.status job = st)) as [Heq|Hne].
  - rewrite decide_True by (by apply Is_true_true, has_status_true).
    simpl. by rewrite IH.
  - rewrite decide_False; [done|].
    by rewrite Is_true_true, has_status_true.
Qed.

Lemma count_status_refs st s :
  count_status st s =
  Z.of_nat (length (filter (λ a, ref_has_status s st a) (refs s))).
Proof.
  unfold count_status, values. f_equal.
  induction (refs s) as [|a l IH]; [done|].
  rewrite filter_cons. simpl.
  destruct (decide _) as [H|H]; unfold ref_has_status in H;
    destruct (heap s !! a) as [job|]; simpl.
  - rewrite filter_cons, decide_True by done. simpl. f_equal. exact IH.
  - by destruct H.
  - rewrite filter_cons, decide_False by done. exact IH.
  - exact IH.
Qed.

(** The processing jobs of the store are among the suspended workers, so
    they are at most [MAX_PARALLEL_JOBS]. *)
Lemma processing_le_inflight s :
  NoDup (refs s) →
  (∀ a, a ∈ refs s → (∃ job, heap s !! a = Some job ∧ Job.status job = processing) →
        a ∈ inflight s) →
  count_status processing s <= Z.of_nat (length (inflight s)).
Proof.
  intros Hnd Hin. rewrite count_status_refs.
  apply inj_le, submseteq_length, NoDup_submseteq.
  - by apply NoDup_filter.
  - intros a [Hst Ha]%list_elem_of_filter. apply Hin; [done|].
    by apply ref_has_status_true, Is_true_true.
Qed.

Lemma processing_count s :
  StoreWf s → Workers s → count_status processing s = activeWorkers s.
Proof.
  intros Hwf Hwk. rewrite (wk_active s Hwk), count_status_refs. f_equal.
  apply Permutation_length, NoDup_Permutation.
  - apply NoDup_filter, Hwf.
  - apply Hwk.
  - intros a. rewrite list_elem_of_filter, (wk_inflight s Hwk).
    by rewrite Is_true_true, ref_has_status_true, (comm and).
Qed.

Lemma processing_bound s :
  StoreWf s → Workers s → count_status processing s <= MAX_PARALLEL_JOBS.
Proof.
  intros Hwf Hwk. etrans; [apply processing_le_inflight|].
  - apply Hwf.
  - intros a Ha Hp. by apply Hwk.
  - rewrite <- (wk_active s Hwk). apply Hwk.
Qed.

(* ===================================================================== *)
(** ** Histories of rendered contents *)
(* ===================================================================== *)

Lemma status_step_refl st : status_step st st.
Proof. by left. Qed.

Lemma history_ok_cons new h :
  history_ok h →
  (∀ old, head h = Some old → snap_step old new) →
  history_ok (new :: h).
Proof.
  intros Hh Hnew [|i] new' old; simpl.
  - intros [= <-] Hold. apply Hnew. by destruct h.
  - apply Hh.
Qed.

(** Cards with the same id in the views of two well-formed stores belong to
    the same key. *)
Lemma snap_step_views s s' :
  StoreWf s → StoreWf s' →
  (∀ id a a' job job',
      (id, a) ∈ jobs s → (id, a') ∈ jobs s' →
      heap s !! a = Some job → heap s' !! a' = Some job' →
      status_step (Job.status job) (Job.status job')) →
  snap_step (view s) (view s').
Proof.
  intros Hwf Hwf' Hstep c c'.
  intros (job & (a & (id & Ha)%elem_refs & Hj)%elem_values & ->)%elem_view.
  intros (job' & (a' & (id' & Ha')%elem_refs & Hj')%elem_values & ->)%elem_view.
  unfold card at 1 3. simpl. intros Hid.
  destruct (wf_heap s Hwf id a Ha) as (j0 & Hj0 & Hid0 & _).
  destruct (wf_heap s' Hwf' id' a' Ha') as (j1 & Hj1 & Hid1 & _).
  assert (j0 = job) as -> by congruence.
  assert (j1 = job') as -> by congruence.
  assert (id = id') as <- by (rewrite <- Hid0, <- Hid1; exact Hid).
  by eapply Hstep.
Qed.

(** Rendering after a change of the store that moves every job by a
    [status_step] keeps the history in order. *)
Lemma renderJobs_history s v :
  history_ok (jobList s) →
  head (jobList s) = Some v →
  snap_step v (view s) →
  history_ok (jobList (renderJobs s)).
Proof.
  intros Hh Hhead Hstep. simpl. apply history_ok_cons; [done|].
  intros old Hold. by assert (old = v) as -> by congruence.
Qed.

(* ===================================================================== *)
(** ** Changing one job object *)
(* ===================================================================== *)

Lemma StoreWf_alter s s' a f :
  StoreWf s →
  jobs s' = jobs s → nextUuid s' = nextUuid s → heap s' = alter f a (heap s) →
  (∀ job, a ∈ refs s → heap s !! a = Some job →
          Job.id (f job) = Job.id job ∧ fields_ok (f job)) →
  StoreWf s'.
Proof.
  intros [Hk Hr Hh Hf] Hjobs Huuid Hheap Hupd.
  split; unfold refs in *; rewrite ?Hjobs, ?Huuid; try done.
  intros id b Hb. destruct (Hh id b Hb) as (job & Hjob & Hid & Hok).
  rewrite Hheap. destruct (decide (a = b)) as [->|Hne].
  - rewrite list_lookup_alter_eq, Hjob. simpl.
    destruct (Hupd job) as [Hid' Hok']; [by apply elem_refs; eauto | done |].
    exists (f job). by rewrite Hid'.
  - rewrite list_lookup_alter_ne by done. eauto.
Qed.

(** The status of a job after one object was changed. *)
Lemma status_alter s s' a f b job' :
  heap s' = alter f a (heap s) → heap s' !! b = Some job' →
  ∃ job, heap s !! b = Some job ∧ job' = if decide (a = b) then f job else job.
Proof.
  intros -> Hb. destruct (decide (a = b)) as [->|Hne].
  - rewrite list_lookup_alter_eq in Hb.
    destruct (heap s !! b) as [job|]; simplify_eq/=. eauto.
  - rewrite list_lookup_alter_ne in Hb by done. eauto.
Qed.

Lemma snap_step_alter s s' a f :
  StoreWf s → StoreWf s' →
  jobs s' = jobs s → heap s' = alter f a (heap s) →
  (∀ job, a ∈ refs s → heap s !! a = Some job →
          status_step (Job.status job) (Job.status (f job))) →
  snap_step (view s) (view s').
Proof.
  intros Hwf Hwf' Hjobs Hheap Hst. apply snap_step_views; [done..|].
  intros id b b' job job' Hb Hb' Hj Hj'. rewrite Hjobs in Hb'.
  assert (b' = b) as -> by (eapply JsMapFacts.keys_inj; [apply Hwf|done..]).
  destruct (status_alter s s' a f b job' Hheap Hj') as (job0 & Hj0 & ->).
  assert (job0 = job) as -> by congruence.
  destruct (decide (a = b)) as [->|Hne]; [|apply status_step_refl].
  apply Hst; [apply elem_refs; eauto | done].
Qed.

(** Workers are untouched by a change that keeps every job processing or
    not processing. *)
Lemma Workers_alter s s' a f :
  Workers s →
  jobs s' = jobs s → heap s' = alter f a (heap s) →
  inflight s' = inflight s → activeWorkers s' = activeWorkers s →
  (∀ job, heap s !! a = Some job →
          (Job.status (f job) = processing ↔ Job.status job = processing)) →
  Workers s'.
Proof.
  intros [Hnd Hin Hact Hb] Hjobs Hheap Hinf Haw Hst.
  split; rewrite ?Hinf, ?Haw; try done.
  intros b. rewrite Hin. unfold refs. rewrite Hjobs, Hheap.
  apply and_iff_compat_l. destruct (decide (a = b)) as [->|Hne].
  - rewrite list_lookup_alter_eq. destruct (heap s !! b) as [job|] eqn:Hj; simpl.
    + split; intros (j & [= <-] & Hp); eexists; split; try done; by apply (Hst job).
    + split; by intros (? & ? & ?).
  - by rewrite list_lookup_alter_ne.
Qed.

(** A handler that changed the store, rendered it and refreshed the summary
    leaves the page in order. *)
Lemma DomOk_render s s' :
  DomOk s → StoreWf s' → Workers s' →
  jobList s' = view s' :: jobList s →
  readyJobCount s' = count_status ready s' →
  snap_step (view s) (view s') →
  DomOk s'.
Proof.
  intros [Hv Hr Hb Hs] Hwf Hwk Hlist Hready Hstep. split.
  - by rewrite Hlist.
  - done.
  - rewrite Hlist. constructor; [|done].
    rewrite count_cards_view. by apply processing_bound.
  - rewrite Hlist. apply history_ok_cons; [done|].
    intros old Hold. by assert (old = view s) as -> by congruence.
Qed.

(** A handler that left the store and the page alone. *)
Lemma DomOk_frame s s' :
  DomOk s → heap s' = heap s → jobs s' = jobs s →
  jobList s' = jobList s → readyJobCount s' = readyJobCount s →
  DomOk s'.
Proof.
  intros [Hv Hr Hb Hs] Hheap Hjobs Hlist Hready.
  split; rewrite ?Hlist, ?Hready; try done.
  - rewrite Hv. f_equal. by apply view_ext.
  - rewrite Hr. by apply count_status_ext.
Qed.

Lemma StoreWf_frame s s' :
  StoreWf s → heap s' = heap s → jobs s' = jobs s → nextUuid s' = nextUuid s →
  StoreWf s'.
Proof.
  intros [Hk Hr Hh Hf] Hheap Hjobs Huuid.
  split; unfold refs in *; rewrite ?Hjobs, ?Huuid, ?Hheap; done.
Qed.

Lemma Workers_frame s s' :
  Workers s → heap s' = heap s → jobs s' = jobs s →
  inflight s' = inflight s → activeWorkers s' = activeWorkers s →
  Workers s'.
Proof.
  intros [Hnd Hin Hact Hb] Hheap Hjobs Hinf Haw.
  split; unfold refs in *; rewrite ?Hinf, ?Haw, ?Hjobs, ?Hheap; done.
Qed.

(* ===================================================================== *)
(** ** The worker, up to its suspension *)
(* ===================================================================== *)

Lemma runJob_heap a s : heap (runJob a s) = alter start_fields a (heap s).
Proof. simpl. unfold update_job. simpl. by rewrite list_alter_alter_eq. Qed.

Lemma runJob_Inv s a job :
  Inv s → a ∈ refs s → heap s !! a = Some job → Job.status job = pending →
  activeWorkers s < MAX_PARALLEL_JOBS →
  Inv (runJob a s).
Proof.
  intros [Hwf Hwk Hdom] Ha Hjob Hst Hlt.
  assert (StoreWf (runJob a s)) as Hwf'.
  { eapply (StoreWf_alter s _ a start_fields); [done|done|done|apply runJob_heap|].
    intros job0 _ Hjob0. assert (job0 = job) as -> by congruence.
    split; [done|].
    apply elem_refs in Ha as [id Ha].
    destruct (wf_heap s Hwf id a Ha) as (j & Hj & _ & [H1 H2 H3 H4 H5]).
    assert (j = job) as -> by congruence.
    split; simpl; try done.
    - rewrite H1, Hst. by split.
    - rewrite H2, Hst. by split. }
  assert (a ∉ inflight s) as Hnotin.
  { intros (_ & j & Hj & Hp)%(wk_inflight s Hwk). congruence. }
  assert (Workers (runJob a s)) as Hwk'.
  { destruct Hwk as [Hnd Hin Hact Hb]. split.
    - simpl. apply NoDup_app. split_and!; [done| |apply NoDup_singleton].
      intros b Hb1 ->%list_elem_of_singleton. done.
    - intros b. change (inflight (runJob a s)) with (inflight s ++ [a]).
      change (refs (runJob a s)) with (refs s).
      rewrite runJob_heap, elem_of_app, list_elem_of_singleton, Hin.
      destruct (decide (a = b)) as [->|Hne].
      + rewrite list_lookup_alter_eq, Hjob. simpl. split; [|by right].
        intros _. split; [done|]. by eexists.
      + rewrite list_lookup_alter_ne by done. split; [|by left].
        intros [H| ->]; done.
    - simpl. rewrite length_app. simpl. lia.
    - simpl. lia. }
  split; [done..|].
  apply (DomOk_render s); try done.
  eapply (snap_step_alter s _ a start_fields); [done|done|done|apply runJob_heap|].
  intros job0 _ Hjob0. assert (job0 = job) as -> by congruence.
  simpl. rewrite Hst. right. by left.
Qed.

(* ===================================================================== *)
(** ** The scheduler *)
(* ===================================================================== *)

Lemma find_pending_head s : find_pending s = head (pendingRefs s).
Proof.
  unfold find_pending, pendingRefs.
  induction (refs s) as [|a l IH]; [done|].
  rewrite filter_cons. simpl.
  destruct (ref_has_status s pending a); simpl; [done|exact IH].
Qed.

Lemma elem_pendingRefs s a :
  a ∈ pendingRefs s ↔
  a ∈ refs s ∧ ∃ job, heap s !! a = Some job ∧ Job.status job = pending.
Proof.
  unfold pendingRefs.
  by rewrite list_elem_of_filter, Is_true_true, ref_has_status_true, (comm and).
Qed.

Lemma find_pending_Some s a :
  find_pending s = Some a →
  a ∈ refs s ∧ ∃ job, heap s !! a = Some job ∧ Job.status job = pending.
Proof.
  rewrite find_pending_head. intros H. apply elem_pendingRefs.
  destruct (pendingRefs s); simplify_eq/=. left.
Qed.

Lemma find_pending_None s : find_pending s = None ↔ pendingRefs s = [].
Proof. rewrite find_pending_head. by destruct (pendingRefs s). Qed.

Lemma startNextJobs_loop_Inv fuel s : Inv s → Inv (startNextJobs_loop fuel s).
Proof.
  revert s. induction fuel as [|fuel IH]; intros s Hinv; simpl; [done|].
  destruct (Z.ltb_spec (activeWorkers s) MAX_PARALLEL_JOBS) as [Hlt|Hge]; [|done].
  destruct (find_pending s) as [a|] eqn:Hfind; [|done].
  apply find_pending_Some in Hfind as (Ha & job & Hjob & Hst).
  apply IH. by eapply runJob_Inv.
Qed.

Lemma startNextJobs_Inv s : Inv s → Inv (startNextJobs s).
Proof. apply startNextJobs_loop_Inv. Qed.

Lemma runJob_refs a s : refs (runJob a s) = refs s.
Proof. reflexivity. Qed.

Lemma runJob_not_pending s a job b :
  heap s !! a = Some job →
  ref_has_status (runJob a s) pending b → ref_has_status s pending b ∧ b ≠ a.
Proof.
  intros Hjob. rewrite !Is_true_true, !ref_has_status_true, runJob_heap.
  destruct (decide (a = b)) as [->|Hne].
  - rewrite list_lookup_alter_eq, Hjob. simpl. by intros (? & [= <-] & ?).
  - rewrite list_lookup_alter_ne by done. intros H. split; [done|congruence].
Qed.

(** A job that starts leaves the pending ones. *)
Lemma runJob_pending_lt s a :
  find_pending s = Some a →
  (length (pendingRefs (runJob a s)) < length (pendingRefs s))%nat.
Proof.
  intros Hfind.
  pose proof (find_pending_Some s a Hfind) as (Ha & job & Hjob & Hst).
  unfold pendingRefs. rewrite runJob_refs.
  rewrite <- (list_filter_filter_l _ (λ b, ref_has_status s pending b))
    by (intros b Hb; by apply (runJob_not_pending s a job b Hjob)).
  apply (length_filter_lt _ _ a).
  - apply list_elem_of_filter. split; [|done].
    apply Is_true_true, ref_has_status_true. eauto.
  - intros Hb. by apply (runJob_not_pending s a job a Hjob) in Hb as [_ Hb].
Qed.

(** With fuel for every pending job the loop leaves by its own test. *)
Lemma startNextJobs_loop_done fuel s :
  (length (pendingRefs s) <= fuel)%nat →
  MAX_PARALLEL_JOBS <= activeWorkers (startNextJobs_loop fuel s) ∨
  find_pending (startNextJobs_loop fuel s) = None.
Proof.
  revert s. induction fuel as [|fuel IH]; intros s Hlen; simpl.
  - right. apply find_pending_None. destruct (pendingRefs s); [done|simpl in Hlen; lia].
  - destruct (Z.ltb_spec (activeWorkers s) MAX_PARALLEL_JOBS) as [Hlt|Hge]; [|by left].
    destruct (find_pending s) as [a|] eqn:Hfind; [|by right].
    apply IH. pose proof (runJob_pending_lt s a Hfind). lia.
Qed.

Lemma startNextJobs_loop_fixed fuel s :
  MAX_PARALLEL_JOBS <= activeWorkers s ∨ find_pending s = None →
  startNextJobs_loop fuel s = s.
Proof.
  intros H. destruct fuel as [|fuel]; simpl; [done|].
  destruct (Z.ltb_spec (activeWorkers s) MAX_PARALLEL_JOBS) as [Hlt|Hge]; [|done].
  destruct H as [H|H]; [lia | by rewrite H].
Qed.

(** More fuel than pending jobs changes nothing. *)
Lemma startNextJobs_loop_fuel n m s :
  (length (pendingRefs s) <= n)%nat → (n <= m)%nat →
  startNextJobs_loop m s = startNextJobs_loop n s.
Proof.
  revert m s. induction n as [|n IH]; intros m s Hlen Hle.
  - simpl. apply startNextJobs_loop_fixed. right. apply find_pending_None.
    destruct (pendingRefs s); [done|simpl in Hlen; lia].
  - destruct m as [|m]; [lia|]. simpl.
    destruct (activeWorkers s <? MAX_PARALLEL_JOBS); [|done].
    destruct (find_pending s) as [a|] eqn:Hfind; [|done].
    apply IH; [|lia]. pose proof (runJob_pending_lt s a Hfind). lia.
Qed.

Lemma pendingRefs_length s : (length (pendingRefs s) <= length (jobs s))%nat.
Proof.
  unfold pendingRefs. etrans; [apply length_filter|].
  unfold refs, JsMap.values. by rewrite length_fmap.
Qed.

Lemma startNextJobs_done s :
  MAX_PARALLEL_JOBS <= activeWorkers (startNextJobs s) ∨
  find_pending (startNextJobs s) = None.
Proof. apply startNextJobs_loop_done, pendingRefs_length. Qed.

Lemma startNextJobs_idempotent s :
  startNextJobs (startNextJobs s) = startNextJobs s.
Proof. apply startNextJobs_loop_fixed, startNextJobs_done. Qed.

Lemma Inv_frame s s' :
  Inv s →
  heap s' = heap s → jobs s' = jobs s → nextUuid s' = nextUuid s →
  inflight s' = inflight s → activeWorkers s' = activeWorkers s →
  jobList s' = jobList s → readyJobCount s' = readyJobCount s →
  Inv s'.
Proof.
  intros [Hwf Hwk Hdom] **. split.
  - by apply (StoreWf_frame s).
  - by apply (Workers_frame s).
  - by apply (DomOk_frame s).
Qed.

(* ===================================================================== *)
(** ** The worker, from its suspension on *)
(* ===================================================================== *)

Lemma remove_first_elem a b l :
  NoDup l → b ∈ remove_first a l ↔ b ∈ l ∧ b ≠ a.
Proof.
  induction l as [|c l IH]; simpl.
  - intros _. split; [by intros ?%elem_of_nil | by intros [?%elem_of_nil _]].
  - intros [Hc Hnd]%NoDup_cons. destruct (decide (c = a)) as [->|Hne].
    + rewrite elem_of_cons. split; [|intros [[->|H] Hb]; done].
      intros H. split; [by right | by intros ->].
    + rewrite !elem_of_cons, IH by done. split.
      * intros [->|[H1 H2]]; [by split; [left|] | by split; [right|]].
      * intros [[->|H1] H2]; [by left | by right].
Qed.

Lemma remove_first_NoDup a l : NoDup l → NoDup (remove_first a l).
Proof.
  induction l as [|c l IH]; simpl; [done|].
  intros [Hc Hnd]%NoDup_cons. destruct (decide (c = a)) as [->|Hne]; [done|].
  apply NoDup_cons. split; [|by apply IH].
  rewrite remove_first_elem by done. by intros [? _].
Qed.

Lemma remove_first_length a l :
  a ∈ l → length l = S (length (remove_first a l)).
Proof.
  induction l as [|c l IH]; simpl; [by intros ?%elem_of_nil|].
  intros [->|H]%elem_of_cons.
  - by rewrite decide_True.
  - destruct (decide (c = a)); [done|]. simpl. by rewrite <- IH.
Qed.

Lemma runJob_resume_settled a o s :
  runJob_resume a o s = startNextJobs (settled a o s).
Proof. done. Qed.

Lemma blob_url_ok (n : nat) : isBlobUrl (Some ("blob:" +:+ pretty n)) = true.
Proof.
  unfold isBlobUrl, truthy. simpl.
  change ("" +:+ pretty n) with (pretty n). by destruct (pretty n).
Qed.

Lemma settled_heap a o s job :
  heap s !! a = Some job → Job.resultUrl job = None →
  heap (settled a o s) = alter (settle_fields o ("blob:" +:+ pretty (nextUrl s))) a (heap s).
Proof.
  intros Hjob Hurl. unfold settled. destruct o as [blob|e]; simpl.
  - unfold runJob_try. simpl. rewrite Hjob, Hurl. simpl.
    unfold update_job. simpl. by rewrite !list_alter_alter_eq.
  - unfold runJob_catch. simpl. rewrite Hjob. simpl.
    unfold update_job. simpl. by rewrite !list_alter_alter_eq.
Qed.

Lemma settled_frame a o s :
  jobs (settled a o s) = jobs s ∧ nextUuid (settled a o s) = nextUuid s ∧
  inflight (settled a o s) = remove_first a (inflight s) ∧
  activeWorkers (settled a o s) = Z.max 0 (activeWorkers s - 1) ∧
  jobList (settled a o s) = view (settled a o s) :: jobList s ∧
  readyJobCount (settled a o s) = count_status ready (settled a o s).
Proof.
  unfold settled. destruct o as [blob|e]; simpl.
  - unfold runJob_try, revokeBlobUrl. simpl.
    destruct (heap s !! a) as [job|]; [|done].
    by destruct (Job.resultUrl job) as [url|]; [destruct (isBlobUrl _)|].
  - unfold runJob_catch. simpl. by destruct (heap s !! a) as [job|].
Qed.

Lemma inflight_job s a :
  StoreWf s → Workers s → a ∈ inflight s →
  a ∈ refs s ∧ ∃ job, heap s !! a = Some job ∧ Job.status job = processing ∧
    fields_ok job.
Proof.
  intros Hwf Hwk (Ha & job & Hjob & Hst)%(wk_inflight s Hwk). split; [done|].
  pose proof Ha as [id Hid]%elem_refs.
  destruct (wf_heap s Hwf id a Hid) as (j & Hj & _ & Hok).
  assert (j = job) as -> by congruence. eauto.
Qed.

Lemma processing_fields job :
  fields_ok job → Job.status job = processing →
  Job.resultBlob job = None ∧ Job.resultUrl job = None ∧ Job.error job = None.
Proof.
  intros [H1 H2 H3 _ _] Hst. rewrite Hst in *.
  rewrite <- !not_eq_None_Some in *.
  split_and!; apply dec_stable; intros H; by (apply H1 in H || apply H2 in H || apply H3 in H).
Qed.

Lemma settled_Inv s a o : Inv s → a ∈ inflight s → Inv (settled a o s).
Proof.
  intros [Hwf Hwk Hdom] Hin.
  destruct (inflight_job s a Hwf Hwk Hin) as (Ha & job & Hjob & Hst & Hok).
  destruct (processing_fields job Hok Hst) as (Hblob & Hurl & Herr).
  pose proof (settled_heap a o s job Hjob Hurl) as Hheap.
  destruct (settled_frame a o s) as (Hjobs & Huuid & Hinf & Haw & Hlist & Hready).
  assert (StoreWf (settled a o s)) as Hwf'.
  { eapply (StoreWf_alter s); [done..|].
    intros job0 _ Hjob0. assert (job0 = job) as -> by congruence.
    destruct Hok as [H1 H2 H3 H4 H5].
    destruct o as [blob|e]; (split; [done|]); split; simpl; try done;
      rewrite ?Hblob, ?Hurl, ?Herr; try (split; [by intros [? ?] | done]).
    intros u [= <-]. apply blob_url_ok. }
  assert (Workers (settled a o s)) as Hwk'.
  { destruct Hwk as [Hnd Hinfl Hact Hb]. split.
    - rewrite Hinf. by apply remove_first_NoDup.
    - intros b. rewrite Hinf, remove_first_elem, Hinfl by done.
      unfold refs. rewrite Hjobs, Hheap.
      destruct (decide (a = b)) as [->|Hne].
      + rewrite list_lookup_alter_eq, Hjob. simpl. split; [by intros [_ ?]|].
        intros (_ & j & [= <-] & Hp). by destruct o.
      + rewrite list_lookup_alter_ne by done. split; [by intros [? _]|].
        intros ?. split; [done | congruence].
    - rewrite Haw, Hinf. pose proof (remove_first_length a _ Hin). lia.
    - rewrite Haw. lia. }
  split; [done..|].
  apply (DomOk_render s); try done.
  eapply (snap_step_alter s); [done..|].
  intros job0 _ Hjob0. assert (job0 = job) as -> by congruence.
  right. right. left. split; [done|]. destruct o; simpl; auto.
Qed.

Lemma runJob_resume_Inv s a o : Inv s → a ∈ inflight s → Inv (runJob_resume a o s).
Proof.
  intros. rewrite runJob_resume_settled. by apply startNextJobs_Inv, settled_Inv.
Qed.

(* ===================================================================== *)
(** ** The click handler *)
(* ===================================================================== *)

Lemma retried_heap a s : heap (retried a s) = alter retry_fields a (heap s).
Proof. unfold retried, update_job. simpl. by rewrite list_alter_alter_eq. Qed.

Lemma error_fields job :
  fields_ok job → Job.status job = error →
  Job.resultBlob job = None ∧ Job.resultUrl job = None.
Proof.
  intros [H1 H2 _ _ _] Hst. rewrite Hst in *.
  rewrite <- !not_eq_None_Some in *.
  split; apply dec_stable; intros H; by (apply H1 in H || apply H2 in H).
Qed.

Lemma retried_Inv s id a job :
  Inv s → (id, a) ∈ jobs s → heap s !! a = Some job → Job.status job = error →
  Inv (retried a s).
Proof.
  intros [Hwf Hwk Hdom] Hid Hjob Hst.
  destruct (wf_heap s Hwf id a Hid) as (j & Hj & _ & Hok).
  assert (j = job) as -> by congruence.
  destruct (error_fields job Hok Hst) as [Hblob Hurl].
  assert (StoreWf (retried a s)) as Hwf'.
  { eapply (StoreWf_alter s); [done|done|done|apply retried_heap|].
    intros job0 _ Hjob0. assert (job0 = job) as -> by congruence.
    split; [done|]. destruct Hok as [H1 H2 H3 H4 H5].
    split; simpl; try done;
      rewrite ?Hblob, ?Hurl; split; (by intros [? ?]) || done. }
  assert (Workers (retried a s)) as Hwk'.
  { eapply (Workers_alter s); [done|done|apply retried_heap|done|done|].
    intros job0 Hjob0. assert (job0 = job) as -> by congruence.
    simpl. rewrite Hst. by split. }
  split; [done..|].
  apply (DomOk_render s); try done.
  eapply (snap_step_alter s); [done|done|done|apply retried_heap|].
  intros job0 _ Hjob0. assert (job0 = job) as -> by congruence.
  simpl. rewrite Hst. right. right. by right.
Qed.

Lemma removed_frame id a job s :
  heap s !! a = Some job →
  heap (removed id a job s) = alter (Job.set_resultBlob None) a (heap s) ∧
  jobs (removed id a job s) = JsMap.delete id (jobs s) ∧
  nextUuid (removed id a job s) = nextUuid s ∧
  inflight (removed id a job s) = inflight s ∧
  activeWorkers (removed id a job s) = activeWorkers s ∧
  jobList (removed id a job s) = view (removed id a job s) :: jobList s ∧
  readyJobCount (removed id a job s) = count_status ready (removed id a job s).
Proof.
  intros Hjob. unfold removed, cleanupJobUrls, revokeBlobUrl. rewrite Hjob.
  by destruct (Job.resultUrl job) as [url|]; [destruct (isBlobUrl _)|].
Qed.

Lemma removed_Inv s id a job :
  Inv s → JsMap.get id (jobs s) = Some a → heap s !! a = Some job →
  Job.status job ≠ processing →
  Inv (removed id a job s).
Proof.
  intros [Hwf Hwk Hdom] Hget Hjob Hst.
  destruct (removed_frame id a job s Hjob)
    as (Hheap & Hjobs & Huuid & Hinf & Haw & Hlist & Hready).
  destruct (JsMapFacts.delete_split id a (jobs s) Hget) as (m1 & m2 & Hm & Hdel).
  rewrite Hdel in Hjobs.
  pose proof (wf_keys s Hwf) as Hkeys. pose proof (wf_refs s Hwf) as Hrefs.
  unfold refs, JsMap.keys, JsMap.values in Hkeys, Hrefs.
  rewrite Hm, fmap_app, fmap_cons in Hkeys. rewrite Hm, fmap_app, fmap_cons in Hrefs.
  simpl in Hkeys, Hrefs.
  assert (∀ id' b, (id', b) ∈ m1 ++ m2 → (id', b) ∈ jobs s ∧ b ≠ a) as Hsub.
  { intros id' b Hb. split.
    - rewrite Hm. rewrite elem_of_app in Hb |- *. rewrite elem_of_cons. tauto.
    - intros ->. apply NoDup_app in Hrefs as (_ & Hr1 & [Hr2 _]%NoDup_cons).
      apply elem_of_app in Hb as [Hb|Hb].
      + apply (Hr1 a); [|left]. apply list_elem_of_fmap. by exists (id', a).
      + apply Hr2. apply list_elem_of_fmap. by exists (id', a). }
  assert (StoreWf (removed id a job s)) as Hwf'.
  { split; unfold refs, JsMap.keys, JsMap.values; rewrite ?Hjobs, ?Huuid, ?fmap_app.
    - apply NoDup_app in Hkeys as (? & Hk1 & [_ ?]%NoDup_cons).
      apply NoDup_app. split_and!; [done| |done].
      intros x Hx1 Hx2. apply (Hk1 x Hx1). by right.
    - apply NoDup_app in Hrefs as (? & Hr1 & [_ ?]%NoDup_cons).
      apply NoDup_app. split_and!; [done| |done].
      intros x Hx1 Hx2. apply (Hr1 x Hx1). by right.
    - intros id' b [Hb Hne]%Hsub. rewrite Hheap, list_lookup_alter_ne by done.
      by apply (wf_heap s Hwf).
    - intros id' Hid'. apply (wf_fresh s Hwf). rewrite <- fmap_app in Hid'.
      apply list_elem_of_fmap in Hid' as ([k b] & -> & [Hb _]%Hsub).
      apply list_elem_of_fmap. by exists (k, b). }
  assert (Workers (removed id a job s)) as Hwk'.
  { destruct Hwk as [Hnd Hinfl Hact Hb]. split; rewrite ?Hinf, ?Haw; try done.
    intros b. rewrite Hinfl, !elem_refs. rewrite Hjobs, Hheap. split.
    - intros ((id' & Hb') & jb & Hjb & Hp).
      assert (b ≠ a) as Hne by (intros ->; congruence).
      rewrite list_lookup_alter_ne by done. split; [|eauto].
      exists id'. rewrite Hm in Hb'. rewrite elem_of_app, elem_of_cons in Hb'.
      apply elem_of_app. destruct Hb' as [?|[?|?]]; [by left|congruence|by right].
    - intros ((id' & [Hb' Hne]%Hsub) & Hjb).
      rewrite list_lookup_alter_ne in Hjb by done. eauto. }
  split; [done..|].
  apply (DomOk_render s); try done.
  apply snap_step_views; [done..|].
  intros id' b b' jb jb' Hb Hb' Hjb Hjb'. rewrite Hjobs in Hb'.
  apply Hsub in Hb' as [Hb' Hne].
  assert (b' = b) as -> by (eapply JsMapFacts.keys_inj; [apply Hwf|done..]).
  rewrite Hheap, list_lookup_alter_ne in Hjb' by done.
  assert (jb' = jb) as -> by congruence. apply status_step_refl.
Qed.

Lemma jobListClick_Inv id action s : Inv s → Inv (jobListClick id action s).1.
Proof.
  intros Hinv. unfold jobListClick.
  destruct (JsMap.get id (jobs s)) as [a|] eqn:Hget; [|done].
  destruct (heap s !! a) as [job|] eqn:Hjob; [|done].
  destruct action.
  - destruct (has_status processing job) eqn:Hst; [done|].
    apply has_status_false in Hst. by apply removed_Inv.
  - destruct (Job.resultUrl job) as [url|]; [|done].
    destruct (negb _ || negb _); [done|]. by eapply Inv_frame.
  - destruct (has_status error job) eqn:Hst; [|done].
    apply has_status_true in Hst. simpl.
    apply startNextJobs_Inv. apply (retried_Inv s id a job); try done.
    by apply JsMapFacts.get_Some_elem.
Qed.

(* ===================================================================== *)
(** ** Admission *)
(* ===================================================================== *)

Lemma extends_refl s : extends s s.
Proof. by split. Qed.

Lemma extends_trans s1 s2 s3 : extends s1 s2 → extends s2 s3 → extends s1 s3.
Proof.
  intros [] []. split; try congruence; eauto.
Qed.

Lemma addFile_accept s added rejected file :
  acceptable file = true →
  addFile (s, added, rejected) file = (enqueue file s, added + 1, rejected).
Proof.
  unfold acceptable, addFile, enqueue. intros [-> ->%negb_true_iff]%andb_true_iff. done.
Qed.

Lemma addFile_reject s added rejected file :
  acceptable file = false →
  addFile (s, added, rejected) file =
  (s, added, rejected + Z.of_nat (length (filter (λ f, oversized f) [file]))).
Proof.
  unfold acceptable, addFile, oversized. rewrite filter_cons, filter_nil.
  destruct (String.prefix _ _); simpl; [|intros _; f_equal; lia].
  intros ->%negb_false_iff. done.
Qed.

Lemma refs_lt s a : StoreWf s → a ∈ refs s → (a < length (heap s))%nat.
Proof.
  intros Hwf [id Ha]%elem_refs.
  destruct (wf_heap s Hwf id a Ha) as (job & Hjob & _).
  by eapply lookup_lt_Some.
Qed.

Lemma fresh_key s : StoreWf s → pretty (nextUuid s) ∉ JsMap.keys (jobs s).
Proof.
  intros Hwf (k & Hlt & Heq%(inj pretty))%(wf_fresh s Hwf). lia.
Qed.

Lemma enqueue_frame file s :
  StoreWf s →
  heap (enqueue file s) = heap s ++ [new_job file s] ∧
  jobs (enqueue file s) = jobs s ++ [(pretty (nextUuid s), length (heap s))] ∧
  nextUuid (enqueue file s) = S (nextUuid s) ∧
  inflight (enqueue file s) = inflight s ∧
  activeWorkers (enqueue file s) = activeWorkers s ∧
  jobList (enqueue file s) = jobList s ∧
  readyJobCount (enqueue file s) = readyJobCount s ∧
  liveRegion (enqueue file s) = liveRegion s.
Proof.
  intros Hwf. unfold enqueue, jobs_set. simpl.
  rewrite JsMapFacts.set_fresh by by apply fresh_key. done.
Qed.

Lemma new_job_ok file s : acceptable file = true → fields_ok (new_job file s).
Proof.
  intros Hacc. split; simpl; try done; split; (by intros [? ?]) || done.
Qed.

Lemma enqueue_extends file s : StoreWf s → extends s (enqueue file s).
Proof.
  intros Hwf.
  destruct (enqueue_frame file s Hwf) as (Hh & Hj & _ & ? & ? & ? & ? & ?).
  split; try done.
  - intros id a Ha. rewrite Hj. apply elem_of_app. by left.
  - intros a job Ha. rewrite Hh. by apply lookup_app_l_Some.
Qed.

Lemma enqueue_StoreWf file s :
  acceptable file = true → StoreWf s → StoreWf (enqueue file s).
Proof.
  intros Hacc Hwf.
  destruct (enqueue_frame file s Hwf) as (Hh & Hj & Hu & _).
  split; unfold refs, JsMap.keys, JsMap.values; rewrite ?Hj, ?Hu, ?fmap_app;
    cbn [fmap list_fmap fst snd].
  - apply NoDup_app. split_and!; [apply Hwf| |apply NoDup_singleton].
    intros id Hid ->%list_elem_of_singleton. by apply (fresh_key s).
  - apply NoDup_app. split_and!; [apply Hwf| |apply NoDup_singleton].
    intros a Ha ->%list_elem_of_singleton. apply (refs_lt s) in Ha; [lia|done].
  - intros id a [Ha|Ha%list_elem_of_singleton]%elem_of_app.
    + destruct (wf_heap s Hwf id a Ha) as (job & Hjob & Hid & Hok).
      exists job. split; [|done]. rewrite Hh. by apply lookup_app_l_Some.
    + inversion Ha; subst. exists (new_job file s). split_and!; [|done|by apply new_job_ok].
      rewrite Hh. by rewrite lookup_app_r, Nat.sub_diag by lia.
  - intros id [Hid| ->%list_elem_of_singleton]%elem_of_app.
    + destruct (wf_fresh s Hwf id Hid) as (k & Hk & ->). exists k. split; [lia|done].
    + exists (nextUuid s). split; [lia|done].
Qed.

Lemma enqueue_Workers file s :
  StoreWf s → Workers s → Workers (enqueue file s).
Proof.
  intros Hwf [Hnd Hin Hact Hb].
  destruct (enqueue_frame file s Hwf) as (Hh & Hj & Hu & Hi & Ha & _).
  split; rewrite ?Hi, ?Ha; try done.
  intros b. rewrite Hin. unfold refs, JsMap.values. rewrite Hj, Hh, fmap_app, elem_of_app.
  simpl. rewrite list_elem_of_singleton. split.
  - intros (Hb' & job & Hjob & Hp). split; [by left|].
    exists job. split; [by apply lookup_app_l_Some | done].
  - intros ([Hb'| ->] & job & Hjob & Hp).
    + split; [done|]. exists job. split; [|done].
      rewrite lookup_app_l in Hjob; [done|]. by apply (refs_lt s).
    + rewrite lookup_app_r, Nat.sub_diag in Hjob by lia. by simplify_eq/=.
Qed.

Lemma values_app_heap s extra (l : list nat) :
  (∀ a, a ∈ l → (a < length (heap s))%nat) →
  omap (λ a, (heap s ++ extra) !! a) l = omap (λ a, heap s !! a) l.
Proof.
  induction l as [|a l IH]; [done|]. intros Hl. simpl.
  rewrite lookup_app_l by (apply Hl; left).
  change (list_omap nat RemovalJob ?f l) with (omap f l).
  rewrite IH; [done|]. intros b Hb. apply Hl. by right.
Qed.

Lemma enqueue_values file s :
  StoreWf s → values (enqueue file s) = values s ++ [new_job file s].
Proof.
  intros Hwf. destruct (enqueue_frame file s Hwf) as (Hh & Hj & _).
  unfold values, refs, JsMap.values. rewrite Hj, Hh, fmap_app, omap_app.
  rewrite values_app_heap by (intros a Ha; by apply (refs_lt s)).
  simpl. by rewrite lookup_app_r, Nat.sub_diag by lia.
Qed.

(** The loop of [addFiles]: every acceptable file becomes a pending job at
    the end of the store, in order; the counters count the acceptable files
    and the oversized images; the other files leave no trace. *)
Lemma addFile_fold fileList : ∀ s added rejected,
  StoreWf s → Workers s →
  ∃ s1 news,
    fold_left addFile fileList (s, added, rejected) =
      (s1, added + Z.of_nat (length (filter (λ f, acceptable f) fileList)),
           rejected + Z.of_nat (length (filter (λ f, oversized f) fileList))) ∧
    StoreWf s1 ∧ Workers s1 ∧ extends s s1 ∧
    values s1 = values s ++ news ∧
    Job.file <$> news = filter (λ f, acceptable f) fileList ∧
    Forall (λ job, Job.status job = pending) news ∧
    (filter (λ f, acceptable f) fileList = [] → s1 = s).
Proof.
  induction fileList as [|file l IH]; intros s added rejected Hwf Hwk.
  - exists s, []. simpl. rewrite !Z.add_0_r, app_nil_r.
    split_and!; done || apply extends_refl.
  - cbn [fold_left]. rewrite !filter_cons. destruct (acceptable file) eqn:Hacc.
    + rewrite addFile_accept by done.
      destruct (IH (enqueue file s) (added + 1) rejected)
        as (s1 & news & Hfold & ? & ? & ? & Hvals & Hfiles & Hpend & _).
      { by apply enqueue_StoreWf. } { by apply enqueue_Workers. }
      exists s1, (new_job file s :: news). rewrite Hfold.
      assert (oversized file = false) as Hov.
      { unfold acceptable, oversized in *.
        apply andb_true_iff in Hacc as [-> ->%negb_true_iff]. done. }
      rewrite Hov. simpl. split_and!; try done.
      * do 2 f_equal. lia.
      * eapply extends_trans; [by apply enqueue_extends | done].
      * rewrite Hvals, enqueue_values by done. by rewrite <- app_assoc.
      * by rewrite <- Hfiles.
      * by constructor.
    + rewrite addFile_reject by done.
      destruct (IH s added (rejected + Z.of_nat (length (filter (λ f, oversized f) [file]))))
        as (s1 & news & Hfold & ? & ? & ? & Hvals & Hfiles & Hpend & Hnil); [done..|].
      exists s1, news. rewrite Hfold. simpl. split_and!; try done.
      f_equal. rewrite filter_cons, filter_nil.
      destruct (decide (oversized file)); simpl; lia.
Qed.

Lemma snap_step_extends s s' :
  StoreWf s → StoreWf s' → extends s s' → snap_step (view s) (view s').
Proof.
  intros Hwf Hwf' Hext. apply snap_step_views; [done..|].
  intros id a a' job job' Ha Ha' Hjob Hjob'.
  apply (ext_jobs s s' Hext) in Ha.
  assert (a' = a) as -> by (eapply JsMapFacts.keys_inj; [apply Hwf'|done..]).
  apply (ext_heap s s' Hext) in Hjob.
  assert (job' = job) as -> by congruence. apply status_step_refl.
Qed.

Lemma added_state_Inv s s1 added :
  Inv s → StoreWf s1 → Workers s1 → extends s s1 → Inv (added_state added s1).
Proof.
  intros [Hwf Hwk Hdom] Hwf1 Hwk1 Hext.
  assert (StoreWf (added_state added s1)) as Hwf' by by apply (StoreWf_frame s1).
  assert (Workers (added_state added s1)) as Hwk' by by apply (Workers_frame s1).
  split; [done..|].
  apply (DomOk_render s); try done.
  - change (jobList (added_state added s1))
      with (view (added_state added s1) :: jobList s1).
    by rewrite (ext_jobList s s1 Hext).
  - change (view (added_state added s1)) with (view s1).
    by apply snap_step_extends.
Qed.

Lemma addFiles_Inv fileList s : Inv s → Inv (addFiles fileList s).
Proof.
  intros Hinv. unfold addFiles.
  destruct (addFile_fold fileList s 0 0)
    as (s1 & news & -> & Hwf1 & Hwk1 & Hext & _ & _ & _ & Hnil);
    [apply Hinv..|].
  cbn beta iota zeta.
  rewrite !Z.add_0_l.
  set (added := Z.of_nat (length (filter (λ f, acceptable f) fileList))).
  set (rejected := Z.of_nat (length (filter (λ f, oversized f) fileList))).
  assert (Inv (if 0 <? added
               then startNextJobs (added_state added s1) else s1)) as Hinv2.
  { destruct (Z.ltb_spec 0 added) as [Hlt|Hge].
    - by apply startNextJobs_Inv, (added_state_Inv s).
    - rewrite Hnil; [done|]. apply length_zero_iff_nil. unfold added in Hge. lia. }
  unfold added_state in Hinv2.
  destruct (0 <? rejected); [|done]. by eapply Inv_frame.
Qed.

(* ===================================================================== *)
(** ** The export *)
(* ===================================================================== *)

(** When every job of the snapshot holds its bytes the loop fetches
    nothing, writes nothing and files one entry per job. *)
Lemma zip_loop_blobs fetch (l : list nat) calls s :
  (∀ a, a ∈ l → ∃ job, heap s !! a = Some job ∧ is_Some (Job.resultBlob job)) →
  zip_loop fetch l calls s = (Some (calls ++ omap (entry_of s) l), s).
Proof.
  revert calls. induction l as [|a l IH]; intros calls Hl.
  - simpl. by rewrite app_nil_r.
  - destruct (Hl a) as (job & Hjob & [blob Hblob]); [left|].
    cbn [zip_loop omap list_omap]. unfold entry_of at 1. rewrite Hjob. simpl.
    rewrite Hblob. simpl. rewrite IH by (intros b Hb; apply Hl; by right).
    by rewrite <- app_assoc.
Qed.

Lemma exportable_ready s a :
  StoreWf s → a ∈ refs s →
  ref_exportable s a ↔ ref_has_status s ready a.
Proof.
  intros Hwf [id Ha]%elem_refs.
  destruct (wf_heap s Hwf id a Ha) as (job & Hjob & _ & [H1 H2 _ _ _]).
  unfold ref_exportable, ref_has_status, exportable. rewrite Hjob.
  destruct (has_status ready job) eqn:Hst; simpl; [|done].
  apply has_status_true, H1 in Hst. rewrite bool_decide_true by done. done.
Qed.

Lemma readyJobs_blobs s a :
  StoreWf s → a ∈ filter (λ a, ref_exportable s a) (refs s) →
  ∃ job, heap s !! a = Some job ∧ is_Some (Job.resultBlob job).
Proof.
  intros Hwf [Hex Ha]%list_elem_of_filter.
  apply exportable_ready in Hex; [|done..].
  apply Is_true_true, ref_has_status_true in Hex as (job & Hjob & Hst).
  exists job. split; [done|].
  pose proof Ha as [id Hid]%elem_refs.
  destruct (wf_heap s Hwf id a Hid) as (j & Hj & _ & [H1 _ _ _ _]).
  assert (j = job) as -> by congruence. by apply H1.
Qed.

(** The export leaves the queue alone. *)
Lemma downloadAllReadyJobs_frame fetch s :
  StoreWf s →
  let s' := downloadAllReadyJobs fetch s in
  heap s' = heap s ∧ jobs s' = jobs s ∧ nextUuid s' = nextUuid s ∧
  inflight s' = inflight s ∧ activeWorkers s' = activeWorkers s ∧
  jobList s' = jobList s ∧ readyJobCount s' = readyJobCount s.
Proof.
  intros Hwf. unfold downloadAllReadyJobs.
  destruct (readyJobCount s =? 0); [done|].
  cbn zeta. case_bool_decide as Hnil; [done|].
  by rewrite zip_loop_blobs by (intros a Ha; by apply (readyJobs_blobs s)).
Qed.

Lemma downloadAllReadyJobs_resume_frame i generateOk now s :
  let s' := downloadAllReadyJobs_resume i generateOk now s in
  heap s' = heap s ∧ jobs s' = jobs s ∧ nextUuid s' = nextUuid s ∧
  inflight s' = inflight s ∧ activeWorkers s' = activeWorkers s ∧
  jobList s' = jobList s ∧ readyJobCount s' = readyJobCount s.
Proof.
  unfold downloadAllReadyJobs_resume.
  destruct (zipping s !! i); [|done]. by destruct generateOk.
Qed.

Lemma downloadAllClick_Inv fetch s : Inv s → Inv (downloadAllClick fetch s).1.
Proof.
  intros Hinv. unfold downloadAllClick.
  destruct (readyJobCount s =? 0); [done|]. simpl.
  destruct (downloadAllReadyJobs_frame fetch s)
    as (? & ? & ? & ? & ? & ? & ?); [apply Hinv|].
  by apply (Inv_frame s).
Qed.

Lemma downloadAllReadyJobs_resume_Inv i generateOk now s :
  Inv s → Inv (downloadAllReadyJobs_resume i generateOk now s).
Proof.
  intros Hinv.
  destruct (downloadAllReadyJobs_resume_frame i generateOk now s)
    as (? & ? & ? & ? & ? & ? & ?).
  by apply (Inv_frame s).
Qed.

(* ===================================================================== *)
(** ** Every reachable state satisfies the invariant *)
(* ===================================================================== *)

Lemma init_Inv : Inv init.
Proof.
  split; split; simpl; try done.
  - apply NoDup_nil_2.
  - apply NoDup_nil_2.
  - intros id a Ha. by apply elem_of_nil in Ha.
  - intros id Ha. by apply elem_of_nil in Ha.
  - apply NoDup_nil_2.
  - intros a. split; [by intros ?%elem_of_nil | by intros [?%elem_of_nil _]].
  - repeat constructor. done.
Qed.

Lemma step_Inv s e : Inv s → Inv (step s e).
Proof.
  intros Hinv. destruct e as [fileList|id action|a o|fetch|i generateOk now]; simpl.
  - by apply addFiles_Inv.
  - by apply jobListClick_Inv.
  - case_bool_decide; [by apply runJob_resume_Inv | done].
  - by apply downloadAllClick_Inv.
  - by apply downloadAllReadyJobs_resume_Inv.
Qed.

Lemma run_Inv events s : Inv s → Inv (run events s).
Proof.
  revert s. induction events as [|e events IH]; intros s Hinv; [done|].
  apply IH. by apply step_Inv.
Qed.

Lemma reachable_Inv events : Inv (run events init).
Proof. apply run_Inv, init_Inv. Qed.

Lemma reachable_invariant s : reachable s → Inv s.
Proof. intros [events ->]. apply reachable_Inv. Qed.

(** Brings the invariant of the state [s := run events init] in as [H] and
    forgets how [s] was reached. *)
Ltac reach_inv events s H :=
  pose proof (reachable_Inv events) as H; fold s in H; clearbody s.

Lemma run_snoc events e s : run (events ++ [e]) s = step (run events s) e.
Proof. unfold run. by rewrite fold_left_app. Qed.

(* ===================================================================== *)
(** ** What the scheduler changes *)
(* ===================================================================== *)

Lemma runJob_frame a s :
  jobs (runJob a s) = jobs s ∧ liveRegion (runJob a s) = liveRegion s ∧
  nextUuid (runJob a s) = nextUuid s ∧ nextUrl (runJob a s) = nextUrl s ∧
  revoked (runJob a s) = revoked s ∧ downloads (runJob a s) = downloads s ∧
  archives (runJob a s) = archives s ∧ console (runJob a s) = console s ∧
  inflight (runJob a s) = inflight s ++ [a] ∧
  activeWorkers (runJob a s) = activeWorkers s + 1 ∧
  jobList (runJob a s) = view (runJob a s) :: jobList s.
Proof. done. Qed.

Lemma startNextJobs_loop_frame fuel s :
  let s' := startNextJobs_loop fuel s in
  jobs s' = jobs s ∧ liveRegion s' = liveRegion s ∧
  nextUuid s' = nextUuid s ∧ nextUrl s' = nextUrl s ∧
  revoked s' = revoked s ∧ downloads s' = downloads s ∧
  archives s' = archives s ∧ console s' = console s ∧
  ∃ later, jobList s' = later ++ jobList s.
Proof.
  revert s. induction fuel as [|fuel IH]; intros s; cbn [startNextJobs_loop].
  - split_and!; try done. by exists [].
  - destruct (activeWorkers s <? MAX_PARALLEL_JOBS); [|by split_and!; try done; exists []].
    destruct (find_pending s) as [a|]; [|by split_and!; try done; exists []].
    destruct (IH (runJob a s)) as (-> & -> & -> & -> & -> & -> & -> & -> & later & ->).
    destruct (runJob_frame a s) as (-> & -> & -> & -> & -> & -> & -> & -> & _ & _ & ->).
    split_and!; try done. exists (later ++ [view (runJob a s)]).
    by rewrite <- app_assoc.
Qed.

(** The scheduler touches pending jobs only, and only to start them. *)
Lemma startNextJobs_loop_heap fuel s a job :
  heap s !! a = Some job →
  ∃ job', heap (startNextJobs_loop fuel s) !! a = Some job' ∧
    (job' = job ∨ (Job.status job = pending ∧ job' = start_fields job)).
Proof.
  revert s job. induction fuel as [|fuel IH]; intros s job Hjob; cbn [startNextJobs_loop].
  - eauto.
  - destruct (activeWorkers s <? MAX_PARALLEL_JOBS); [|by eauto].
    destruct (find_pending s) as [b|] eqn:Hfind; [|by eauto].
    apply find_pending_Some in Hfind as (_ & jb & Hjb & Hst).
    destruct (decide (b = a)) as [->|Hne].
    + assert (jb = job) as -> by congruence.
      destruct (IH (runJob a s) (start_fields job)) as (job' & Hjob' & Hcase).
      { by rewrite runJob_heap, list_lookup_alter_eq, Hjob. }
      exists job'. split; [done|]. right. split; [done|].
      by destruct Hcase as [->|[? _]].
    + apply IH. by rewrite runJob_heap, list_lookup_alter_ne.
Qed.

Lemma files_values s s' :
  jobs s' = jobs s →
  (∀ a, Job.file <$> heap s' !! a = Job.file <$> heap s !! a) →
  Job.file <$> values s' = Job.file <$> values s.
Proof.
  intros Hjobs Hheap. unfold values, refs. rewrite Hjobs.
  induction (JsMap.values (jobs s)) as [|a l IH]; [done|].
  cbn [omap list_omap]. specialize (Hheap a).
  change (list_omap nat RemovalJob ?f l) with (omap f l).
  destruct (heap s' !! a), (heap s !! a); simplify_eq/=; by rewrite ?IH, ?Hheap.
Qed.

Lemma startNextJobs_loop_length fuel s :
  length (heap (startNextJobs_loop fuel s)) = length (heap s).
Proof.
  revert s. induction fuel as [|fuel IH]; intros s; cbn [startNextJobs_loop]; [done|].
  destruct (activeWorkers s <? MAX_PARALLEL_JOBS); [|done].
  destruct (find_pending s) as [b|]; [|done].
  by rewrite IH, runJob_heap, length_alter.
Qed.

Lemma startNextJobs_files s :
  Job.file <$> values (startNextJobs s) = Job.file <$> values s.
Proof.
  apply files_values; [apply startNextJobs_loop_frame|].
  intros a. unfold startNextJobs.
  destruct (heap s !! a) as [job|] eqn:Hjob.
  - destruct (startNextJobs_loop_heap (length (jobs s)) s a job Hjob)
      as (job' & -> & [->|[_ ->]]); done.
  - apply lookup_ge_None in Hjob.
    rewrite (proj2 (lookup_ge_None _ a)); [done|].
    by rewrite startNextJobs_loop_length.
Qed.

(* ===================================================================== *)
(** ** The handlers seen from outside *)
(* ===================================================================== *)

Lemma removed_revoked id a job s :
  heap s !! a = Some job →
  Job.previewUrl job ∈ revoked (removed id a job s) ∧
  (∀ url, Job.resultUrl job = Some url → isBlobUrl (Some url) = true →
          url ∈ revoked (removed id a job s)).
Proof.
  intros Hjob. unfold removed, cleanupJobUrls, revokeBlobUrl. rewrite Hjob. split.
  - destruct (Job.resultUrl job) as [url|]; [destruct (isBlobUrl _)|];
      simpl; [right| |]; left.
  - intros url Hurl Hblob. rewrite Hurl, Hblob. simpl. left.
Qed.

Lemma run_app events events' s : run (events ++ events') s = run events' (run events s).
Proof. unfold run. by rewrite fold_left_app. Qed.


Lemma retried_jobs a s : jobs (retried a s) = jobs s.
Proof. done. Qed.

Lemma filter_all {A} (P : A → Prop) `{∀ x, Decision (P x)} (l : list A) :
  (∀ x, x ∈ l → P x) → filter P l = l.
Proof.
  induction l as [|x l IH]; [done|]. intros Hl.
  rewrite filter_cons_True by (apply Hl; left).
  f_equal. apply IH. intros y Hy. apply Hl. by right.
Qed.

Lemma elem_take_elem {A} (x : A) n (l : list A) : x ∈ take n l → x ∈ l.
Proof. intros (i & Hi & _)%elem_of_take. by eapply list_elem_of_lookup_2. Qed.

Lemma runJob_pendingRefs s a rest :
  NoDup (refs s) → pendingRefs s = a :: rest → pendingRefs (runJob a s) = rest.
Proof.
  intros Hnd Hp.
  assert (a ∈ pendingRefs s) as (Ha & job & Hjob & Hst)%elem_pendingRefs
    by (rewrite Hp; left).
  assert (NoDup (pendingRefs s)) as Hnd' by by apply NoDup_filter.
  rewrite Hp in Hnd'. apply NoDup_cons in Hnd' as [Hnotin _].
  transitivity (filter (λ b, b ≠ a) (pendingRefs s)).
  - unfold pendingRefs. rewrite runJob_refs, list_filter_filter.
    apply list_filter_iff. intros b.
    rewrite !Is_true_true, !ref_has_status_true, runJob_heap.
    destruct (decide (a = b)) as [->|Hne].
    + rewrite list_lookup_alter_eq, Hjob. simpl. split; [|by intros [? _]].
      by intros (? & [= <-] & ?).
    + rewrite list_lookup_alter_ne by done. split; [|by intros [_ ?]].
      intros H. split; [congruence | done].
  - rewrite Hp, filter_cons_False by (by intros H; apply H).
    apply filter_all. intros b Hb ->. done.
Qed.

(** The loop starts the first pending jobs of the store, as many as there
    are free slots. *)
Lemma startNextJobs_loop_spec fuel s :
  NoDup (refs s) → (length (pendingRefs s) <= fuel)%nat →
  let slots := Z.to_nat (MAX_PARALLEL_JOBS - activeWorkers s) in
  let s' := startNextJobs_loop fuel s in
  inflight s' = inflight s ++ take slots (pendingRefs s) ∧
  activeWorkers s' = activeWorkers s + Z.of_nat (length (take slots (pendingRefs s))) ∧
  (∀ a, heap s' !! a =
        if bool_decide (a ∈ take slots (pendingRefs s))
        then start_fields <$> heap s !! a else heap s !! a) ∧
  pendingRefs s' = drop slots (pendingRefs s).
Proof.
  revert s. induction fuel as [|fuel IH]; intros s Hnd Hlen; cbn [startNextJobs_loop]; cbn zeta.
  - destruct (pendingRefs s); [|simpl in Hlen; lia].
    rewrite take_nil, drop_nil, app_nil_r. split_and!; [done|simpl; lia| |done].
    intros a. rewrite bool_decide_false; [done|apply not_elem_of_nil].
  - destruct (Z.ltb_spec (activeWorkers s) MAX_PARALLEL_JOBS) as [Hlt|Hge].
    2:{ replace (Z.to_nat _) with 0%nat by lia.
        rewrite take_0, drop_0, app_nil_r. split_and!; [done|simpl; lia| |done].
        intros a. rewrite bool_decide_false; [done|apply not_elem_of_nil]. }
    rewrite find_pending_head. destruct (pendingRefs s) as [|a rest] eqn:Hp; cbn [head].
    { rewrite take_nil, drop_nil, app_nil_r. split_and!; [done|simpl; lia| |done].
      intros a. rewrite bool_decide_false; [done|apply not_elem_of_nil]. }
    pose proof (runJob_pendingRefs s a rest Hnd Hp) as Hrest.
    assert (NoDup (a :: rest)) as [Hnotin _]%NoDup_cons
      by (rewrite <- Hp; by apply NoDup_filter).
    destruct (IH (runJob a s)) as (Hinf & Haw & Hheap & Hpend).
    { by rewrite runJob_refs. } { rewrite Hrest. simpl in Hlen. lia. }
    destruct (runJob_frame a s) as (_ & _ & _ & _ & _ & _ & _ & _ & Hi & Ha & _).
    rewrite Hrest, Hi, Ha in *.
    replace (Z.to_nat (MAX_PARALLEL_JOBS - activeWorkers s))
      with (S (Z.to_nat (MAX_PARALLEL_JOBS - (activeWorkers s + 1)))) by lia.
    set (k := Z.to_nat (MAX_PARALLEL_JOBS - (activeWorkers s + 1))) in *.
    rewrite firstn_cons. cbn [drop]. split_and!.
    + by rewrite Hinf, <- app_assoc.
    + rewrite Haw. simpl length. lia.
    + intros b. rewrite Hheap, runJob_heap. destruct (decide (a = b)) as [->|Hne].
      * rewrite bool_decide_false by (by intros ?%elem_take_elem).
        rewrite bool_decide_true by left. by rewrite list_lookup_alter_eq.
      * rewrite list_lookup_alter_ne by done.
        assert (b ∈ a :: take k rest ↔ b ∈ take k rest) as Hiff.
        { rewrite elem_of_cons. split; [intros [?|?]; [congruence|done] | by right]. }
        by rewrite (bool_decide_ext _ _ Hiff).
    + done.
Qed.

Lemma addFiles_three f1 f2 f3 :
  acceptable f1 = true → acceptable f2 = true → acceptable f3 = true →
  addFiles [f1; f2; f3] init =
  startNextJobs (added_state 3 (enqueue f3 (enqueue f2 (enqueue f1 init)))).
Proof.
  intros H1 H2 H3. unfold addFiles. cbn [fold_left].
  by rewrite !addFile_accept.
Qed.

Lemma values_Forall2 (R : RemovalJob → RemovalJob → Prop) s s' :
  jobs s' = jobs s →
  (∀ a, option_Forall2 R (heap s !! a) (heap s' !! a)) →
  Forall2 R (values s) (values s').
Proof.
  intros Hjobs Hheap. unfold values, refs. rewrite Hjobs.
  induction (JsMap.values (jobs s)) as [|a l IH]; [constructor|].
  cbn [omap list_omap]. change (list_omap nat RemovalJob ?f l) with (omap f l).
  destruct (Hheap a); [by constructor | done].
Qed.

Lemma startNextJobs_values s :
  Forall2 started_or_same (values s) (values (startNextJobs s)).
Proof.
  apply values_Forall2; [apply startNextJobs_loop_frame|].
  intros a. unfold startNextJobs. destruct (heap s !! a) as [job|] eqn:Hjob.
  - destruct (startNextJobs_loop_heap (length (jobs s)) s a job Hjob)
      as (job' & -> & Hcase). by constructor.
  - apply lookup_ge_None in Hjob.
    rewrite (proj2 (lookup_ge_None _ a)); [constructor|].
    by rewrite startNextJobs_loop_length.
Qed.

Lemma started_or_same_refl job : started_or_same job job.
Proof. by left. Qed.

Lemma addFiles_values fileList s :
  Inv s →
  ∃ news,
    Forall2 started_or_same (values s ++ news) (values (addFiles fileList s)) ∧
    Job.file <$> news = filter (λ f, acceptable f) fileList ∧
    Forall (λ job, Job.status job = pending) news.
Proof.
  intros Hinv. unfold addFiles.
  destruct (addFile_fold fileList s 0 0)
    as (s1 & news & -> & _ & _ & _ & Hvals & Hfiles & Hpend & _); [apply Hinv..|].
  exists news. split; [|done]. cbn beta iota zeta. rewrite <- Hvals, !Z.add_0_l.
  set (added := Z.of_nat (length (filter (λ f, acceptable f) fileList))).
  set (rejected := Z.of_nat (length (filter (λ f, oversized f) fileList))).
  assert (Forall2 started_or_same (values s1)
            (values (if 0 <? added
                     then startNextJobs (added_state added s1) else s1))) as H.
  { destruct (0 <? added).
    - change (values s1) with (values (added_state added s1)).
      apply startNextJobs_values.
    - apply Forall_Forall2_diag, Forall_forall. intros; apply started_or_same_refl. }
  unfold added_state in H. destruct (0 <? rejected); exact H.
Qed.

Lemma addFiles_liveRegion fileList s :
  Inv s →
  let added := Z.of_nat (length (filter (λ f, acceptable f) fileList)) in
  let rejected := Z.of_nat (length (filter (λ f, oversized f) fileList)) in
  liveRegion (addFiles fileList s) =
    (if 0 <? rejected then [AnnRejected rejected] else []) ++
    (if 0 <? added then [AnnAdded added] else []) ++ liveRegion s.
Proof.
  intros Hinv added rejected. unfold addFiles.
  destruct (addFile_fold fileList s 0 0)
    as (s1 & news & -> & _ & _ & Hext & _); [apply Hinv..|].
  cbn beta iota zeta. rewrite !Z.add_0_l. fold added rejected.
  assert (liveRegion (if 0 <? added
                      then startNextJobs (added_state added s1) else s1)
          = (if 0 <? added then [AnnAdded added] else []) ++ liveRegion s) as H.
  { destruct (0 <? added).
    - destruct (startNextJobs_loop_frame (length (jobs (added_state added s1)))
                  (added_state added s1)) as (_ & Hlive & _).
      unfold startNextJobs. rewrite Hlive. simpl. by rewrite (ext_liveRegion s s1 Hext).
    - by rewrite (ext_liveRegion s s1 Hext). }
  unfold added_state in H. destruct (0 <? rejected); simpl; by rewrite H.
Qed.

Lemma started_or_same_files l l' :
  Forall2 started_or_same l l' → Job.file <$> l' = Job.file <$> l.
Proof.
  induction 1 as [|j j' l l' Hj _ IH]; [done|].
  rewrite !fmap_cons. f_equal; [|done]. by destruct Hj as [->|[_ ->]].
Qed.

(** *** The archive builder *)

Lemma endsWithSlash_app path : endsWithSlash (path +:+ "/") = true.
Proof.
  induction path as [|c path IH]; [done|].
  change (String c path +:+ "/") with (String c (path +:+ "/")).
  cbn [endsWithSlash]. destruct (path +:+ "/") eqn:Heq; [by destruct path|done].
Qed.

Lemma dropLast_app path : dropLast (path +:+ "/") = path.
Proof.
  induction path as [|c path IH]; [done|].
  change (String c path +:+ "/") with (String c (path +:+ "/")).
  cbn [dropLast]. destruct (path +:+ "/") eqn:Heq; [by destruct path|].
  by rewrite IH.
Qed.

Lemma dropLast_length path :
  (String.length (dropLast path) <= String.length path)%nat.
Proof.
  induction path as [|c path IH]; [done|]. cbn [dropLast].
  destruct path; cbn [String.length] in *; lia.
Qed.

Lemma beforeLastSlash_length path parent :
  beforeLastSlash path = Some parent →
  (String.length parent < String.length path)%nat.
Proof.
  revert parent. induction path as [|c path IH]; intros parent; [done|].
  cbn [beforeLastSlash]. destruct (beforeLastSlash path) as [pre|].
  - intros [= <-]. specialize (IH pre eq_refl). cbn [String.length]. lia.
  - destruct (Ascii.eqb c "/"); [|done]. intros [= <-]. cbn [String.length]. lia.
Qed.

(** The parent folder is a shorter path. *)
Lemma parentFolder_length path :
  path ≠ "" → (String.length (parentFolder path) < String.length path)%nat.
Proof.
  intros Hne. unfold parentFolder.
  pose proof (dropLast_length path) as Hdrop.
  destruct (beforeLastSlash _) as [parent|] eqn:Hp.
  - apply beforeLastSlash_length in Hp. destruct (endsWithSlash path); lia.
  - destruct path; [done|]. cbn [String.length]. lia.
Qed.

Lemma parentFolder_folder_length name :
  truthy (parentFolder (forceTrailingSlash name)) = true →
  (String.length (parentFolder (forceTrailingSlash name)) < String.length name)%nat.
Proof.
  unfold forceTrailingSlash. destruct (endsWithSlash name) eqn:Hend.
  - intros _. apply parentFolder_length. by destruct name.
  - unfold parentFolder. rewrite endsWithSlash_app, dropLast_app.
    destruct (beforeLastSlash name) as [parent|] eqn:Hp; [|done].
    intros _. by apply beforeLastSlash_length.
Qed.

(** [folderAdd] ends by itself: more calls allowed than the name has
    characters change nothing. *)
Lemma folderAdd_fuel fuel : ∀ fuel' name files,
  (String.length name < fuel)%nat → (String.length name < fuel')%nat →
  folderAdd fuel name files = folderAdd fuel' name files.
Proof.
  induction fuel as [|fuel IH]; intros fuel' name files Hf Hf'; [lia|].
  destruct fuel' as [|fuel']; [lia|]. cbn [folderAdd].
  destruct (JsMap.get _ files); [done|].
  destruct (truthy (parentFolder (forceTrailingSlash name))) eqn:Hp; [|done].
  apply parentFolder_folder_length in Hp. f_equal. apply IH; lia.
Qed.

(** The fuel [JSZip_file] gives is enough. *)
Lemma JSZip_file_fuel name blob zip fuel :
  (String.length name <= fuel)%nat →
  JSZip_file name blob zip =
  JsMap.set name (ZipFile blob)
    (if truthy (parentFolder name) then folderAdd fuel (parentFolder name) zip
     else zip).
Proof.
  intros Hf. unfold JSZip_file.
  destruct (truthy (parentFolder name)) eqn:Hp; [|done]. f_equal.
  assert (name ≠ "") as Hne by (intros ->; done).
  pose proof (parentFolder_length name Hne). apply folderAdd_fuel; lia.
Qed.

Lemma folderAdd_facts fuel : ∀ name files,
  NoDup (JsMap.keys files) →
  NoDup (JsMap.keys (folderAdd fuel name files)) ∧
  (∀ n, n ∈ JsMap.keys files → n ∈ JsMap.keys (folderAdd fuel name files)) ∧
  (∀ n blob, (n, ZipFile blob) ∈ folderAdd fuel name files →
             (n, ZipFile blob) ∈ files).
Proof.
  induction fuel as [|fuel IH]; intros name files Hnd; [done|].
  cbn [folderAdd]. destruct (JsMap.get _ files); [done|].
  set (files1 := if truthy _ then _ else files).
  assert (NoDup (JsMap.keys files1) ∧
          (∀ n, n ∈ JsMap.keys files → n ∈ JsMap.keys files1) ∧
          (∀ n blob, (n, ZipFile blob) ∈ files1 → (n, ZipFile blob) ∈ files))
    as (H1 & H2 & H3).
  { unfold files1. destruct (truthy _); [by apply IH|done]. }
  split_and!.
  - by apply JsMapFacts.NoDup_keys_set.
  - intros n Hn. apply JsMapFacts.elem_keys_set. right. by apply H2.
  - intros n blob [[= _ ?]|Hin]%JsMapFacts.elem_set. by apply H3.
Qed.

Lemma JSZip_file_facts name blob zip :
  NoDup (JsMap.keys zip) →
  NoDup (JsMap.keys (JSZip_file name blob zip)) ∧
  (∀ n, n = name ∨ n ∈ JsMap.keys zip → n ∈ JsMap.keys (JSZip_file name blob zip)) ∧
  (∀ n b, (n, ZipFile b) ∈ JSZip_file name blob zip →
          (n, b) = (name, blob) ∨ (n, ZipFile b) ∈ zip).
Proof.
  intros Hnd. unfold JSZip_file.
  set (zip1 := if truthy _ then _ else zip).
  assert (NoDup (JsMap.keys zip1) ∧
          (∀ n, n ∈ JsMap.keys zip → n ∈ JsMap.keys zip1) ∧
          (∀ n b, (n, ZipFile b) ∈ zip1 → (n, ZipFile b) ∈ zip))
    as (H1 & H2 & H3).
  { unfold zip1. destruct (truthy _); [by apply folderAdd_facts|done]. }
  split_and!.
  - by apply JsMapFacts.NoDup_keys_set.
  - intros n Hn. apply JsMapFacts.elem_keys_set. destruct Hn as [->|Hn]; [by left|].
    right. by apply H2.
  - intros n b [[= -> ->]|Hin]%JsMapFacts.elem_set; [by left|]. right. by apply H3.
Qed.

Lemma JSZip_fold_facts calls : ∀ zip,
  NoDup (JsMap.keys zip) →
  let zip' := fold_left (λ zip c, JSZip_file c.1 c.2 zip) calls zip in
  NoDup (JsMap.keys zip') ∧
  (∀ name, name ∈ JsMap.keys zip ∨ name ∈ calls.*1 → name ∈ JsMap.keys zip') ∧
  (∀ n b, (n, ZipFile b) ∈ zip' → (n, ZipFile b) ∈ zip ∨ (n, b) ∈ calls).
Proof.
  induction calls as [|[name blob] calls IH]; intros zip Hnd; cbn [fold_left].
  - split_and!; [done| |by left]. intros name [?|?%elem_of_nil]; done.
  - destruct (JSZip_file_facts name blob zip Hnd) as (F1 & F2 & F3).
    destruct (IH (JSZip_file name blob zip) F1) as (H1 & H2 & H3).
    split_and!; [done| |].
    + intros n Hn. apply H2. rewrite fmap_cons, elem_of_cons in Hn. cbn [fst] in *.
      destruct Hn as [Hn|[->|Hn]]; [left; apply F2; by right|left; apply F2; by left|by right].
    + intros n b [Hin|Hin]%H3; [|right; by right].
      apply F3 in Hin as [[= -> ->]|Hin]; [right; by left|by left].
Qed.

(** A name without a slash has no folder. *)
Lemma parentFolder_plain name : "/"%char ∉ chars name → parentFolder name = "".
Proof.
  intros Hno.
  assert (beforeLastSlash name = None ∧ endsWithSlash name = false) as [Hb He].
  { induction name as [|c name IH]; [done|]. cbn [chars] in Hno.
    apply not_elem_of_cons in Hno as [Hc Hno]. destruct (IH Hno) as [IH1 IH2].
    cbn [beforeLastSlash endsWithSlash]. rewrite IH1.
    assert (Ascii.eqb c "/" = false) as -> by (apply Ascii.eqb_neq; congruence).
    split; [done|]. by destruct name. }
  unfold parentFolder. by rewrite He, Hb.
Qed.

Lemma JSZip_file_plain name blob zip :
  "/"%char ∉ chars name →
  JSZip_file name blob zip = JsMap.set name (ZipFile blob) zip.
Proof. intros Hno. unfold JSZip_file. by rewrite parentFolder_plain. Qed.

Lemma JSZip_fold_fresh calls : ∀ zip,
  NoDup (JsMap.keys zip ++ calls.*1) →
  Forall (λ c, "/"%char ∉ chars c.1) calls →
  fold_left (λ zip c, JSZip_file c.1 c.2 zip) calls zip
  = zip ++ ((λ c, (c.1, ZipFile c.2)) <$> calls).
Proof.
  induction calls as [|[name blob] calls IH]; intros zip Hnd Hplain; cbn [fold_left].
  - by rewrite app_nil_r.
  - apply Forall_cons in Hplain as [Hname Hplain]. cbn [fst snd] in *.
    rewrite JSZip_file_plain, JsMapFacts.set_fresh by first
      [done | rewrite fmap_cons in Hnd; apply NoDup_app in Hnd as (_ & Hnd & _);
              intros Hin; apply (Hnd name Hin); left].
    rewrite IH; [by rewrite <- app_assoc| |done].
    unfold JsMap.keys. rewrite fmap_app, <- app_assoc. done.
Qed.

Lemma JSZip_entries_facts calls :
  NoDup (JSZip_entries calls).*1 ∧
  (∀ name, name ∈ calls.*1 → name ∈ (JSZip_entries calls).*1) ∧
  (∀ n b, (n, ZipFile b) ∈ JSZip_entries calls → (n, b) ∈ calls) ∧
  (NoDup calls.*1 → Forall (λ c, "/"%char ∉ chars c.1) calls →
   JSZip_entries calls = (λ c, (c.1, ZipFile c.2)) <$> calls).
Proof.
  destruct (JSZip_fold_facts calls []) as (H1 & H2 & H3); [apply NoDup_nil_2|].
  split_and!.
  - done.
  - intros name Hn. apply H2. by right.
  - intros n b [?%elem_of_nil|?]%H3; done.
  - intros Hnd Hplain. by apply (JSZip_fold_fresh calls []).
Qed.

(** One call per ready job of the store, in the order of the store. *)
Lemma export_calls s (l : list nat) :
  (∀ a, a ∈ l → ∃ job, heap s !! a = Some job ∧
                  (is_Some (Job.resultBlob job) ↔ Job.status job = ready)) →
  Forall2 (λ job call, call.1 = downloadName (File.name (Job.file job)) ∧
                       Job.resultBlob job = Some call.2)
    (filter (λ job, has_status ready job) (omap (λ a, heap s !! a) l))
    (omap (entry_of s) (filter (λ a, ref_exportable s a) l)).
Proof.
  induction l as [|a l IH]; intros Hl; [constructor|].
  destruct (Hl a) as (job & Hjob & Hiff); [left|].
  specialize (IH (λ b Hb, Hl b (list_elem_of_further _ _ _ Hb))).
  cbn [omap list_omap]. rewrite Hjob.
  change (list_omap nat RemovalJob ?f l) with (omap f l).
  assert (ref_exportable s a = has_status ready job) as Hex.
  { unfold ref_exportable, exportable. rewrite Hjob.
    destruct (has_status ready job) eqn:Hst; [|done].
    apply has_status_true, Hiff in Hst. by rewrite bool_decide_true. }
  destruct (has_status ready job) eqn:Hst.
  - rewrite filter_cons_True by (by apply Is_true_true).
    rewrite filter_cons_True by (by apply Is_true_true).
    apply has_status_true in Hst. pose proof (proj2 Hiff Hst) as [blob Hblob].
    cbn [omap list_omap]. unfold entry_of at 1. rewrite Hjob. simpl.
    rewrite Hblob. simpl. constructor; [done|]. exact IH.
  - rewrite filter_cons_False by (by rewrite Is_true_true, Hst).
    rewrite filter_cons_False by (by rewrite Is_true_true, Hex). exact IH.
Qed.

Lemma count_status_zero st s :
  count_status st s = 0 ↔ filter (λ job, has_status st job) (values s) = [].
Proof. unfold count_status. rewrite <- length_zero_iff_nil. lia. Qed.

Lemma store_export_calls s :
  StoreWf s →
  Forall2 (λ job call, call.1 = downloadName (File.name (Job.file job)) ∧
                       Job.resultBlob job = Some call.2)
    (filter (λ job, has_status ready job) (values s))
    (omap (entry_of s) (filter (λ a, ref_exportable s a) (refs s))).
Proof.
  intros Hwf. apply export_calls. intros a [id Ha]%elem_refs.
  destruct (wf_heap s Hwf id a Ha) as (job & Hjob & _ & Hok).
  exists job. split; [done|]. apply Hok.
Qed.

(* ===================================================================== *)
(** ** Texts: [escapeHtml], [stripExtension], [timestamp] *)
(* ===================================================================== *)

Lemma append_String c s r : String c s +:+ r = String c (s +:+ r).
Proof. reflexivity. Qed.

Lemma append_empty r : "" +:+ r = r.
Proof. reflexivity. Qed.

Lemma chars_app s r : chars (s +:+ r) = chars s ++ chars r.
Proof. induction s as [|c s IH]; [done|]. rewrite append_String. simpl. by rewrite IH. Qed.

Lemma chars_inj s r : chars s = chars r → s = r.
Proof.
  intros H. rewrite <- (string_of_list_ascii_of_string s),
    <- (string_of_list_ascii_of_string r). by rewrite H.
Qed.

(** The piece [escapeHtml] writes for one character. *)
Lemma escapeHtml_cons c rest :
  escapeHtml (String c rest) =
  (if bool_decide (c ∈ markup) then replacer c else String c "") +:+ escapeHtml rest.
Proof. reflexivity. Qed.

Lemma escape_cases c rest :
  (c = "&"%char ∧ escapeHtml (String c rest) = "&amp;" +:+ escapeHtml rest) ∨
  (c = "<"%char ∧ escapeHtml (String c rest) = "&lt;" +:+ escapeHtml rest) ∨
  (c = ">"%char ∧ escapeHtml (String c rest) = "&gt;" +:+ escapeHtml rest) ∨
  (c = "'"%char ∧ escapeHtml (String c rest) = "&#39;" +:+ escapeHtml rest) ∨
  (c = "034"%char ∧ escapeHtml (String c rest) = "&quot;" +:+ escapeHtml rest) ∨
  ((c ∉ markup) ∧ escapeHtml (String c rest) = String c (escapeHtml rest)).
Proof.
  rewrite escapeHtml_cons.
  destruct (decide (c = "&"%char)) as [->|H1]; [by left|right].
  destruct (decide (c = "<"%char)) as [->|H2]; [by left|right].
  destruct (decide (c = ">"%char)) as [->|H3]; [by left|right].
  destruct (decide (c = "'"%char)) as [->|H4]; [by left|right].
  destruct (decide (c = "034"%char)) as [->|H5]; [by left|right].
  assert (c ∉ markup) as Hc.
  { unfold markup. rewrite !elem_of_cons, elem_of_nil. tauto. }
  split; [done|]. by rewrite bool_decide_eq_false_2.
Qed.

Ltac escape_case c rest H :=
  destruct (escape_cases c rest)
    as [[-> H]|[[-> H]|[[-> H]|[[-> H]|[[-> H]|[? H]]]]]];
  rewrite H; clear H; rewrite ?append_String, ?append_empty.

Lemma escapeHtml_inj_aux s1 : ∀ s2, escapeHtml s1 = escapeHtml s2 → s1 = s2.
Proof.
  induction s1 as [|c1 r1 IH]; intros [|c2 r2].
  - done.
  - escape_case c2 r2 H2; cbn [escapeHtml]; discriminate.
  - escape_case c1 r1 H1; cbn [escapeHtml]; discriminate.
  - assert (∀ c : ascii, c ∉ markup → c ≠ "&"%char) as Hamp.
    { intros c Hc ->. apply Hc. unfold markup. by left. }
    escape_case c1 r1 H1; escape_case c2 r2 H2; intros Heq;
      try discriminate;
      try (injection Heq as Heq; f_equal; by apply IH);
      try (injection Heq as -> Heq; f_equal; by apply IH);
      try (injection Heq as <- _; by edestruct Hamp);
      try (injection Heq as -> _; by edestruct Hamp).
Qed.

Ltac not_elem :=
  let H := fresh in
  intros H; repeat (apply elem_of_cons in H as [H|H]; [discriminate|]);
  by apply elem_of_nil in H.

Lemma escapeHtml_no_markup input :
  Forall (λ c, c ∉ ["<"; ">"; "'"; "034"]%char) (chars (escapeHtml input)).
Proof.
  assert (∀ c : ascii, c ∉ markup → c ∉ ["<"; ">"; "'"; "034"]%char) as Hsub.
  { intros c Hc Hin. apply Hc. unfold markup. by right. }
  induction input as [|c rest IH]; [by constructor|].
  escape_case c rest H; cbn [chars];
    repeat (constructor;
      [first [by apply Hsub | not_elem]|]);
    done.
Qed.

Lemma escapeHtml_length input :
  (String.length input <= String.length (escapeHtml input))%nat.
Proof.
  induction input as [|c rest IH]; [done|].
  escape_case c rest H; cbn [String.length]; lia.
Qed.

Lemma escapeHtml_plain input :
  escapeHtml input = input ↔ Forall (λ c, c ∉ markup) (chars input).
Proof.
  induction input as [|c rest IH]; [by split; [constructor|]|].
  pose proof (escapeHtml_length rest) as Hlen.
  cbn [chars]. rewrite Forall_cons, <- IH.
  escape_case c rest H.
  1-5: split; [|intros [Hc _]; exfalso; apply Hc; unfold markup;
                 rewrite !elem_of_cons; tauto].
  1-5: intros Heq; apply (f_equal String.length) in Heq;
       cbn [String.length] in Heq; lia.
  split; [intros [= ?]; by split|intros [_ ->]; done].
Qed.

Lemma escapeHtml_app s r : escapeHtml (s +:+ r) = escapeHtml s +:+ escapeHtml r.
Proof.
  induction s as [|c s IH]; [done|].
  rewrite append_String, !escapeHtml_cons, IH.
  destruct (bool_decide _); [|done].
  generalize (replacer c). intros e. induction e as [|x e IHe]; [done|].
  rewrite !append_String. by rewrite IHe.
Qed.

Lemma escapeHtml_inj s1 s2 : escapeHtml s1 = escapeHtml s2 → s1 = s2.
Proof. apply escapeHtml_inj_aux. Qed.

(** *** [stripExtension] and [downloadName] *)

Lemma hasDot_app a b : hasDot (a +:+ b) = hasDot a || hasDot b.
Proof.
  induction a as [|c a IH]; [done|].
  rewrite append_String. cbn [hasDot]. by rewrite IH, orb_assoc.
Qed.

Lemma truthy_true u : truthy u = true ↔ u ≠ "".
Proof. by destruct u. Qed.

Lemma stripExtension_last base ext :
  ext ≠ "" → hasDot ext = false →
  stripExtension (base +:+ "." +:+ ext) = base.
Proof.
  intros Hext Hdot. induction base as [|c base IH].
  - rewrite append_empty, append_String, append_empty. cbn [stripExtension].
    apply truthy_true in Hext. by rewrite Hext, Hdot.
  - rewrite append_String. cbn [stripExtension].
    rewrite hasDot_app, append_String, append_empty. cbn [hasDot].
    rewrite orb_true_r, andb_false_r. by rewrite <- (append_empty ext), <- append_String, IH.
Qed.

Lemma stripExtension_other name :
  (∀ base ext, name = base +:+ "." +:+ ext → ext = "" ∨ hasDot ext = true) →
  stripExtension name = name.
Proof.
  induction name as [|c rest IH]; intros Hno; [done|].
  cbn [stripExtension].
  destruct (Ascii.eqb c "." && truthy rest && negb (hasDot rest)) eqn:Hc.
  - apply andb_prop in Hc as [[Hc Hr]%andb_prop Hd].
    apply Ascii.eqb_eq in Hc as ->. apply truthy_true in Hr.
    apply negb_true_iff in Hd.
    destruct (Hno "" rest) as [?|?]; [done|done|congruence].
  - f_equal. apply IH. intros base ext ->.
    apply (Hno (String c base) ext). by rewrite append_String.
Qed.

Lemma stripExtension_nodot name : hasDot name = false → stripExtension name = name.
Proof.
  intros Hdot. apply stripExtension_other. intros base ext ->.
  rewrite hasDot_app, append_String in Hdot. cbn [hasDot] in Hdot.
  by rewrite orb_true_r in Hdot.
Qed.

(** *** [timestamp] *)

Lemma timestamp_length now : String.length (timestamp now) = String.length now.
Proof. induction now as [|c now IH]; [done|]. cbn [timestamp String.length]. by rewrite IH. Qed.

Lemma timestamp_chars now :
  Forall (λ c, c ∉ [":"; "."]%char) (chars (timestamp now)).
Proof.
  induction now as [|c now IH]; [by constructor|].
  cbn [timestamp chars]. constructor; [|done].
  destruct (Ascii.eqb c ":") eqn:H1; [cbn [orb]; not_elem|].
  destruct (Ascii.eqb c ".") eqn:H2; [cbn [orb]; not_elem|].
  cbn [orb]. apply Ascii.eqb_neq in H1, H2.
  rewrite !elem_of_cons, elem_of_nil. tauto.
Qed.

Lemma timestamp_fixed now :
  Forall (λ c, c ∉ [":"; "."]%char) (chars now) → timestamp now = now.
Proof.
  induction now as [|c now IH]; [done|]. cbn [chars timestamp].
  intros [Hc Hnow]%Forall_cons. rewrite IH by done.
  destruct (Ascii.eqb_spec c ":") as [->|?];
    [exfalso; apply Hc; rewrite !elem_of_cons; tauto|].
  destruct (Ascii.eqb_spec c ".") as [->|?];
    [exfalso; apply Hc; rewrite !elem_of_cons; tauto|].
  done.
Qed.

(** Every ampersand [escapeHtml] writes opens an entity of its table. *)
Ltac peel H pre :=
  destruct pre as [|? pre];
  [rewrite append_empty in H; discriminate H
  |rewrite append_String in H; injection H as ? H].

Ltac entity_head H e input :=
  rewrite append_empty in H; rewrite <- H; exists e, (escapeHtml input);
  split; [unfold entities; cbn [fmap list_fmap snd]; rewrite !elem_of_cons; tauto
         |by rewrite ?append_String, ?append_empty].

Lemma escapeHtml_amp input : ∀ pre post,
  escapeHtml input = pre +:+ String "&" post →
  ∃ e rest, e ∈ entities.*2 ∧ String "&" post = e +:+ rest.
Proof.
  induction input as [|c input IH]; intros pre post H.
  - destruct pre; discriminate.
  - revert H. escape_case c input Hc; intros Heq.
    + destruct pre as [|? pre]; [entity_head Heq "&amp;" input|].
      rewrite append_String in Heq; injection Heq as ? Heq.
      do 4 peel Heq pre. by eapply IH.
    + destruct pre as [|? pre]; [entity_head Heq "&lt;" input|].
      rewrite append_String in Heq; injection Heq as ? Heq.
      do 3 peel Heq pre. by eapply IH.
    + destruct pre as [|? pre]; [entity_head Heq "&gt;" input|].
      rewrite append_String in Heq; injection Heq as ? Heq.
      do 3 peel Heq pre. by eapply IH.
    + destruct pre as [|? pre]; [entity_head Heq "&#39;" input|].
      rewrite append_String in Heq; injection Heq as ? Heq.
      do 4 peel Heq pre. by eapply IH.
    + destruct pre as [|? pre]; [entity_head Heq "&quot;" input|].
      rewrite append_String in Heq; injection Heq as ? Heq.
      do 5 peel Heq pre. by eapply IH.
    + destruct pre as [|? pre].
      * rewrite append_empty in Heq. injection Heq as -> _. exfalso.
        match goal with H : _ ∉ markup |- _ => apply H end. unfold markup. by left.
      * rewrite append_String in Heq. injection Heq as ? Heq. by eapply IH.
Qed.

(* ===================================================================== *)
(** ** The summary and the export button *)
(* ===================================================================== *)

Lemma filter_cons_bool {A} (f : A → bool) x (l : list A) :
  filter f (x :: l) = if f x then x :: filter f l else filter f l.
Proof. rewrite filter_cons. by destruct (f x). Qed.

Lemma filter_active (l : list RemovalJob) :
  length (filter (λ job, has_status pending job || has_status processing job) l)
  = (length (filter (has_status pending) l)
     + length (filter (has_status processing) l))%nat.
Proof.
  induction l as [|job l IH]; [done|]. rewrite !filter_cons_bool.
  destruct (has_status pending job) eqn:H1, (has_status processing job) eqn:H2;
    cbn [orb length]; try lia.
  apply has_status_true in H1, H2. congruence.
Qed.

Lemma filter_statuses (l : list RemovalJob) :
  length l
  = (length (filter (has_status pending) l)
     + length (filter (has_status processing) l)
     + length (filter (has_status ready) l)
     + length (filter (has_status error) l))%nat.
Proof.
  induction l as [|job l IH]; [done|]. rewrite !filter_cons_bool.
  destruct (has_status pending job) eqn:H1, (has_status processing job) eqn:H2,
    (has_status ready job) eqn:H3, (has_status error job) eqn:H4;
    cbn [length]; try lia;
    rewrite ?has_status_true, ?has_status_false in *;
    try congruence; destruct (Job.status job); congruence.
Qed.

Lemma values_length s : StoreWf s → length (values s) = length (jobs s).
Proof.
  intros Hwf. unfold values.
  assert (∀ a, a ∈ refs s → is_Some (heap s !! a)) as Hl.
  { intros a [id Ha]%elem_refs.
    destruct (wf_heap s Hwf id a Ha) as (job & -> & _). by eexists. }
  unfold refs, JsMap.values in *. rewrite <- (length_fmap snd (jobs s)).
  induction (jobs s).*2 as [|a l IH]; [done|].
  cbn [omap list_omap]. destruct (Hl a) as [job ->]; [by left|].
  cbn [length]. f_equal. apply IH. intros b Hb. apply Hl. by right.
Qed.

Lemma summary_total s :
  StoreWf s →
  count_status pending s + count_status processing s
  + count_status ready s + count_status error s = Z.of_nat (length (jobs s)).
Proof.
  intros Hwf. rewrite <- (values_length s Hwf). unfold count_status.
  pose proof (filter_statuses (values s)). lia.
Qed.

Lemma updateSummary_Fresh s :
  Fresh (updateSummary s) ∧ readyJobCount (updateSummary s) = count_status ready s.
Proof.
  split; [split|done].
  - unfold summary_of.
    rewrite !(count_status_ext _ (updateSummary s) s) by done.
    unfold count_status. rewrite <- Nat2Z.inj_add, <- filter_active. done.
  - done.
Qed.

Lemma Fresh_frame s s' :
  Fresh s → heap s' = heap s → jobs s' = jobs s → summary s' = summary s →
  readyJobCount s' = readyJobCount s →
  downloadAllDisabled s' = downloadAllDisabled s → Fresh s'.
Proof.
  intros [H1 H2] Hh Hj Hs Hr Hd. split.
  - rewrite Hs, H1. unfold summary_of. by rewrite !(count_status_ext _ s' s).
  - by rewrite Hd, Hr.
Qed.

Lemma Fresh_Sync s : Fresh s → Sync s.
Proof.
  intros [H1 H2]. split; [done| |done].
  rewrite H2. intros H%Z.eqb_neq. done.
Qed.

Lemma Sync_frame s s' :
  Sync s → heap s' = heap s → jobs s' = jobs s → summary s' = summary s →
  readyJobCount s' = readyJobCount s →
  downloadAllDisabled s' = downloadAllDisabled s → zipping s' = zipping s →
  Sync s'.
Proof.
  intros [H1 H2 H3] Hh Hj Hs Hr Hd Hz. split.
  - rewrite Hs, H1. unfold summary_of. by rewrite !(count_status_ext _ s' s).
  - by rewrite Hd, Hr.
  - by rewrite Hd, Hr, Hz.
Qed.

Lemma runJob_Fresh a s : Fresh (runJob a s).
Proof.
  unfold runJob.
  match goal with |- Fresh (set_inflight _ (updateSummary ?s0)) =>
    destruct (updateSummary_Fresh s0) as [H _];
    by apply (Fresh_frame (updateSummary s0))
  end.
Qed.

Lemma startNextJobs_loop_Fresh fuel s : Fresh s → Fresh (startNextJobs_loop fuel s).
Proof.
  revert s. induction fuel as [|fuel IH]; intros s Hs; cbn [startNextJobs_loop]; [done|].
  destruct (activeWorkers s <? MAX_PARALLEL_JOBS); [|done].
  destruct (find_pending s) as [a|]; [|done]. apply IH, runJob_Fresh.
Qed.

Lemma settled_Fresh a o s : Fresh (settled a o s).
Proof.
  unfold settled.
  match goal with |- Fresh (set_activeWorkers _ (updateSummary ?s0)) =>
    destruct (updateSummary_Fresh s0) as [H _];
    by apply (Fresh_frame (updateSummary s0))
  end.
Qed.

Lemma retried_Fresh a s : Fresh (retried a s).
Proof. unfold retried. apply updateSummary_Fresh. Qed.

Lemma removed_Fresh id a job s : Fresh (removed id a job s).
Proof.
  unfold removed.
  match goal with |- Fresh (announce _ (updateSummary ?s0)) =>
    destruct (updateSummary_Fresh s0) as [H _];
    by apply (Fresh_frame (updateSummary s0))
  end.
Qed.

Lemma added_state_Fresh added s : Fresh (added_state added s).
Proof.
  unfold added_state.
  match goal with |- Fresh (announce _ (updateSummary ?s0)) =>
    destruct (updateSummary_Fresh s0) as [H _];
    by apply (Fresh_frame (updateSummary s0))
  end.
Qed.

(** The state [addFiles] leaves, from the state [s1] of the store after
    the loop. *)
Lemma addFiles_cases fileList s :
  StoreWf s → Workers s →
  let added := Z.of_nat (length (filter (λ f, acceptable f) fileList)) in
  let rejected := Z.of_nat (length (filter (λ f, oversized f) fileList)) in
  ∃ s1 s2,
    s1 = (fold_left addFile fileList (s, 0, 0)).1.1 ∧
    StoreWf s1 ∧ Workers s1 ∧ extends s s1 ∧
    (filter (λ f, acceptable f) fileList = [] → s1 = s) ∧
    s2 = (if 0 <? added then startNextJobs (added_state added s1) else s) ∧
    addFiles fileList s =
      if 0 <? rejected then announce (AnnRejected rejected) s2 else s2.
Proof.
  intros Hwf Hwk added rejected. unfold addFiles.
  destruct (addFile_fold fileList s 0 0)
    as (s1 & news & -> & Hwf1 & Hwk1 & Hext & _ & _ & _ & Hnil); [done..|].
  cbn beta iota zeta. rewrite !Z.add_0_l. fold added rejected.
  exists s1. eexists. split_and!; [done..|reflexivity|].
  destruct (Z.ltb_spec 0 added) as [Hlt|Hge]; [done|].
  rewrite Hnil; [done|]. apply length_zero_iff_nil. unfold added in Hge. lia.
Qed.

Lemma addFiles_Sync fileList s : Inv s → Sync s → Sync (addFiles fileList s).
Proof.
  intros Hinv Hs.
  destruct (addFiles_cases fileList s) as (s1 & s2 & _ & _ & _ & _ & _ & Hs2 & ->);
    [apply Hinv..|].
  assert (Sync s2) as Hsync.
  { rewrite Hs2. destruct (0 <? _); [|done].
    apply Fresh_Sync, startNextJobs_loop_Fresh, added_state_Fresh. }
  clear Hs2. destruct (0 <? _); [|done]. by apply (Sync_frame s2).
Qed.

Lemma jobListClick_Sync id action s : Sync s → Sync (jobListClick id action s).1.
Proof.
  intros Hs. unfold jobListClick.
  destruct (JsMap.get id (jobs s)) as [a|]; [|done].
  destruct (heap s !! a) as [job|]; [|done].
  destruct action.
  - destruct (has_status processing job); [done|].
    apply Fresh_Sync, (removed_Fresh id a job s).
  - destruct (Job.resultUrl job) as [url|]; [|done].
    destruct (negb _ || negb _); [done|]. by apply (Sync_frame s).
  - destruct (has_status error job); [|done].
    apply Fresh_Sync, startNextJobs_loop_Fresh, (retried_Fresh a s).
Qed.

Lemma runJob_resume_Sync a o s : Sync (runJob_resume a o s).
Proof.
  rewrite runJob_resume_settled.
  apply Fresh_Sync, startNextJobs_loop_Fresh, settled_Fresh.
Qed.

(** In the states the program reaches the loop of the export fetches
    nothing: the export it starts does not depend on [fetch]. *)
Lemma downloadAllReadyJobs_reached fetch s :
  StoreWf s →
  downloadAllReadyJobs fetch s =
    if readyJobCount s =? 0 then s
    else
      let readyJobs := filter (λ a, ref_exportable s a) (refs s) in
      if bool_decide (readyJobs = [])
      then updateBatchDownloadState (set_downloadAllDisabled true s)
      else set_zipping (zipping s ++ [JSZip_entries (omap (entry_of s) readyJobs)])
             (set_downloadAllDisabled true s).
Proof.
  intros Hwf. unfold downloadAllReadyJobs.
  destruct (readyJobCount s =? 0); [done|].
  cbn zeta. case_bool_decide as Hnil.
  - rewrite bool_decide_true; done.
  - rewrite zip_loop_blobs by (intros a Ha; by apply (readyJobs_blobs s)).
    rewrite bool_decide_false; done.
Qed.

Lemma downloadAllClick_Sync fetch s :
  StoreWf s → Sync s → Sync (downloadAllClick fetch s).1.
Proof.
  intros Hwf Hs. unfold downloadAllClick.
  destruct (readyJobCount s =? 0) eqn:Hr; [done|]. cbn [fst].
  rewrite downloadAllReadyJobs_reached, Hr by done. cbn zeta.
  pose proof Hr as Hne%Z.eqb_neq.
  destruct Hs as [H1 H2 H3]. case_bool_decide.
  - split; [exact H1|done|by simpl; rewrite Hr].
  - split; [exact H1|done|]. simpl. intros Hz. by destruct (zipping s).
Qed.

Lemma downloadAllReadyJobs_resume_Sync i generateOk now s :
  Sync s → Sync (downloadAllReadyJobs_resume i generateOk now s).
Proof.
  intros Hs. unfold downloadAllReadyJobs_resume.
  destruct (zipping s !! i); [|done]. destruct Hs as [H1 H2 H3].
  destruct generateOk; (split; [exact H1|simpl..]).
  all: try (intros H%Z.eqb_neq; done). all: done.
Qed.

Lemma init_Sync : Sync init.
Proof. by split. Qed.

Lemma step_Sync s e : Inv s → Sync s → Sync (step s e).
Proof.
  intros Hinv Hs. destruct e as [fileList|id action|a o|fetch|i generateOk now]; simpl.
  - by apply addFiles_Sync.
  - by apply jobListClick_Sync.
  - case_bool_decide; [apply runJob_resume_Sync | done].
  - apply downloadAllClick_Sync; [apply Hinv|done].
  - by apply downloadAllReadyJobs_resume_Sync.
Qed.

Lemma run_Sync events s : Inv s → Sync s → Sync (run events s).
Proof.
  revert s. induction events as [|e events IH]; intros s Hinv Hs; [done|].
  apply IH; [by apply step_Inv | by apply step_Sync].
Qed.

Lemma reachable_Sync events : Sync (run events init).
Proof. apply run_Sync; [apply init_Inv | apply init_Sync]. Qed.

(* ===================================================================== *)
(** ** No job waits while a worker is free *)
(* ===================================================================== *)

Lemma pendingRefs_ext s s' :
  heap s' = heap s → jobs s' = jobs s → pendingRefs s' = pendingRefs s.
Proof.
  intros Hh Hj. unfold pendingRefs, refs, ref_has_status. by rewrite Hh, Hj.
Qed.

Lemma Saturated_frame s s' :
  Saturated s → heap s' = heap s → jobs s' = jobs s →
  activeWorkers s' = activeWorkers s → Saturated s'.
Proof.
  intros Hs Hh Hj Ha. unfold Saturated. by rewrite (pendingRefs_ext s s'), Ha.
Qed.

Lemma startNextJobs_Saturated s : Inv s → Saturated (startNextJobs s).
Proof.
  intros Hinv. pose proof (startNextJobs_Inv s Hinv) as [_ Hwk _].
  destruct (startNextJobs_done s) as [Hfull|Hnone].
  - right. pose proof (wk_bound _ Hwk). lia.
  - left. by apply find_pending_None.
Qed.

Lemma removed_Saturated id a job s :
  heap s !! a = Some job → Saturated s → Saturated (removed id a job s).
Proof.
  intros Hjob Hs.
  destruct (removed_frame id a job s Hjob) as (Hheap & Hjobs & _ & _ & Haw & _).
  destruct Hs as [Hnone|Hfull]; [left|right; by rewrite Haw].
  apply elem_of_nil_inv. intros b (Hb & jb & Hjb & Hst)%elem_pendingRefs.
  apply (elem_of_nil b). rewrite <- Hnone. apply elem_pendingRefs.
  apply elem_refs in Hb as [id' Hb]. rewrite Hjobs in Hb.
  apply JsMapFacts.elem_delete in Hb. split; [apply elem_refs; by exists id'|].
  destruct (status_alter s _ a _ b jb Hheap Hjb) as (j & Hj & ->).
  exists j. split; [done|]. by destruct (decide (a = b)).
Qed.

Lemma jobListClick_Saturated id action s :
  Inv s → Saturated s → Saturated (jobListClick id action s).1.
Proof.
  intros Hinv Hs. unfold jobListClick.
  destruct (JsMap.get id (jobs s)) as [a|] eqn:Hget; [|done].
  destruct (heap s !! a) as [job|] eqn:Hjob; [|done].
  destruct action.
  - destruct (has_status processing job); [done|]. by apply removed_Saturated.
  - destruct (Job.resultUrl job) as [url|]; [|done].
    destruct (negb _ || negb _); [done|]. by apply (Saturated_frame s).
  - destruct (has_status error job) eqn:Hst; [|done].
    apply has_status_true in Hst. cbn [fst].
    apply startNextJobs_Saturated, (retried_Inv s id a job); try done.
    by apply JsMapFacts.get_Some_elem.
Qed.

Lemma addFiles_Saturated fileList s :
  Inv s → Saturated s → Saturated (addFiles fileList s).
Proof.
  intros Hinv Hs.
  destruct (addFiles_cases fileList s) as (s1 & s2 & _ & Hwf1 & Hwk1 & Hext & _ & Hs2 & ->);
    [apply Hinv..|].
  assert (Saturated s2) as Hsat.
  { rewrite Hs2. destruct (0 <? _); [|done].
    by apply startNextJobs_Saturated, (added_state_Inv s). }
  clear Hs2. destruct (0 <? _); [|done]. by apply (Saturated_frame s2).
Qed.

Lemma step_Saturated s e : Inv s → Saturated s → Saturated (step s e).
Proof.
  intros Hinv Hs. destruct e as [fileList|id action|a o|fetch|i generateOk now]; simpl.
  - by apply addFiles_Saturated.
  - by apply jobListClick_Saturated.
  - case_bool_decide; [|done]. rewrite runJob_resume_settled.
    by apply startNextJobs_Saturated, settled_Inv.
  - unfold downloadAllClick. destruct (readyJobCount s =? 0); [done|]. cbn [fst].
    destruct (downloadAllReadyJobs_frame fetch s)
      as (? & ? & ? & ? & ? & ? & ?); [apply Hinv|].
    by apply (Saturated_frame s).
  - destruct (downloadAllReadyJobs_resume_frame i generateOk now s)
      as (? & ? & ? & ? & ? & ? & ?).
    by apply (Saturated_frame s).
Qed.

Lemma run_Saturated events s : Inv s → Saturated s → Saturated (run events s).
Proof.
  revert s. induction events as [|e events IH]; intros s Hinv Hs; [done|].
  apply IH; [by apply step_Inv | by apply step_Saturated].
Qed.

Lemma reachable_Saturated events : Saturated (run events init).
Proof. apply run_Saturated; [apply init_Inv | by left]. Qed.

(* ===================================================================== *)
(** ** Object URLs: made once, held by one job, revoked once *)
(* ===================================================================== *)

Lemma blob_url_inj (k k' : nat) : "blob:" +:+ pretty k = "blob:" +:+ pretty k' → k = k'.
Proof.
  rewrite !append_String, !append_empty. intros [= H]. by apply (inj pretty) in H.
Qed.

Lemma minted_mono s s' url :
  minted s url → (nextUrl s <= nextUrl s')%nat → minted s' url.
Proof. intros (k & Hk & ->) Hle. exists k. split; [lia|done]. Qed.

Lemma minted_next s : ¬ minted s ("blob:" +:+ pretty (nextUrl s)).
Proof. intros (k & Hk & Heq%blob_url_inj). lia. Qed.

Lemma minted_S s s' url :
  nextUrl s' = S (nextUrl s) →
  minted s' url ↔ minted s url ∨ url = "blob:" +:+ pretty (nextUrl s).
Proof.
  intros Hn. split.
  - intros (k & Hk & ->). destruct (decide (k = nextUrl s)) as [->|Hne]; [by right|].
    left. exists k. split; [lia|done].
  - intros [Hm| ->]; [apply (minted_mono s); [done|lia]|].
    exists (nextUrl s). split; [lia|done].
Qed.

Lemma store_urls_ext s s' a :
  jobs s' = jobs s →
  job_urls <$> heap s' !! a = job_urls <$> heap s !! a →
  store_urls s' a = store_urls s a.
Proof.
  intros Hj Hh. unfold store_urls, refs. rewrite Hj. case_bool_decide; [|done].
  revert Hh. destruct (heap s' !! a), (heap s !! a); cbn [fmap option_fmap option_map]; congruence.
Qed.

Lemma store_urls_job s a job :
  a ∈ refs s → heap s !! a = Some job → store_urls s a = job_urls job.
Proof. intros Ha Hjob. unfold store_urls. by rewrite bool_decide_true, Hjob. Qed.

Lemma store_urls_out s a : a ∉ refs s → store_urls s a = [].
Proof. intros Ha. unfold store_urls. by rewrite bool_decide_false. Qed.

Lemma store_urls_elem s a url :
  url ∈ store_urls s a →
  a ∈ refs s ∧ ∃ job, heap s !! a = Some job ∧ url ∈ job_urls job.
Proof.
  unfold store_urls. case_bool_decide; [|by intros ?%elem_of_nil].
  destruct (heap s !! a) as [job|]; [eauto|by intros ?%elem_of_nil].
Qed.

(** Nothing moved but, possibly, new URLs were made and handed to a
    download. *)
Lemma UrlsOk_frame s s' :
  UrlsOk s →
  (∀ a, store_urls s' a = store_urls s a) →
  revoked s' = revoked s →
  (nextUrl s <= nextUrl s')%nat →
  (∀ url, minted s' url → minted s url ∨ url ∈ (downloads s').*2) →
  (∀ d, d ∈ downloads s → d ∈ downloads s') →
  UrlsOk s'.
Proof.
  intros [H1 H2 H3 H4 H5 H6 H7] Hst Hrev Hn Hm Hd.
  split; setoid_rewrite Hst || idtac; rewrite ?Hrev; try done.
  - intros a url Hu. by eapply minted_mono; [eapply H1|].
  - intros url Hu. by eapply minted_mono; [eapply H4|].
  - intros url [Hu|Hu]%Hm; [|by right; right].
    destruct (H7 url Hu) as [?|[?|Hin]]; [by left|by right; left|right; right].
    apply list_elem_of_fmap in Hin as (d & -> & Hin).
    apply list_elem_of_fmap. exists d. split; [done|by apply Hd].
Qed.

(** The job behind [a] gained the URL just made. *)
Lemma UrlsOk_add s s' a :
  UrlsOk s →
  (∀ b, store_urls s' b =
        if decide (b = a)
        then store_urls s a ++ ["blob:" +:+ pretty (nextUrl s)]
        else store_urls s b) →
  nextUrl s' = S (nextUrl s) → revoked s' = revoked s →
  downloads s' = downloads s →
  UrlsOk s'.
Proof.
  intros [H1 H2 H3 H4 H5 H6 H7] Hst Hn Hrev Hd.
  pose proof (minted_next s) as Hnew.
  set (new := "blob:" +:+ pretty (nextUrl s)) in *.
  assert (∀ b url, url ∈ store_urls s' b ↔
            url ∈ store_urls s b ∨ (b = a ∧ url = new)) as Helem.
  { intros b url. rewrite Hst. destruct (decide (b = a)) as [->|Hne].
    - rewrite elem_of_app, list_elem_of_singleton. intuition congruence.
    - intuition congruence. }
  split; rewrite ?Hrev, ?Hd.
  - intros b url [Hu|[-> ->]]%Helem; apply (minted_S s s'); eauto.
  - intros b. rewrite Hst. destruct (decide (b = a)) as [->|Hne]; [|done].
    apply NoDup_app. split_and!; [done| |apply NoDup_singleton].
    intros url Hu ->%list_elem_of_singleton. by apply Hnew, (H1 a).
  - intros b c url [Hb|[-> ->]]%Helem [Hc|[-> Hc]]%Helem.
    + by eapply H3.
    + exfalso. apply Hnew. rewrite <- Hc. by eapply H1.
    + exfalso. by eapply Hnew, H1.
    + done.
  - intros url Hu. apply (minted_S s s'); eauto.
  - intros b url [Hu|[-> ->]]%Helem; [by eapply H5|].
    intros Hr. by apply Hnew, H4.
  - done.
  - intros url [Hu| ->]%(minted_S s s' _ Hn); [|left; exists a; apply Helem; by right].
    destruct (H7 url Hu) as [[b Hb]|[?|?]]; [left|by right; left|by right; right].
    exists b. apply Helem. by left.
Qed.

(** The job behind [a] left the store and its URLs were revoked. *)
Lemma UrlsOk_drop s s' a :
  UrlsOk s →
  (∀ b, store_urls s' b = if decide (b = a) then [] else store_urls s b) →
  nextUrl s' = nextUrl s → revoked s' ≡ₚ store_urls s a ++ revoked s →
  downloads s' = downloads s →
  UrlsOk s'.
Proof.
  intros [H1 H2 H3 H4 H5 H6 H7] Hst Hn Hrev Hd.
  assert (∀ b url, url ∈ store_urls s' b ↔ url ∈ store_urls s b ∧ b ≠ a) as Helem.
  { intros b url. rewrite Hst. destruct (decide (b = a)) as [->|Hne].
    - rewrite elem_of_nil. intuition congruence.
    - intuition congruence. }
  assert (∀ url, minted s' url ↔ minted s url) as Hm.
  { intros url. unfold minted. by rewrite Hn. }
  split; rewrite ?Hd.
  - intros b url [Hu _]%Helem. apply Hm. by eapply H1.
  - intros b. rewrite Hst. destruct (decide (b = a)); [apply NoDup_nil_2|done].
  - intros b c url [Hb _]%Helem [Hc _]%Helem. by eapply H3.
  - intros url. rewrite Hrev, elem_of_app, Hm. intros [Hu|Hu]; [by eapply H1|by apply H4].
  - intros b url [Hu Hne]%Helem. rewrite Hrev, elem_of_app.
    intros [Ha|Hr]; [|by eapply H5]. apply Hne. by eapply H3.
  - rewrite Hrev. apply NoDup_app. split_and!; [done| |done].
    intros url Hu. by eapply H5.
  - intros url Hu%Hm. setoid_rewrite Hrev. setoid_rewrite elem_of_app.
    destruct (H7 url Hu) as [[b Hb]|[?|?]]; [|by right; left; right|by right; right].
    destruct (decide (b = a)) as [->|Hne]; [by right; left; left|].
    left. exists b. by apply Helem.
Qed.

(** *** The handlers *)

Lemma enqueue_frame_urls file s :
  StoreWf s →
  nextUrl (enqueue file s) = S (nextUrl s) ∧
  revoked (enqueue file s) = revoked s ∧
  downloads (enqueue file s) = downloads s ∧
  zipping (enqueue file s) = zipping s ∧
  summary (enqueue file s) = summary s ∧
  downloadAllDisabled (enqueue file s) = downloadAllDisabled s.
Proof. done. Qed.

Lemma enqueue_refs file s b :
  StoreWf s → b ∈ refs (enqueue file s) ↔ b ∈ refs s ∨ b = length (heap s).
Proof.
  intros Hwf. destruct (enqueue_frame file s Hwf) as (_ & Hj & _).
  unfold refs, JsMap.values. rewrite Hj, fmap_app, elem_of_app. cbn [fmap list_fmap snd].
  by rewrite list_elem_of_singleton.
Qed.

Lemma enqueue_store_urls file s b :
  StoreWf s →
  store_urls (enqueue file s) b =
    if decide (b = length (heap s))
    then store_urls s (length (heap s)) ++ ["blob:" +:+ pretty (nextUrl s)]
    else store_urls s b.
Proof.
  intros Hwf. destruct (enqueue_frame file s Hwf) as (Hh & _).
  assert (length (heap s) ∉ refs s) as Hout.
  { intros Hin%(refs_lt s); [lia|done]. }
  destruct (decide (b = length (heap s))) as [->|Hne].
  - rewrite (store_urls_out s) by done.
    rewrite (store_urls_job _ _ (new_job file s)); [done| |].
    + apply enqueue_refs; [done|by right].
    + by rewrite Hh, lookup_app_r, Nat.sub_diag by lia.
  - unfold store_urls.
    destruct (decide (b ∈ refs s)) as [Hin|Hnin].
    + rewrite !bool_decide_true; [|done|apply enqueue_refs; [done|by left]].
      rewrite Hh, lookup_app_l; [done|by apply (refs_lt s)].
    + rewrite !bool_decide_false; [done|done|].
      intros [?|?]%enqueue_refs; done.
Qed.

Lemma enqueue_UrlsOk file s : StoreWf s → UrlsOk s → UrlsOk (enqueue file s).
Proof.
  intros Hwf Hs. destruct (enqueue_frame_urls file s Hwf) as (? & ? & ? & _).
  apply (UrlsOk_add s _ (length (heap s))); try done.
  intros b. by apply enqueue_store_urls.
Qed.

(** What holds of the store before the loop of [addFiles] and is kept by
    the admission of a file holds after it. *)
Lemma addFile_fold_ind (P : State → Prop) :
  (∀ file s, acceptable file = true → StoreWf s → Workers s → P s →
             P (enqueue file s)) →
  ∀ fileList s added rejected,
    StoreWf s → Workers s → P s →
    P (fold_left addFile fileList (s, added, rejected)).1.1.
Proof.
  intros Hstep fileList.
  induction fileList as [|file l IH]; intros s added rejected Hwf Hwk HP; [done|].
  cbn [fold_left]. destruct (acceptable file) eqn:Hacc.
  - rewrite addFile_accept by done.
    apply IH; [by apply enqueue_StoreWf|by apply enqueue_Workers|by apply Hstep].
  - rewrite addFile_reject by done. by apply IH.
Qed.

Lemma startNextJobs_loop_store_urls fuel s a :
  store_urls (startNextJobs_loop fuel s) a = store_urls s a.
Proof.
  destruct (startNextJobs_loop_frame fuel s) as (Hj & _).
  apply store_urls_ext; [done|].
  destruct (heap s !! a) as [job|] eqn:Hjob.
  - destruct (startNextJobs_loop_heap fuel s a job Hjob) as (job' & -> & [->|[_ ->]]);
      done.
  - apply lookup_ge_None in Hjob. rewrite <- (startNextJobs_loop_length fuel) in Hjob.
    apply lookup_ge_None in Hjob. by rewrite Hjob.
Qed.

Lemma startNextJobs_loop_UrlsOk fuel s :
  UrlsOk s → UrlsOk (startNextJobs_loop fuel s).
Proof.
  intros Hs.
  destruct (startNextJobs_loop_frame fuel s) as (_ & _ & _ & Hn & Hr & Hd & _).
  apply (UrlsOk_frame s); try done.
  - intros a. apply startNextJobs_loop_store_urls.
  - by rewrite Hn.
  - intros url (k & Hk & ->). left. exists k. by rewrite <- Hn.
  - intros d. by rewrite Hd.
Qed.

(** A state that differs from [s] in the fields of a job other than its
    URLs, and in what the page shows. *)
Lemma UrlsOk_alter s s' a f :
  UrlsOk s →
  jobs s' = jobs s → heap s' = alter f a (heap s) →
  (∀ job, heap s !! a = Some job → job_urls (f job) = job_urls job) →
  nextUrl s' = nextUrl s → revoked s' = revoked s → downloads s' = downloads s →
  UrlsOk s'.
Proof.
  intros Hs Hj Hh Hf Hn Hr Hd. apply (UrlsOk_frame s); try done.
  - intros b. apply store_urls_ext; [done|]. rewrite Hh.
    destruct (decide (a = b)) as [->|Hne].
    + rewrite list_lookup_alter_eq. destruct (heap s !! b) as [job|] eqn:Hjob; [|done].
      simpl. f_equal. by apply Hf.
    + by rewrite list_lookup_alter_ne.
  - by rewrite Hn.
  - intros url (k & Hk & ->). left. exists k. by rewrite <- Hn.
  - intros d. by rewrite Hd.
Qed.

Lemma settled_frame_urls a o s job :
  heap s !! a = Some job → Job.resultUrl job = None →
  nextUrl (settled a o s) =
    match o with Resolved _ => S (nextUrl s) | Rejected _ => nextUrl s end ∧
  revoked (settled a o s) = revoked s ∧
  downloads (settled a o s) = downloads s ∧
  liveRegion (settled a o s) =
    match o with
    | Resolved _ => AnnFinished (File.name (Job.file job))
    | Rejected _ => AnnFailed (File.name (Job.file job))
    end :: liveRegion s.
Proof.
  intros Hjob Hurl. unfold settled. destruct o as [blob|e]; simpl.
  - unfold runJob_try, revokeBlobUrl. simpl. by rewrite Hjob, Hurl.
  - unfold runJob_catch. simpl. by rewrite Hjob.
Qed.

Lemma settled_UrlsOk s a o : Inv s → a ∈ inflight s → UrlsOk s → UrlsOk (settled a o s).
Proof.
  intros [Hwf Hwk Hdom] Ha Hs.
  destruct (inflight_job s a Hwf Hwk Ha) as (Hin & job & Hjob & Hst & Hok).
  destruct (processing_fields job Hok Hst) as (Hblob & Hurl & Herr).
  destruct (settled_frame a o s) as (Hj & _).
  pose proof (settled_heap a o s job Hjob Hurl) as Hh.
  destruct (settled_frame_urls a o s job Hjob Hurl) as (Hn & Hr & Hd & _).
  destruct o as [blob|e].
  - apply (UrlsOk_add s _ a); try done.
    intros b. destruct (decide (b = a)) as [->|Hne].
    + rewrite (store_urls_job s a job) by done.
      rewrite (store_urls_job _ a (settle_fields (Resolved blob) ("blob:" +:+ pretty (nextUrl s)) job)).
      * unfold job_urls. simpl. by rewrite Hurl.
      * unfold refs. by rewrite Hj.
      * by rewrite Hh, list_lookup_alter_eq, Hjob.
    + apply store_urls_ext; [done|]. by rewrite Hh, list_lookup_alter_ne.
  - apply (UrlsOk_alter s _ a (settle_fields (Rejected e) ("blob:" +:+ pretty (nextUrl s))));
      done.
Qed.

Lemma retried_UrlsOk a s : UrlsOk s → UrlsOk (retried a s).
Proof.
  intros Hs. apply (UrlsOk_alter s _ a retry_fields); try done.
  apply retried_heap.
Qed.

Lemma added_state_UrlsOk added s : UrlsOk s → UrlsOk (added_state added s).
Proof.
  intros Hs. apply (UrlsOk_frame s); try done.
  intros url Hu. by left.
Qed.

Lemma delete_refs (id : string) (a : nat) (m : list (string * nat)) b :
  NoDup m.*2 → JsMap.get id m = Some a →
  b ∈ (JsMap.delete id m).*2 ↔ b ∈ m.*2 ∧ b ≠ a.
Proof.
  intros Hnd Hget.
  destruct (JsMapFacts.delete_split id a m Hget) as (m1 & m2 & -> & ->).
  rewrite !fmap_app, fmap_cons in *. cbn [snd] in *.
  apply NoDup_app in Hnd as (_ & Hd1 & [Hd2 _]%NoDup_cons).
  rewrite !elem_of_app, elem_of_cons. split.
  - intros [Hb|Hb]; (split; [tauto|intros ->]); [|done].
    apply (Hd1 a Hb). by left.
  - intros [[?|[?|?]] ?]; tauto.
Qed.

Lemma removed_frame_urls id a job s :
  heap s !! a = Some job →
  (∀ url, Job.resultUrl job = Some url → isBlobUrl (Some url) = true) →
  nextUrl (removed id a job s) = nextUrl s ∧
  revoked (removed id a job s) = reverse (job_urls job) ++ revoked s ∧
  downloads (removed id a job s) = downloads s ∧
  liveRegion (removed id a job s) = AnnRemoved (File.name (Job.file job)) :: liveRegion s.
Proof.
  intros Hjob Hblob. unfold removed, cleanupJobUrls, revokeBlobUrl, job_urls.
  rewrite Hjob. destruct (Job.resultUrl job) as [url|]; [|done].
  by rewrite (Hblob url).
Qed.

Lemma removed_store_urls id a job s b :
  StoreWf s → JsMap.get id (jobs s) = Some a → heap s !! a = Some job →
  store_urls (removed id a job s) b = if decide (b = a) then [] else store_urls s b.
Proof.
  intros Hwf Hget Hjob.
  destruct (removed_frame id a job s Hjob) as (Hh & Hj & _).
  assert (∀ c, c ∈ refs (removed id a job s) ↔ c ∈ refs s ∧ c ≠ a) as Hrefs.
  { intros c. unfold refs, JsMap.values. rewrite Hj.
    apply delete_refs; [apply Hwf|done]. }
  destruct (decide (b = a)) as [->|Hne].
  - apply store_urls_out. intros [_ ?]%Hrefs. done.
  - unfold store_urls. rewrite Hh, list_lookup_alter_ne by done.
    destruct (decide (b ∈ refs s)) as [Hin|Hnin].
    + rewrite !bool_decide_true; [done|done|by apply Hrefs].
    + rewrite !bool_decide_false; [done|done|]. by intros [? _]%Hrefs.
Qed.

Lemma removed_UrlsOk s id a job :
  StoreWf s → JsMap.get id (jobs s) = Some a → heap s !! a = Some job →
  UrlsOk s → UrlsOk (removed id a job s).
Proof.
  intros Hwf Hget Hjob Hs.
  pose proof (JsMapFacts.get_Some_elem _ _ _ Hget) as Hin.
  destruct (wf_heap s Hwf id a Hin) as (j & Hj & _ & Hok).
  assert (j = job) as -> by congruence.
  destruct (removed_frame_urls id a job s Hjob (fields_blob_url job Hok))
    as (Hn & Hr & Hd & _).
  apply (UrlsOk_drop s _ a); try done.
  - intros b. by apply (removed_store_urls id a job s b).
  - rewrite Hr, (store_urls_job s a job); [|apply elem_refs; by exists id|done].
    by rewrite reverse_Permutation.
Qed.

Lemma jobListClick_UrlsOk id action s :
  Inv s → UrlsOk s → UrlsOk (jobListClick id action s).1.
Proof.
  intros Hinv Hs. unfold jobListClick.
  destruct (JsMap.get id (jobs s)) as [a|] eqn:Hget; [|done].
  destruct (heap s !! a) as [job|] eqn:Hjob; [|done].
  destruct action.
  - destruct (has_status processing job); [done|].
    apply removed_UrlsOk; [apply Hinv|done..].
  - destruct (Job.resultUrl job) as [url|]; [|done].
    destruct (negb _ || negb _); [done|]. cbn [fst].
    apply (UrlsOk_frame s); try done.
    + intros u Hu. by left.
    + intros d Hd. by right.
  - destruct (has_status error job); [|done]. cbn [fst].
    by apply startNextJobs_loop_UrlsOk, retried_UrlsOk.
Qed.

Lemma addFiles_UrlsOk fileList s : Inv s → UrlsOk s → UrlsOk (addFiles fileList s).
Proof.
  intros Hinv Hs.
  destruct (addFiles_cases fileList s) as (s1 & s2 & Hs1 & _ & _ & _ & _ & Hs2 & ->);
    [apply Hinv..|].
  assert (UrlsOk s1) as Hu1.
  { rewrite Hs1. apply (addFile_fold_ind UrlsOk); [|apply Hinv..|done].
    intros file s0 _ Hwf _. by apply enqueue_UrlsOk. }
  assert (UrlsOk s2) as Hu2.
  { rewrite Hs2. destruct (0 <? _); [|done].
    by apply startNextJobs_loop_UrlsOk, added_state_UrlsOk. }
  clear Hs2. destruct (0 <? _); [|done].
  apply (UrlsOk_frame s2); try done. intros u Hu. by left.
Qed.

Lemma downloadAllReadyJobs_frame_urls fetch s :
  StoreWf s →
  let s' := downloadAllReadyJobs fetch s in
  nextUrl s' = nextUrl s ∧ revoked s' = revoked s ∧ downloads s' = downloads s ∧
  liveRegion s' = liveRegion s ∧ console s' = console s ∧ summary s' = summary s ∧
  archives s' = archives s.
Proof.
  intros Hwf. cbn zeta. rewrite downloadAllReadyJobs_reached by done.
  destruct (readyJobCount s =? 0); [done|]. cbn zeta. by case_bool_decide.
Qed.

Lemma downloadAllClick_UrlsOk fetch s :
  StoreWf s → UrlsOk s → UrlsOk (downloadAllClick fetch s).1.
Proof.
  intros Hwf Hs. unfold downloadAllClick.
  destruct (readyJobCount s =? 0); [done|]. cbn [fst].
  destruct (downloadAllReadyJobs_frame fetch s Hwf) as (Hh & Hj & _).
  destruct (downloadAllReadyJobs_frame_urls fetch s Hwf) as (Hn & Hr & Hd & _).
  apply (UrlsOk_frame s); try done.
  - intros a. apply store_urls_ext; [done|by rewrite Hh].
  - by rewrite Hn.
  - intros url (k & Hk & ->). left. exists k. by rewrite <- Hn.
  - intros d. by rewrite Hd.
Qed.

Lemma downloadAllReadyJobs_resume_UrlsOk i generateOk now s :
  UrlsOk s → UrlsOk (downloadAllReadyJobs_resume i generateOk now s).
Proof.
  intros Hs. unfold downloadAllReadyJobs_resume.
  destruct (zipping s !! i) as [entries|]; [|done].
  destruct generateOk.
  - apply (UrlsOk_frame s); try done.
    + simpl. lia.
    + intros url [Hu| ->]%(minted_S s); [by left| |done]. right. simpl. by left.
    + intros d Hd. simpl. by right.
  - apply (UrlsOk_frame s); try done. intros url Hu. by left.
Qed.

Lemma init_UrlsOk : UrlsOk init.
Proof.
  assert (∀ a, store_urls init a = []) as Hst by done.
  split; try (apply NoDup_nil_2).
  - intros a url. rewrite Hst. by intros ?%elem_of_nil.
  - intros a. rewrite Hst. apply NoDup_nil_2.
  - intros a b url. rewrite Hst. by intros ?%elem_of_nil.
  - intros url ?%elem_of_nil. done.
  - intros a url. rewrite Hst. by intros ?%elem_of_nil.
  - intros url (k & Hk & _). simpl in Hk. lia.
Qed.

Lemma step_UrlsOk s e : Inv s → UrlsOk s → UrlsOk (step s e).
Proof.
  intros Hinv Hs. destruct e as [fileList|id action|a o|fetch|i generateOk now]; simpl.
  - by apply addFiles_UrlsOk.
  - by apply jobListClick_UrlsOk.
  - case_bool_decide; [|done]. rewrite runJob_resume_settled.
    by apply startNextJobs_loop_UrlsOk, settled_UrlsOk.
  - apply downloadAllClick_UrlsOk; [apply Hinv|done].
  - by apply downloadAllReadyJobs_resume_UrlsOk.
Qed.

Lemma run_UrlsOk events s : Inv s → UrlsOk s → UrlsOk (run events s).
Proof.
  revert s. induction events as [|e events IH]; intros s Hinv Hs; [done|].
  apply IH; [by apply step_Inv | by apply step_UrlsOk].
Qed.

Lemma reachable_UrlsOk events : UrlsOk (run events init).
Proof. apply run_UrlsOk; [apply init_Inv | apply init_UrlsOk]. Qed.

(* ===================================================================== *)
(** ** What a job keeps while the program runs *)
(* ===================================================================== *)

Lemma evolves_refl job : evolves job job.
Proof. by split. Qed.

Lemma evolves_trans j1 j2 j3 : evolves j1 j2 → evolves j2 j3 → evolves j1 j3.
Proof.
  intros [H1 H2 H3 H4] [K1 K2 K3 K4]. split; try congruence.
  intros Hr. destruct (H4 Hr) as [Hr2 Hu2]. destruct (K4 Hr2) as [Hr3 Hu3].
  split; congruence.
Qed.

Lemma later_refl s : later s s.
Proof.
  split; try done.
  - intros a job Hjob. exists job. split_and!; [done|apply evolves_refl|done].
  - intros id a Ha. by left.
Qed.

Lemma later_refs s s' a :
  later s s' → a ∈ refs s' → a ∈ refs s ∨ (length (heap s) <= a)%nat.
Proof.
  intros Hl [id Ha]%elem_refs.
  destruct (later_jobs s s' Hl id a Ha) as [?|(k & _ & _ & ?)]; [left|by right].
  apply elem_refs. by exists id.
Qed.

Lemma later_trans s1 s2 s3 : later s1 s2 → later s2 s3 → later s1 s3.
Proof.
  intros H12 H23. split.
  - intros a job Hjob.
    destruct (later_heap _ _ H12 a job Hjob) as (job2 & Hjob2 & Hev2 & Hb2).
    destruct (later_heap _ _ H23 a job2 Hjob2) as (job3 & Hjob3 & Hev3 & Hb3).
    exists job3. split_and!; [done|by eapply evolves_trans|].
    intros Ha Hr. destruct (ev_ready _ _ Hev2 Hr) as [Hr2 _].
    rewrite Hb3 by done. apply Hb2; [|done].
    destruct (later_refs s2 s3 a H23 Ha) as [?|Hge]; [done|].
    apply lookup_lt_Some in Hjob2. lia.
  - intros id a Ha.
    pose proof (later_uuid _ _ H12). pose proof (later_length _ _ H12).
    destruct (later_jobs _ _ H23 id a Ha) as [Ha2|(k & ? & ? & ?)].
    + by apply (later_jobs _ _ H12).
    + right. exists k. split_and!; [lia|done|lia].
  - pose proof (later_uuid _ _ H12). pose proof (later_uuid _ _ H23). lia.
  - pose proof (later_length _ _ H12). pose proof (later_length _ _ H23). lia.
Qed.

Lemma later_frame s s' :
  heap s' = heap s → jobs s' = jobs s → nextUuid s' = nextUuid s → later s s'.
Proof.
  intros Hh Hj Hu. split; rewrite ?Hh, ?Hj, ?Hu; try done.
  - intros a job Hjob. exists job. split_and!; [done|apply evolves_refl|done].
  - intros id a Ha. by left.
Qed.

(** One job object was written, the store kept its entries. *)
Lemma later_alter s s' a f :
  jobs s' = jobs s → nextUuid s' = nextUuid s → heap s' = alter f a (heap s) →
  (∀ job, heap s !! a = Some job →
     evolves job (f job) ∧
     (Job.status job = ready → Job.resultBlob (f job) = Job.resultBlob job)) →
  later s s'.
Proof.
  intros Hj Hu Hh Hf. split; rewrite ?Hj, ?Hu, ?Hh, ?length_alter; try done.
  - intros b job Hjob. destruct (decide (a = b)) as [->|Hne].
    + exists (f job). rewrite list_lookup_alter_eq, Hjob.
      destruct (Hf job Hjob). by split_and!.
    + exists job. rewrite list_lookup_alter_ne by done.
      split_and!; [done|apply evolves_refl|done].
  - intros id b Hb. by left.
Qed.

Lemma startNextJobs_loop_later fuel s : later s (startNextJobs_loop fuel s).
Proof.
  destruct (startNextJobs_loop_frame fuel s) as (Hj & _ & Hu & _).
  split; rewrite ?Hj, ?Hu, ?startNextJobs_loop_length; try done.
  - intros a job Hjob.
    destruct (startNextJobs_loop_heap fuel s a job Hjob) as (job' & Hjob' & Hcase).
    exists job'. split; [done|].
    destruct Hcase as [->|[Hp ->]]; [split; [apply evolves_refl|done]|].
    split; [split; try done|]; intros Hr; congruence.
  - intros id a Ha. by left.
Qed.

Lemma enqueue_later file s : StoreWf s → later s (enqueue file s).
Proof.
  intros Hwf. destruct (enqueue_frame file s Hwf) as (Hh & Hj & Hu & _).
  split; rewrite ?Hh, ?Hj, ?Hu, ?length_app; try lia.
  - intros a job Hjob. exists job.
    split_and!; [by apply lookup_app_l_Some|apply evolves_refl|done].
  - intros id a [Ha|Ha%list_elem_of_singleton]%elem_of_app; [by left|].
    right. exists (nextUuid s). by simplify_eq.
Qed.

Lemma settled_later s a o : Inv s → a ∈ inflight s → later s (settled a o s).
Proof.
  intros [Hwf Hwk Hdom] Ha.
  destruct (inflight_job s a Hwf Hwk Ha) as (Hin & job & Hjob & Hst & Hok).
  destruct (processing_fields job Hok Hst) as (Hblob & Hurl & Herr).
  destruct (settled_frame a o s) as (Hj & Hu & _).
  eapply later_alter; [done|done|by apply (settled_heap a o s job)|].
  intros j Hj'. assert (j = job) as -> by congruence.
  split; [|intros Hr; congruence].
  split; try (by destruct o); intros Hr; congruence.
Qed.

Lemma retried_later s a job :
  heap s !! a = Some job → Job.status job = error → later s (retried a s).
Proof.
  intros Hjob Hst.
  eapply later_alter; [done|done|apply retried_heap|].
  intros j Hj'. assert (j = job) as -> by congruence.
  split; [|intros Hr; congruence].
  split; try done; intros Hr; congruence.
Qed.

Lemma removed_later s id a job :
  StoreWf s → JsMap.get id (jobs s) = Some a → heap s !! a = Some job →
  later s (removed id a job s).
Proof.
  intros Hwf Hget Hjob.
  destruct (removed_frame id a job s Hjob) as (Hh & Hj & Hu & _).
  split; rewrite ?Hu, ?Hh, ?length_alter; try done.
  - intros b jb Hjb. destruct (decide (a = b)) as [<-|Hne].
    + exists (Job.set_resultBlob None jb). rewrite list_lookup_alter_eq, Hjb.
      split_and!; [done|by split|].
      intros Hin. exfalso. unfold refs, JsMap.values in Hin. rewrite Hj in Hin.
      apply (delete_refs id a) in Hin as [_ ?]; [done|apply Hwf|done].
    + exists jb. rewrite list_lookup_alter_ne by done.
      split_and!; [done|apply evolves_refl|done].
  - intros id' b Hb. left. rewrite Hj in Hb. by eapply JsMapFacts.elem_delete.
Qed.

Lemma jobListClick_later id action s :
  StoreWf s → later s (jobListClick id action s).1.
Proof.
  intros Hwf. unfold jobListClick.
  destruct (JsMap.get id (jobs s)) as [a|] eqn:Hget; [|apply later_refl].
  destruct (heap s !! a) as [job|] eqn:Hjob; [|apply later_refl].
  destruct action.
  - destruct (has_status processing job); [apply later_refl|].
    by apply removed_later.
  - destruct (Job.resultUrl job) as [url|]; [|apply later_refl].
    destruct (negb _ || negb _); [apply later_refl|]. by apply later_frame.
  - destruct (has_status error job) eqn:Hst; [|apply later_refl].
    apply has_status_true in Hst. cbn [fst].
    eapply later_trans; [by apply (retried_later s a job)|].
    apply startNextJobs_loop_later.
Qed.

Lemma addFiles_later fileList s : Inv s → later s (addFiles fileList s).
Proof.
  intros Hinv.
  destruct (addFiles_cases fileList s) as (s1 & s2 & Hs1 & _ & _ & _ & _ & Hs2 & ->);
    [apply Hinv..|].
  assert (later s s1) as Hl1.
  { rewrite Hs1. apply (addFile_fold_ind (later s)); [|apply Hinv..|apply later_refl].
    intros file s0 _ Hwf _ Hl. eapply later_trans; [done|by apply enqueue_later]. }
  assert (later s s2) as Hl2.
  { rewrite Hs2. destruct (0 <? _); [|apply later_refl].
    eapply later_trans; [done|].
    eapply later_trans; [|apply startNextJobs_loop_later]. by apply later_frame. }
  clear Hs2. destruct (0 <? _); [|done].
  eapply later_trans; [done|by apply later_frame].
Qed.

Lemma step_later s e : Inv s → later s (step s e).
Proof.
  intros Hinv. destruct e as [fileList|id action|a o|fetch|i generateOk now]; simpl.
  - by apply addFiles_later.
  - apply jobListClick_later, Hinv.
  - case_bool_decide; [|apply later_refl]. rewrite runJob_resume_settled.
    eapply later_trans; [by apply settled_later|apply startNextJobs_loop_later].
  - unfold downloadAllClick. destruct (readyJobCount s =? 0); [apply later_refl|].
    destruct (downloadAllReadyJobs_frame fetch s) as (? & ? & ? & _); [apply Hinv|].
    by apply later_frame.
  - destruct (downloadAllReadyJobs_resume_frame i generateOk now s) as (? & ? & ? & _).
    by apply later_frame.
Qed.

Lemma run_later events s : Inv s → later s (run events s).
Proof.
  revert s. induction events as [|e events IH]; intros s Hinv; [apply later_refl|].
  cbn [run fold_left]. eapply later_trans; [by apply step_later|].
  apply IH. by apply step_Inv.
Qed.

(** An id of the store leads to the same object for as long as it is in
    the store. *)
Lemma later_get s s' id a a' :
  StoreWf s → later s s' →
  JsMap.get id (jobs s) = Some a → JsMap.get id (jobs s') = Some a' → a' = a.
Proof.
  intros Hwf Hl Hget Hget'.
  apply JsMapFacts.get_Some_elem in Hget, Hget'.
  destruct (later_jobs s s' Hl id a' Hget') as [Hin|(k & Hk & -> & _)].
  - eapply JsMapFacts.keys_inj; [apply Hwf|done..].
  - destruct (wf_fresh s Hwf (pretty k)) as (k0 & Hk0 & Heq%(inj pretty)); [|lia].
    apply elem_keys. by exists a.
Qed.

(* ===================================================================== *)
(** ** The page and the handlers *)
(* ===================================================================== *)

Lemma ids_values s : StoreWf s → Job.id <$> values s = JsMap.keys (jobs s).
Proof.
  intros Hwf. pose proof (wf_heap s Hwf) as Hheap.
  unfold values, refs, JsMap.values, JsMap.keys.
  induction (jobs s) as [|[id a] m IH]; [done|].
  destruct (Hheap id a) as (job & Hjob & Hid & _); [by left|].
  cbn [fmap list_fmap omap list_omap snd fst]. rewrite Hjob.
  cbn [fmap list_fmap]. rewrite Hid. f_equal.
  apply IH. intros id' a' Ha'. apply Hheap. by right.
Qed.

Lemma view_ids s : StoreWf s → card_id <$> view s = reverse (JsMap.keys (jobs s)).
Proof.
  intros Hwf. unfold view. rewrite fmap_reverse, <- list_fmap_compose.
  by rewrite <- (ids_values s Hwf).
Qed.

(** The job a card of the page was drawn from. *)
Lemma card_job s c :
  StoreWf s → c ∈ view s →
  ∃ a job, JsMap.get (card_id c) (jobs s) = Some a ∧ a ∈ refs s ∧
    heap s !! a = Some job ∧ c = card job ∧ fields_ok job.
Proof.
  intros Hwf (job & (a & Ha & Hjob)%elem_values & ->)%elem_view.
  pose proof Ha as [id Hid]%elem_refs.
  destruct (wf_heap s Hwf id a Hid) as (j & Hj & <- & Hok).
  assert (j = job) as -> by congruence.
  exists a, job. split_and!; try done.
  apply JsMapFacts.elem_get; [apply Hwf|done].
Qed.

Lemma ready_url job :
  fields_ok job → Job.status job = ready →
  ∃ url, Job.resultUrl job = Some url ∧ truthy url = true.
Proof.
  intros [_ H2 _ H4 _] Hst. apply H2 in Hst as [url Hurl].
  exists url. split; [done|].
  specialize (H4 url Hurl). unfold isBlobUrl in H4.
  by apply andb_true_iff in H4 as [? _].
Qed.

(** What a click on the download button of a job does. *)
Lemma jobListClick_download s id a job :
  JsMap.get id (jobs s) = Some a → heap s !! a = Some job → fields_ok job →
  (jobListClick id download s).1 =
    if has_status ready job
    then click_link (downloadName (File.name (Job.file job))) (card_src (card job)) s
    else s.
Proof.
  intros Hget Hjob Hok. unfold jobListClick. rewrite Hget, Hjob.
  destruct (has_status ready job) eqn:Hst.
  - apply has_status_true in Hst.
    destruct (ready_url job Hok Hst) as (url & Hurl & Ht).
    simpl. by rewrite Hurl, Ht.
  - by destruct (Job.resultUrl job).
Qed.

Lemma jobListClick_remove s id a job :
  JsMap.get id (jobs s) = Some a → heap s !! a = Some job →
  (jobListClick id remove s).1 =
    if has_status processing job then s else removed id a job s.
Proof.
  intros Hget Hjob. unfold jobListClick. rewrite Hget, Hjob.
  by destruct (has_status processing job).
Qed.

Lemma jobListClick_retry s id a job :
  JsMap.get id (jobs s) = Some a → heap s !! a = Some job →
  (jobListClick id retry s).1 =
    if has_status error job then startNextJobs (retried a s) else s.
Proof.
  intros Hget Hjob. unfold jobListClick. rewrite Hget, Hjob.
  by destruct (has_status error job).
Qed.

Lemma startNextJobs_later_status s a job :
  heap s !! a = Some job →
  ∃ job', heap (startNextJobs s) !! a = Some job' ∧ started_or_same job job'.
Proof. apply startNextJobs_loop_heap. Qed.

(** The worker's job when its handler returns. *)
Lemma runJob_resume_job s a o job :
  heap s !! a = Some job → Job.resultUrl job = None →
  heap (runJob_resume a o s) !! a
  = Some (settle_fields o ("blob:" +:+ pretty (nextUrl s)) job).
Proof.
  intros Hjob Hurl. rewrite runJob_resume_settled.
  destruct (startNextJobs_later_status (settled a o s) a
              (settle_fields o ("blob:" +:+ pretty (nextUrl s)) job))
    as (job' & -> & [->|[Hp _]]); [|done|by destruct o].
  by rewrite (settled_heap a o s job), list_lookup_alter_eq, Hjob.
Qed.

Lemma runJob_resume_others s a o job b jb :
  heap s !! a = Some job → Job.resultUrl job = None →
  b ≠ a → heap s !! b = Some jb →
  ∃ jb', heap (runJob_resume a o s) !! b = Some jb' ∧ started_or_same jb jb'.
Proof.
  intros Hjob Hurl Hne Hjb. rewrite runJob_resume_settled.
  apply startNextJobs_later_status.
  by rewrite (settled_heap a o s job), list_lookup_alter_ne.
Qed.

Lemma runJob_resume_frame s a o job :
  heap s !! a = Some job → Job.resultUrl job = None →
  jobs (runJob_resume a o s) = jobs s ∧
  revoked (runJob_resume a o s) = revoked s ∧
  downloads (runJob_resume a o s) = downloads s ∧
  liveRegion (runJob_resume a o s) =
    match o with
    | Resolved _ => AnnFinished (File.name (Job.file job))
    | Rejected _ => AnnFailed (File.name (Job.file job))
    end :: liveRegion s.
Proof.
  intros Hjob Hurl. rewrite runJob_resume_settled.
  destruct (startNextJobs_loop_frame (length (jobs (settled a o s))) (settled a o s))
    as (Hj & Hl & _ & _ & Hr & Hd & _).
  destruct (settled_frame a o s) as (Hj' & _).
  destruct (settled_frame_urls a o s job Hjob Hurl) as (_ & Hr' & Hd' & Hl').
  unfold startNextJobs. by rewrite Hj, Hl, Hr, Hd, Hj', Hr', Hd', Hl'.
Qed.

(** A batch without an acceptable file. *)
Lemma addFile_fold_reject fileList : ∀ s added rejected,
  Forall (λ f, acceptable f = false) fileList →
  fold_left addFile fileList (s, added, rejected) =
  (s, added, rejected + Z.of_nat (length (filter (λ f, oversized f) fileList))).
Proof.
  induction fileList as [|file l IH]; intros s added rejected Hl.
  - simpl. by rewrite Z.add_0_r.
  - apply Forall_cons in Hl as [Hf Hl]. cbn [fold_left].
    rewrite addFile_reject, IH by done. f_equal.
    rewrite !filter_cons, filter_nil.
    destruct (decide (oversized file)); cbn [length]; lia.
Qed.

Lemma addFiles_reject fileList s :
  Forall (λ f, acceptable f = false) fileList →
  addFiles fileList s =
    let rejected := Z.of_nat (length (filter (λ f, oversized f) fileList)) in
    if 0 <? rejected then announce (AnnRejected rejected) s else s.
Proof.
  intros Hl. unfold addFiles. rewrite addFile_fold_reject by done.
  cbn beta iota zeta. by rewrite Z.add_0_l.
Qed.

(** Removing a job takes its card off the page and leaves the others as
    they were, in their order. *)
Lemma values_delete s s' id a :
  StoreWf s → JsMap.get id (jobs s) = Some a →
  jobs s' = JsMap.delete id (jobs s) →
  (∀ b, b ≠ a → heap s' !! b = heap s !! b) →
  values s' = filter (λ job, Job.id job ≠ id) (values s).
Proof.
  intros Hwf Hget Hj Hh.
  pose proof (wf_heap s Hwf) as Hheap. pose proof (wf_keys s Hwf) as Hkeys.
  pose proof (wf_refs s Hwf) as Hrefs.
  unfold values, refs, JsMap.values, JsMap.keys in *. rewrite Hj. clear Hj.
  induction (jobs s) as [|[id' b] m IH]; [done|].
  cbn [fmap list_fmap fst snd] in Hkeys, Hrefs.
  apply NoDup_cons in Hkeys as [Hk1 Hk2]. apply NoDup_cons in Hrefs as [Hr1 Hr2].
  destruct (Hheap id' b) as (job & Hjob & Hid & _); [by left|].
  cbn [JsMap.get JsMap.delete] in Hget |- *.
  cbn [fmap list_fmap omap list_omap snd]. rewrite Hjob.
  destruct (decide (id' = id)) as [->|Hne].
  - assert (b = a) as -> by congruence.
    rewrite filter_cons_False by (intros H; by apply H).
    assert (∀ id0 c, (id0, c) ∈ m → c ≠ a ∧ id0 ≠ id) as Hm.
    { intros id0 c Hc. split; intros ->.
      - apply Hr1. apply list_elem_of_fmap. by exists (id0, a).
      - apply Hk1. apply list_elem_of_fmap. by exists (id, c). }
    assert (∀ id0 c, (id0, c) ∈ m →
              ∃ jc, heap s !! c = Some jc ∧ Job.id jc = id0) as Hheap'.
    { intros id0 c Hc. destruct (Hheap id0 c) as (jc & ? & ? & _); [by right|eauto]. }
    clear IH Hget Hk1 Hk2 Hr1 Hr2 Hheap.
    induction m as [|[id0 c] m IHm]; [done|].
    destruct (Hm id0 c) as [Hc Hid0]; [by left|].
    destruct (Hheap' id0 c) as (jc & Hjc & Hidc); [by left|].
    cbn [fmap list_fmap omap list_omap snd]. rewrite Hh, Hjc by done.
    rewrite filter_cons_True by (by rewrite Hidc).
    change (list_omap nat RemovalJob ?f ?l) with (omap f l).
    rewrite IHm; [done| |].
    + intros id1 c1 H. apply Hm. by right.
    + intros id1 c1 H. apply Hheap'. by right.
  - assert (b ≠ a) as Hb.
    { intros ->. apply Hne. apply JsMapFacts.get_Some_elem in Hget.
      destruct (Hheap id a) as (ja & Hja & Hida & _); [by right|]. congruence. }
    cbn [fmap list_fmap omap list_omap snd]. rewrite Hh, Hjob by done.
    rewrite filter_cons_True by (by rewrite Hid).
    change (list_omap nat RemovalJob ?f ?l) with (omap f l).
    rewrite IH; [done..| |done|done].
    intros id1 c1 H. apply Hheap. by right.
Qed.

Lemma filter_card_id (id : string) (l : list RemovalJob) :
  filter (λ c, card_id c ≠ id) (card <$> l)
  = card <$> filter (λ job, Job.id job ≠ id) l.
Proof.
  induction l as [|job l IH]; [done|].
  rewrite fmap_cons, !filter_cons, IH. cbn [card_id card].
  by destruct (decide (Job.id job ≠ id)).
Qed.

(* ===================================================================== *)
(** ** The queue drains *)
(* ===================================================================== *)

Lemma waiting_filter s :
  waiting s =
  Z.of_nat (length (filter
    (λ job, has_status pending job || has_status processing job) (values s))).
Proof. unfold waiting, count_status. rewrite filter_active. lia. Qed.

Lemma Forall2_filter_length {A} (R : A → A → Prop) (f : A → bool) (l l' : list A) :
  Forall2 R l l' → (∀ x y, R x y → f x = f y) →
  length (filter f l) = length (filter f l').
Proof.
  intros Hl Hf. induction Hl as [|x y l l' Hxy Hl IH]; [done|].
  rewrite !filter_cons_bool, (Hf x y Hxy). destruct (f y); cbn [length]; by rewrite IH.
Qed.

Lemma startNextJobs_waiting s : waiting (startNextJobs s) = waiting s.
Proof.
  rewrite !waiting_filter. f_equal. symmetry.
  apply (Forall2_filter_length started_or_same); [apply startNextJobs_values|].
  intros job job' [->|[Hp ->]]; [done|].
  unfold has_status, start_fields. cbn [Job.status Job.set_error Job.set_status].
  by rewrite Hp.
Qed.

Lemma filter_ext_in {A} (P Q : A → Prop) `{∀ x, Decision (P x)} `{∀ x, Decision (Q x)}
    (l : list A) :
  (∀ x, x ∈ l → (P x ↔ Q x)) → filter P l = filter Q l.
Proof.
  induction l as [|x l IH]; intros Hl; [done|].
  rewrite !filter_cons, IH by (intros y Hy; apply Hl; by right).
  destruct (decide (P x)) as [HP|HP], (decide (Q x)) as [HQ|HQ]; try done.
  - destruct HQ. by apply (Hl x); [left|].
  - destruct HP. by apply (Hl x); [left|].
Qed.

Lemma filter_drop_one {A} `{EqDecision A} (P Q : A → Prop) `{∀ x, Decision (P x)}
    `{∀ x, Decision (Q x)} (l : list A) (a : A) :
  NoDup l → a ∈ l → P a → ¬ Q a → (∀ x, x ≠ a → (P x ↔ Q x)) →
  length (filter P l) = S (length (filter Q l)).
Proof.
  intros Hnd Ha HP HQ Hne. induction l as [|x l IH]; [by apply elem_of_nil in Ha|].
  apply NoDup_cons in Hnd as [Hx Hnd]. rewrite !filter_cons.
  destruct (decide (x = a)) as [->|Hxa].
  - rewrite decide_True, decide_False by done. cbn [length]. f_equal. f_equal.
    apply filter_ext_in. intros y Hy. apply Hne. by intros ->.
  - apply elem_of_cons in Ha as [?|Ha]; [done|]. specialize (IH Hnd Ha).
    destruct (decide (P x)) as [HPx|HPx].
    + rewrite decide_True by (by apply Hne). cbn [length]. by rewrite IH.
    + rewrite decide_False by (by rewrite <- Hne). done.
Qed.

Lemma settled_ref_status s a o job st b :
  heap s !! a = Some job → Job.resultUrl job = None →
  ref_has_status (settled a o s) st b =
    if decide (b = a)
    then has_status st (settle_fields o ("blob:" +:+ pretty (nextUrl s)) job)
    else ref_has_status s st b.
Proof.
  intros Hjob Hurl. unfold ref_has_status.
  rewrite (settled_heap a o s job Hjob Hurl).
  destruct (decide (b = a)) as [->|Hne].
  - by rewrite list_lookup_alter_eq, Hjob.
  - by rewrite list_lookup_alter_ne.
Qed.

Lemma settled_waiting s a o :
  Inv s → a ∈ inflight s → waiting (settled a o s) = waiting s - 1.
Proof.
  intros [Hwf Hwk Hdom] Ha.
  destruct (inflight_job s a Hwf Hwk Ha) as (Hin & job & Hjob & Hst & Hok).
  destruct (processing_fields job Hok Hst) as (Hblob & Hurl & Herr).
  destruct (settled_frame a o s) as (Hj & _).
  assert (refs (settled a o s) = refs s) as Hrefs by (unfold refs; by rewrite Hj).
  unfold waiting. rewrite !count_status_refs, Hrefs.
  assert (length (filter (λ b, ref_has_status (settled a o s) pending b) (refs s))
          = length (filter (λ b, ref_has_status s pending b) (refs s))) as ->.
  { f_equal. apply filter_ext_in. intros b _.
    rewrite (settled_ref_status s a o job) by done.
    destruct (decide (b = a)) as [->|]; [|done].
    unfold ref_has_status. rewrite Hjob. unfold has_status.
    rewrite Hst. by destruct o. }
  rewrite (filter_drop_one (λ b, ref_has_status s processing b)
             (λ b, ref_has_status (settled a o s) processing b) (refs s) a).
  - lia.
  - apply Hwf.
  - done.
  - unfold ref_has_status. rewrite Hjob. unfold has_status. by rewrite Hst.
  - rewrite (settled_ref_status s a o job), decide_True by done.
    unfold has_status. destruct o; cbn; by intros [].
  - intros b Hne. by rewrite (settled_ref_status s a o job), decide_False.
Qed.

Lemma Settle_waiting s a o :
  Inv s → a ∈ inflight s → waiting (step s (Settle a o)) = waiting s - 1.
Proof.
  intros Hinv Ha. cbn [step]. rewrite bool_decide_true by done.
  rewrite runJob_resume_settled, startNextJobs_waiting. by apply settled_waiting.
Qed.

Lemma waiting_nonneg s : 0 <= waiting s.
Proof. unfold waiting, count_status. lia. Qed.

(** With no suspended worker nothing is left to do. *)
Lemma idle_done s :
  Inv s → Saturated s → inflight s = [] → waiting s = 0.
Proof.
  intros [Hwf Hwk Hdom] Hsat Hnil. unfold waiting.
  rewrite (processing_count s Hwf Hwk), (wk_active s Hwk), Hnil. cbn [length].
  destruct Hsat as [Hnone|Hfull].
  - rewrite count_status_refs. fold (pendingRefs s). by rewrite Hnone.
  - rewrite (wk_active s Hwk), Hnil in Hfull. done.
Qed.

Lemma settle_first_Inv s o :
  Inv s → Saturated s →
  Inv (settle_first s o) ∧ Saturated (settle_first s o) ∧
  jobs (settle_first s o) = jobs s ∧
  waiting (settle_first s o) = Z.max 0 (waiting s - 1).
Proof.
  intros Hinv Hsat. unfold settle_first.
  destruct (inflight s) as [|a l] eqn:Hinf.
  - rewrite (idle_done s) by done. by split_and!.
  - assert (a ∈ inflight s) as Ha by (rewrite Hinf; by left).
    split_and!; [by apply step_Inv|by apply step_Saturated| |].
    + cbn [step]. rewrite bool_decide_true by done.
      rewrite runJob_resume_settled.
      destruct (startNextJobs_loop_frame (length (jobs (settled a o s))) (settled a o s))
        as (Hj & _).
      destruct (settled_frame a o s) as (Hj' & _).
      unfold startNextJobs. by rewrite Hj, Hj'.
    + rewrite Settle_waiting by done. pose proof (waiting_nonneg (step s (Settle a o))).
      rewrite Settle_waiting in * by done. lia.
Qed.

Lemma settle_all_waiting outcomes : ∀ s,
  Inv s → Saturated s →
  Inv (settle_all outcomes s) ∧ Saturated (settle_all outcomes s) ∧
  jobs (settle_all outcomes s) = jobs s ∧
  waiting (settle_all outcomes s) = Z.max 0 (waiting s - Z.of_nat (length outcomes)).
Proof.
  induction outcomes as [|o outcomes IH]; intros s Hinv Hsat.
  - pose proof (waiting_nonneg s). cbn [settle_all fold_left length].
    split_and!; try done. lia.
  - destruct (settle_first_Inv s o Hinv Hsat) as (Hinv1 & Hsat1 & Hj1 & Hw1).
    destruct (IH (settle_first s o) Hinv1 Hsat1) as (Hinv2 & Hsat2 & Hj2 & Hw2).
    change (settle_all (o :: outcomes) s) with (settle_all outcomes (settle_first s o)).
    split_and!; [done|done|congruence|].
    rewrite Hw2, Hw1. cbn [length]. lia.
Qed.

(* ===================================================================== *)
(** ** One batch or two *)
(* ===================================================================== *)

Lemma same_queue_refl s : same_queue s s.
Proof. by split. Qed.

Lemma same_queue_sym s t : same_queue s t → same_queue t s.
Proof. intros []. by split. Qed.

Lemma same_queue_trans s t u : same_queue s t → same_queue t u → same_queue s u.
Proof. intros [] []. split; congruence. Qed.

Lemma same_queue_pending s t : same_queue s t → pendingRefs s = pendingRefs t.
Proof. intros []. by apply pendingRefs_ext. Qed.

Lemma same_queue_find s t : same_queue s t → find_pending s = find_pending t.
Proof. intros H. by rewrite !find_pending_head, (same_queue_pending s t). Qed.

Lemma runJob_same a s t : same_queue s t → same_queue (runJob a s) (runJob a t).
Proof.
  intros [].
  destruct (runJob_frame a s) as (? & _ & ? & ? & ? & ? & _ & _ & ? & ? & _).
  destruct (runJob_frame a t) as (? & _ & ? & ? & ? & ? & _ & _ & ? & ? & _).
  split; rewrite ?runJob_heap; congruence.
Qed.

Lemma startNextJobs_loop_same fuel : ∀ s t,
  same_queue s t →
  same_queue (startNextJobs_loop fuel s) (startNextJobs_loop fuel t).
Proof.
  induction fuel as [|fuel IH]; intros s t Hst; [done|].
  cbn [startNextJobs_loop].
  rewrite (sq_active s t Hst), (same_queue_find s t Hst).
  destruct (activeWorkers t <? MAX_PARALLEL_JOBS); [|done].
  destruct (find_pending t) as [a|]; [|done]. by apply IH, runJob_same.
Qed.

Lemma startNextJobs_same s t :
  same_queue s t → same_queue (startNextJobs s) (startNextJobs t).
Proof.
  intros Hst. unfold startNextJobs. rewrite (sq_jobs s t Hst).
  by apply startNextJobs_loop_same.
Qed.

Lemma enqueue_proj file s :
  heap (enqueue file s) = heap s ++ [new_job file s] ∧
  jobs (enqueue file s) =
    JsMap.set (pretty (nextUuid s)) (length (heap s)) (jobs s) ∧
  inflight (enqueue file s) = inflight s ∧
  activeWorkers (enqueue file s) = activeWorkers s ∧
  nextUuid (enqueue file s) = S (nextUuid s) ∧
  nextUrl (enqueue file s) = S (nextUrl s) ∧
  revoked (enqueue file s) = revoked s ∧
  downloads (enqueue file s) = downloads s.
Proof. done. Qed.

Lemma enqueue_same file s t :
  same_queue s t → same_queue (enqueue file s) (enqueue file t).
Proof.
  intros [H1 H2 H3 H4 H5 H6 H7 H8].
  destruct (enqueue_proj file s) as (E1 & E2 & E3 & E4 & E5 & E6 & E7 & E8).
  destruct (enqueue_proj file t) as (F1 & F2 & F3 & F4 & F5 & F6 & F7 & F8).
  split; rewrite ?E1, ?E2, ?E3, ?E4, ?E5, ?E6, ?E7, ?E8,
    ?F1, ?F2, ?F3, ?F4, ?F5, ?F6, ?F7, ?F8; unfold new_job; congruence.
Qed.

Lemma enqueue_all_cons file l s :
  enqueue_all (file :: l) s =
  enqueue_all l (if acceptable file then enqueue file s else s).
Proof. done. Qed.

Lemma enqueue_all_same fileList : ∀ s t,
  same_queue s t → same_queue (enqueue_all fileList s) (enqueue_all fileList t).
Proof.
  induction fileList as [|file l IH]; intros s t Hst; [done|].
  rewrite !enqueue_all_cons. apply IH.
  destruct (acceptable file); [by apply enqueue_same|done].
Qed.

Lemma enqueue_all_app l1 l2 s :
  enqueue_all (l1 ++ l2) s = enqueue_all l2 (enqueue_all l1 s).
Proof. unfold enqueue_all. by rewrite fold_left_app. Qed.

Lemma enqueue_all_none fileList s :
  filter (λ f, acceptable f) fileList = [] → enqueue_all fileList s = s.
Proof.
  induction fileList as [|file l IH]; [done|]. rewrite filter_cons_bool.
  rewrite !enqueue_all_cons. destruct (acceptable file); [done|]. apply IH.
Qed.

Lemma fold_enqueue_all fileList : ∀ s added rejected,
  (fold_left addFile fileList (s, added, rejected)).1.1 = enqueue_all fileList s.
Proof.
  induction fileList as [|file l IH]; intros s added rejected; [done|].
  rewrite !enqueue_all_cons; cbn [fold_left]. destruct (acceptable file) eqn:Hacc.
  - rewrite addFile_accept by done. apply IH.
  - rewrite addFile_reject by done. apply IH.
Qed.

Lemma enqueue_all_wf fileList : ∀ s,
  StoreWf s → Workers s →
  StoreWf (enqueue_all fileList s) ∧ Workers (enqueue_all fileList s) ∧
  activeWorkers (enqueue_all fileList s) = activeWorkers s ∧
  (∀ a, a ∈ refs s → a ∈ refs (enqueue_all fileList s)).
Proof.
  induction fileList as [|file l IH]; intros s Hwf Hwk; [done|].
  rewrite !enqueue_all_cons. destruct (acceptable file) eqn:Hacc; [|by apply IH].
  destruct (IH (enqueue file s)) as (? & ? & Ha & Hr);
    [by apply enqueue_StoreWf|by apply enqueue_Workers|].
  split_and!; [done|done|by rewrite Ha|].
  intros a Hin. apply Hr, enqueue_refs; [done|by left].
Qed.

(** Starting a job and admitting a file do not interfere. *)
Lemma enqueue_runJob file a s :
  (a < length (heap s))%nat →
  same_queue (enqueue file (runJob a s)) (runJob a (enqueue file s)).
Proof.
  intros Ha.
  destruct (runJob_frame a s) as (Hj & _ & Hu & Hn & Hr & Hd & _ & _ & Hi & Hw & _).
  destruct (runJob_frame a (enqueue file s))
    as (Hj' & _ & Hu' & Hn' & Hr' & Hd' & _ & _ & Hi' & Hw' & _).
  destruct (enqueue_proj file (runJob a s)) as (E1 & E2 & E3 & E4 & E5 & E6 & E7 & E8).
  destruct (enqueue_proj file s) as (F1 & F2 & F3 & F4 & F5 & F6 & F7 & F8).
  split; rewrite ?E1, ?E2, ?E3, ?E4, ?E5, ?E6, ?E7, ?E8,
    ?Hj', ?Hu', ?Hn', ?Hr', ?Hd', ?Hi', ?Hw', ?runJob_heap,
    ?F1, ?F2, ?F3, ?F4, ?F5, ?F6, ?F7, ?F8,
    ?Hj, ?Hu, ?Hn, ?Hr, ?Hd, ?Hi, ?Hw, ?length_alter; try done.
  unfold new_job. rewrite Hu, Hn. by rewrite alter_app_l.
Qed.

Lemma enqueue_all_runJob fileList a : ∀ s,
  StoreWf s → Workers s → a ∈ refs s →
  same_queue (enqueue_all fileList (runJob a s)) (runJob a (enqueue_all fileList s)).
Proof.
  induction fileList as [|file l IH]; intros s Hwf Hwk Ha; [apply same_queue_refl|].
  rewrite !enqueue_all_cons. destruct (acceptable file) eqn:Hacc; [|by apply IH].
  eapply same_queue_trans.
  - apply enqueue_all_same, enqueue_runJob. by apply (refs_lt s).
  - apply IH; [by apply enqueue_StoreWf|by apply enqueue_Workers|].
    apply enqueue_refs; [done|by left].
Qed.

Lemma pendingRefs_enqueue file s :
  StoreWf s → pendingRefs (enqueue file s) = pendingRefs s ++ [length (heap s)].
Proof.
  intros Hwf. destruct (enqueue_frame file s Hwf) as (Hh & Hj & _).
  unfold pendingRefs, refs, JsMap.values. rewrite Hj, fmap_app, filter_app.
  cbn [fmap list_fmap snd]. f_equal.
  - apply filter_ext_in. intros b Hb. unfold ref_has_status.
    rewrite Hh, lookup_app_l; [done|]. by apply (refs_lt s).
  - rewrite filter_cons_True, filter_nil; [done|].
    unfold ref_has_status. by rewrite Hh, lookup_app_r, Nat.sub_diag by lia.
Qed.

Lemma find_pending_enqueue_all fileList a : ∀ s,
  StoreWf s → Workers s → find_pending s = Some a →
  find_pending (enqueue_all fileList s) = Some a.
Proof.
  induction fileList as [|file l IH]; intros s Hwf Hwk Hfind; [done|].
  rewrite !enqueue_all_cons. destruct (acceptable file) eqn:Hacc; [|by apply IH].
  apply IH; [by apply enqueue_StoreWf|by apply enqueue_Workers|].
  rewrite find_pending_head in *. rewrite pendingRefs_enqueue by done.
  by destruct (pendingRefs s).
Qed.

(** Scheduling before the admission of a batch is absorbed by scheduling
    after it. *)
Lemma startNextJobs_absorb fileList n : ∀ x m m',
  Inv x → (length (pendingRefs x) <= n)%nat →
  (length (pendingRefs (enqueue_all fileList (startNextJobs_loop n x))) <= m)%nat →
  (length (pendingRefs (enqueue_all fileList x)) <= m')%nat →
  same_queue (startNextJobs_loop m (enqueue_all fileList (startNextJobs_loop n x)))
             (startNextJobs_loop m' (enqueue_all fileList x)).
Proof.
  assert (∀ z m m', (length (pendingRefs z) <= m)%nat →
            (length (pendingRefs z) <= m')%nat →
            same_queue (startNextJobs_loop m z) (startNextJobs_loop m' z)) as Hfuel.
  { intros z m m' Hm Hm'.
    rewrite (startNextJobs_loop_fuel (length (pendingRefs z)) m),
      (startNextJobs_loop_fuel (length (pendingRefs z)) m') by done.
    apply same_queue_refl. }
  induction n as [|n IH]; intros x m m' Hinv Hn Hm Hm'; [by apply Hfuel|].
  cbn [startNextJobs_loop] in Hm |- *.
  destruct (activeWorkers x <? MAX_PARALLEL_JOBS) eqn:Hlt; [|by apply Hfuel].
  destruct (find_pending x) as [a|] eqn:Hfind; [|by apply Hfuel].
  destruct (find_pending_Some x a Hfind) as (Ha & job & Hjob & Hst).
  apply Z.ltb_lt in Hlt.
  pose proof (runJob_Inv x a job Hinv Ha Hjob Hst Hlt) as Hinv'.
  pose proof (runJob_pending_lt x a Hfind) as Hless.
  destruct (enqueue_all_wf fileList x) as (Hwf1 & Hwk1 & Haw1 & _); [apply Hinv..|].
  pose proof (find_pending_enqueue_all fileList a x (inv_store x Hinv)
                (inv_workers x Hinv) Hfind) as Hfind1.
  pose proof (runJob_pending_lt _ a Hfind1) as Hless1.
  pose proof (enqueue_all_runJob fileList a x (inv_store x Hinv)
                (inv_workers x Hinv) Ha) as Hcomm.
  destruct m' as [|m']; [lia|].
  cbn [startNextJobs_loop]. rewrite Haw1, Hfind1.
  rewrite (proj2 (Z.ltb_lt _ _) Hlt).
  eapply same_queue_trans.
  - apply (IH (runJob a x) m m'); [done|lia|done|].
    rewrite (same_queue_pending _ _ Hcomm). lia.
  - by apply startNextJobs_loop_same.
Qed.

Lemma startNextJobs_absorbs fileList x :
  Inv x →
  same_queue (startNextJobs (enqueue_all fileList (startNextJobs x)))
             (startNextJobs (enqueue_all fileList x)).
Proof.
  intros Hinv. unfold startNextJobs.
  apply startNextJobs_absorb; [done|apply pendingRefs_length..].
Qed.

Lemma added_state_same added s : same_queue (added_state added s) s.
Proof. by split. Qed.

(** [addFiles], as far as the queue goes. *)
Lemma addFiles_queue fileList s :
  StoreWf s → Workers s →
  same_queue (addFiles fileList s)
    (if bool_decide (filter (λ f, acceptable f) fileList = []) then s
     else startNextJobs (enqueue_all fileList s)).
Proof.
  intros Hwf Hwk.
  destruct (addFiles_cases fileList s)
    as (s1 & s2 & Hs1 & _ & _ & _ & Hnil & Hs2 & ->); [done..|].
  rewrite fold_enqueue_all in Hs1. subst s1.
  assert (same_queue s2
            (if bool_decide (filter (λ f, acceptable f) fileList = []) then s
             else startNextJobs (enqueue_all fileList s))) as Hq.
  { rewrite Hs2. destruct (Z.ltb_spec 0 (Z.of_nat (length (filter (λ f, acceptable f) fileList))))
      as [Hpos|Hzero].
    - rewrite bool_decide_false by (intros Hl; rewrite Hl in Hpos; simpl in Hpos; lia).
      apply startNextJobs_same, added_state_same.
    - rewrite bool_decide_true; [apply same_queue_refl|].
      apply length_zero_iff_nil. lia. }
  clear Hs2. destruct (0 <? _); [|done].
  eapply same_queue_trans; [|done]. by split.
Qed.

Lemma addFiles_split l1 l2 s :
  Inv s →
  same_queue (addFiles (l1 ++ l2) s) (addFiles l2 (addFiles l1 s)).
Proof.
  intros Hinv. pose proof (addFiles_Inv l1 s Hinv) as Hinv1.
  eapply same_queue_trans; [apply addFiles_queue; apply Hinv|].
  apply same_queue_sym.
  eapply same_queue_trans; [apply addFiles_queue; apply Hinv1|].
  pose proof (addFiles_queue l1 s (inv_store s Hinv) (inv_workers s Hinv)) as Hq1.
  rewrite filter_app, enqueue_all_app.
  destruct (filter (λ f, acceptable f) l1) as [|f1 acc1] eqn:Hacc1.
  - rewrite bool_decide_true in Hq1 by done.
    rewrite (enqueue_all_none l1 s Hacc1), app_nil_l.
    case_bool_decide; [done|]. by apply startNextJobs_same, enqueue_all_same.
  - rewrite bool_decide_false in Hq1 by done.
    rewrite <- app_comm_cons, (bool_decide_false (_ :: _ ++ _ = [])) by done.
    case_bool_decide as Hacc2.
    + by rewrite (enqueue_all_none l2 _ Hacc2).
    + destruct (addFiles_cases l1 s)
        as (s1 & s2 & Hs1 & Hwf1 & Hwk1 & Hext & _ & Hs2 & Heq); [apply Hinv..|].
      rewrite fold_enqueue_all in Hs1. subst s1.
      rewrite Hacc1 in Hs2. cbn [length] in Hs2.
      rewrite (proj2 (Z.ltb_lt 0 _)) in Hs2 by lia.
      set (A1 := added_state (Z.of_nat (S (length acc1))) (enqueue_all l1 s)) in *.
      assert (Inv A1) as HinvA by (by apply (added_state_Inv s)).
      assert (same_queue (addFiles l1 s) (startNextJobs A1)) as Ht.
      { rewrite Heq, <- Hs2. destruct (0 <? _); [by split|apply same_queue_refl]. }
      eapply same_queue_trans; [apply startNextJobs_same, enqueue_all_same, Ht|].
      eapply same_queue_trans.
      * by apply startNextJobs_absorbs.
      * apply startNextJobs_same, enqueue_all_same, added_state_same.
Qed.

(* ===================================================================== *)
(** ** A retried job runs again *)
(* ===================================================================== *)





(** *** The workers settle *)



Lemma settle_all_snoc outcomes o s :
  settle_all (outcomes ++ [o]) s = settle_first (settle_all outcomes s) o.
Proof. unfold settle_all. by rewrite fold_left_app. Qed.





(* ===================================================================== *)
(** ** Sample runs *)
(* ===================================================================== *)

Example three_files :
  statuses (run [AddFiles [png "a.png" 10; png "b.png" 20; png "c.png" 30]] init)
  = [processing; processing; pending].
Proof. vm_compute. reflexivity. Qed.

Example three_files_settle :
  statuses (run [AddFiles [png "a.png" 10; png "b.png" 20; png "c.png" 30];
                 Settle 1%nat (Rejected OtherValue)] init)
  = [processing; error; processing].
Proof. vm_compute. reflexivity. Qed.

Example strip_examples :
  map downloadName ["a.png"; "a.b.png"; ".png"; "a."; "noext"; ""; "a..png"]
  = ["a-bg-removed.png"; "a.b-bg-removed.png"; "eltavolitott-hatter-bg-removed.png";
     "a.-bg-removed.png"; "noext-bg-removed.png";
     "eltavolitott-hatter-bg-removed.png"; "a.-bg-removed.png"].
Proof. vm_compute. reflexivity. Qed.


Example retry_run :
  let s := run [AddFiles [png "a.png" 10];
                Settle 0%nat (Rejected (ErrorObject "boom"));
                Click "0" retry] init in
  statuses s = [processing] ∧
  ((fun snap : list JobCard => card_status <$> snap) <$> jobList s)
  = [[processing]; [pending]; [error]; [processing]; [pending]; []].
Proof. split; vm_compute; reflexivity. Qed.

Example remove_run :
  let s := run [AddFiles [png "a.png" 10; png "b.png" 20; png "c.png" 30];
                Click "0" remove; Click "2" remove] init in
  JsMap.keys (jobs s) = ["0"; "1"] ∧ statuses s = [processing; processing] ∧
  revoked s = ["blob:2"] ∧ liveRegion s = [AnnRemoved "c.png"; AnnAdded 3].
Proof. repeat split; vm_compute; reflexivity. Qed.

Example export_run :
  let s := run [AddFiles [png "a.png" 10; png "photo.final.png" 20];
                Settle 0%nat (Resolved "A"); Settle 1%nat (Resolved "B");
                DownloadAll (fun _ => None);
                ZipSettle 0 true "2026-01-01T10:20:30.456Z"] init in
  archives s = [[("a-bg-removed.png", ZipFile "A");
                 ("photo.final-bg-removed.png", ZipFile "B")]] ∧
  downloads s = [("bg-removed-2026-01-01T10-20-30-456Z.zip", "blob:4")] ∧
  liveRegion s = [AnnZipStarted; AnnFinished "photo.final.png";
                  AnnFinished "a.png"; AnnAdded 2].
Proof. repeat split; vm_compute; reflexivity. Qed.

(** Names with folders: [zip.file] first adds an entry for every parent
    folder that the archive does not hold yet. *)
Example folders_run :
  JSZip_entries [("a/b/c.png", "C"); ("a/d.png", "D"); ("/e.png", "E")]
    = [("a/", ZipFolder); ("a/b/", ZipFolder); ("a/b/c.png", ZipFile "C");
       ("a/d.png", ZipFile "D"); ("/e.png", ZipFile "E")].
Proof. vm_compute; reflexivity. Qed.

(* ===================================================================== *)
(** ** The claims of the specification *)
(* ===================================================================== *)

(** C1.  After every sequence of events (files added, buttons clicked,
    removal promises settled, exports started and settled), the number of
    jobs of the store whose status is [processing] is the value of
    [activeWorkers] and is at most [MAX_PARALLEL_JOBS]; and it was at most
    [MAX_PARALLEL_JOBS] at every earlier point where the program rendered
    the job list, which it does after each write of a status. *)
Theorem C1_processing_bound events :
  let s := run events init in
  count_status processing s = activeWorkers s ∧
  count_status processing s <= MAX_PARALLEL_JOBS ∧
  Forall (λ snap, count_cards processing snap <= MAX_PARALLEL_JOBS) (jobList s).
Proof.
  intros s. reach_inv events s Hinv.
  destruct Hinv as [Hwf Hwk Hdom]. split_and!.
  - by apply processing_count.
  - by apply processing_bound.
  - apply Hdom.
Qed.

(** C2.  After every sequence of events no job reference is held by two
    suspended workers; a job held by a worker is [processing], so the
    scheduler, which picks pending jobs only, cannot pick it; and when its
    worker settles the job is held by no worker. *)
Theorem C2_one_worker_per_job events :
  let s := run events init in
  NoDup (inflight s) ∧
  (∀ a, a ∈ inflight s →
     ref_has_status s processing a = true ∧
     (a ∉ pendingRefs s) ∧ find_pending s ≠ Some a) ∧
  (∀ a o, a ∈ inflight s → a ∉ inflight (step s (Settle a o))).
Proof.
  intros s. pose proof (reachable_Inv events) as Hinv. fold s in Hinv.
  assert (∀ e, Inv (step s e)) as Hstep.
  { intros e. unfold s. rewrite <- run_snoc. apply reachable_Inv. }
  clearbody s. destruct Hinv as [Hwf Hwk Hdom]. split_and!.
  - apply Hwk.
  - intros a Ha.
    destruct (inflight_job _ a Hwf Hwk Ha) as (Hr & job & Hjob & Hst & _).
    assert (a ∉ pendingRefs s) as Hnp.
    { intros (_ & j & Hj & Hp)%elem_pendingRefs. congruence. }
    split_and!; [apply ref_has_status_true; eauto | done |].
    intros Hf. apply Hnp. rewrite find_pending_head in Hf.
    destruct (pendingRefs s); simplify_eq/=. left.
  - intros a o Ha.
    destruct (inflight_job _ a Hwf Hwk Ha) as (Hr & job & Hjob & Hst & Hok).
    destruct (processing_fields job Hok Hst) as (_ & Hurl & _).
    intros (_ & j & Hj & Hp)%(wk_inflight _ (inv_workers _ (Hstep (Settle a o)))).
    cbn [step] in Hj. rewrite bool_decide_true in Hj by done.
    rewrite runJob_resume_settled in Hj. unfold startNextJobs in Hj.
    edestruct (startNextJobs_loop_heap (length (jobs (settled a o s))) (settled a o s) a)
      as (job' & Hjob' & Hcase).
    { rewrite (settled_heap a o s job Hjob Hurl), list_lookup_alter_eq, Hjob. done. }
    assert (j = job') as -> by congruence.
    destruct Hcase as [->|[Hpend _]]; by destruct o.
Qed.

(** C3.  A file over the size limit or whose type does not start with
    "image/" is the source of no job of the store after [addFiles], whatever
    happened before and whatever the batch holds. *)
Theorem C3_invalid_never_stored events fileList file :
  MAX_FILE_SIZE_BYTES < File.size file ∨
    String.prefix "image/" (File.type file) = false →
  let s := addFiles fileList (run events init) in
  ∀ job, job ∈ values s → Job.file job ≠ file.
Proof.
  intros Hbad s.
  pose proof (reachable_Inv (events ++ [AddFiles fileList])) as Hinv.
  rewrite run_snoc in Hinv. cbn [step] in Hinv. fold s in Hinv. clearbody s.
  intros job (a & [id Ha]%elem_refs & Hjob)%elem_values Heq.
  destruct (wf_heap s (inv_store _ Hinv) id a Ha) as (j & Hj & _ & Hok).
  assert (j = job) as -> by congruence.
  pose proof (fields_file _ Hok) as Hacc. rewrite Heq in Hacc.
  unfold acceptable in Hacc.
  apply andb_true_iff in Hacc as [Himg Hsize%negb_true_iff].
  destruct Hbad as [Hbig|Hty]; [|congruence].
  apply Z.ltb_ge in Hsize. lia.
Qed.

Lemma C3_witness :
  (MAX_FILE_SIZE_BYTES < File.size (File.mk "notes.txt" 10 "text/plain") ∨
   String.prefix "image/" (File.type (File.mk "notes.txt" 10 "text/plain")) = false) ∧
  ∀ job,
    job ∈ values (addFiles [File.mk "notes.txt" 10 "text/plain"; png "a.png" 10]
                    (run [] init)) →
    Job.file job ≠ File.mk "notes.txt" 10 "text/plain".
Proof.
  split; [right; reflexivity|].
  apply (C3_invalid_never_stored [] _ (File.mk "notes.txt" 10 "text/plain")).
  right. reflexivity.
Defined.

(** C4 (as stated) fails.  Removing an id that is not in the store does not
    fail with [NotFoundError]: the handler returns.  Removing a processing
    job does not signal [InvalidStateError]: the handler returns without a
    word. *)
Lemma C4_counterexample :
  JsMap.get "0" (jobs init) = None ∧
  (jobListClick "0" remove init).2 ≠ Throw "NotFoundError" ∧
  let s := run [AddFiles [png "a.png" 10]] init in
  JsMap.get "0" (jobs s) = Some 0%nat ∧
  ref_has_status s processing 0 = true ∧
  ¬ signals s (jobListClick "0" remove s).1 (jobListClick "0" remove s).2.
Proof.
  split; [reflexivity|]. split; [discriminate|].
  intros s. split; [vm_compute; reflexivity|]. split; [vm_compute; reflexivity|].
  unfold signals. intros [H|[H|H]]; apply H; vm_compute; reflexivity.
Qed.

(** C4 (amended).  [remove] never throws.  When no job has the id, or when
    the job is processing, nothing changes.  Otherwise the job leaves the
    store (the other entries stay), its preview URL and its result URL are
    revoked and its result bytes are dropped. *)
Theorem C4_remove events id :
  let s := run events init in
  let s' := (jobListClick id remove s).1 in
  (jobListClick id remove s).2 = Normal ∧
  match JsMap.get id (jobs s) with
  | None => s' = s
  | Some a =>
      ∃ job, heap s !! a = Some job ∧
        if has_status processing job then s' = s
        else
          JsMap.get id (jobs s') = None ∧
          (∀ id', id' ≠ id → JsMap.get id' (jobs s') = JsMap.get id' (jobs s)) ∧
          (∀ b, b ≠ a → heap s' !! b = heap s !! b) ∧
          Job.previewUrl job ∈ revoked s' ∧
          (∀ url, Job.resultUrl job = Some url → url ∈ revoked s') ∧
          Job.resultBlob <$> heap s' !! a = Some None
  end.
Proof.
  intros s. reach_inv events s Hinv.
  unfold jobListClick.
  destruct (JsMap.get id (jobs s)) as [a|] eqn:Hget; [|done].
  pose proof (JsMapFacts.get_Some_elem _ _ _ Hget) as Ha.
  destruct (wf_heap s (inv_store _ Hinv) id a Ha) as (job & Hjob & _ & Hok).
  rewrite Hjob. destruct (has_status processing job) eqn:Hst.
  { split; [done|]. exists job. by rewrite Hst. }
  cbn [fst snd]. split; [done|]. exists job. rewrite Hst. split; [done|].
  fold (removed id a job s).
  destruct (removed_frame id a job s Hjob) as (Hheap & Hjobs & _).
  destruct (removed_revoked id a job s Hjob) as [Hprev Hres].
  rewrite Hjobs, Hheap. split_and!.
  - apply JsMapFacts.get_delete_eq, Hinv.
  - intros id' Hne. by apply JsMapFacts.get_delete_ne.
  - intros b Hne. by rewrite list_lookup_alter_ne.
  - done.
  - intros url Hurl. apply Hres; [done|]. by apply (fields_blob_url _ Hok).
  - by rewrite list_lookup_alter_eq, Hjob.
Qed.


(** C6.  From a state whose store holds each job object once and whose
    worker count is within the limit, [startNextJobs] starts the first
    pending jobs in the order of the store, as many as there are free
    slots: they join the suspended workers in that order, the counter grows
    by one for each, their objects become processing and no other object
    changes.  When it returns the counter is at the limit or no pending job
    is left, and calling it again changes nothing; the loop ends by its own
    test (more iterations allowed change nothing).  Three acceptable files
    added to the empty queue give two processing jobs and one pending job,
    and when either running job settles, with a result or with a failure,
    the third is processing. *)
Theorem C6_admission s :
  NoDup (refs s) → activeWorkers s <= MAX_PARALLEL_JOBS →
  let started :=
    take (Z.to_nat (MAX_PARALLEL_JOBS - activeWorkers s)) (pendingRefs s) in
  let s' := startNextJobs s in
  inflight s' = inflight s ++ started ∧
  activeWorkers s' = activeWorkers s + Z.of_nat (length started) ∧
  jobs s' = jobs s ∧
  (∀ a, heap s' !! a =
        if bool_decide (a ∈ started)
        then start_fields <$> heap s !! a else heap s !! a) ∧
  (activeWorkers s' = MAX_PARALLEL_JOBS ∨ pendingRefs s' = []) ∧
  startNextJobs s' = s' ∧
  (∀ fuel, (length (jobs s) <= fuel)%nat → startNextJobs_loop fuel s = s') ∧
  ∀ f1 f2 f3,
    acceptable f1 = true → acceptable f2 = true → acceptable f3 = true →
    let s3 := addFiles [f1; f2; f3] init in
    statuses s3 = [processing; processing; pending] ∧
    inflight s3 = [0; 1]%nat ∧
    ∀ a o, a ∈ inflight s3 →
      statuses (step s3 (Settle a o)) !! 2%nat = Some processing ∧
      count_status processing (step s3 (Settle a o)) = 2.
Proof.
  intros Hnd Hle started s'.
  destruct (startNextJobs_loop_spec (length (jobs s)) s Hnd (pendingRefs_length s))
    as (Hinf & Haw & Hheap & Hpend).
  fold started in Hinf, Haw, Hheap. fold (startNextJobs s) in Hinf, Haw, Hheap, Hpend.
  fold s' in Hinf, Haw, Hheap, Hpend.
  split_and!; try done.
  - apply startNextJobs_loop_frame.
  - rewrite Haw, Hpend. unfold started. rewrite length_take.
    destruct (decide (length (pendingRefs s)
                      <= Z.to_nat (MAX_PARALLEL_JOBS - activeWorkers s))%nat).
    + right. by apply drop_ge.
    + left. lia.
  - apply startNextJobs_idempotent.
  - intros fuel Hfuel. by apply startNextJobs_loop_fuel; [apply pendingRefs_length|].
  - intros f1 f2 f3 H1 H2 H3 s3. unfold s3. rewrite addFiles_three by done.
    split; [vm_compute; reflexivity|]. split; [vm_compute; reflexivity|].
    intros a o Ha.
    assert (a = 0 ∨ a = 1)%nat as [-> | ->].
    { revert Ha. vm_compute. intros Ha. apply list_elem_of_In in Ha.
      destruct Ha as [?|[?|[]]]; auto. }
    + destruct o as [blob|[m|]]; vm_compute; split; reflexivity.
    + destruct o as [blob|[m|]]; vm_compute; split; reflexivity.
Qed.

Lemma C6_witness :
  NoDup (refs three_pending) ∧ activeWorkers three_pending <= MAX_PARALLEL_JOBS ∧
  inflight (startNextJobs three_pending) = [0; 1]%nat ∧
  activeWorkers (startNextJobs three_pending) = 2.
Proof.
  assert (NoDup (refs three_pending)) as Hnd.
  { apply (bool_decide_unpack _). vm_compute. exact I. }
  assert (activeWorkers three_pending <= MAX_PARALLEL_JOBS) as Hle.
  { vm_compute. discriminate. }
  split; [exact Hnd|]. split; [exact Hle|].
  destruct (C6_admission three_pending Hnd Hle) as (Hinf & Haw & _).
  split; [exact Hinf | exact Haw].
Defined.

(** C7 (as stated) fails.  A text file and an image of 13 MB are both
    rejected, but the count announced is 1: the file that is no image is
    left out without being counted. *)
Lemma C7_counterexample :
  let fileList := [File.mk "notes.txt" 10 "text/plain";
                   png "big.png" (13 * 1024 * 1024)] in
  length (filter (λ f, negb (acceptable f)) fileList) = 2%nat ∧
  liveRegion (addFiles fileList init) = [AnnRejected 1].
Proof. split; vm_compute; reflexivity. Qed.

(** C7 (amended).  [addFiles] announces, after the count of the files it
    added, the count of the image files over the size limit, when there is
    one; files that are no images are skipped without being counted.  The
    files it skips do not hold back the others: every acceptable file of the
    batch is the source of a new job at the end of the store, in the order
    of the batch, created pending and pending or processing when
    [addFiles] returns. *)
Theorem C7_admission_report events fileList :
  let s := run events init in
  let s' := addFiles fileList s in
  let added := Z.of_nat (length (filter (λ f, acceptable f) fileList)) in
  let rejected := Z.of_nat (length (filter (λ f, oversized f) fileList)) in
  liveRegion s' =
    (if 0 <? rejected then [AnnRejected rejected] else []) ++
    (if 0 <? added then [AnnAdded added] else []) ++ liveRegion s ∧
  Job.file <$> values s' =
    (Job.file <$> values s) ++ filter (λ f, acceptable f) fileList ∧
  ∀ job, job ∈ drop (length (values s)) (values s') →
    Job.status job = pending ∨ Job.status job = processing.
Proof.
  intros s. reach_inv events s Hinv.
  intros s' added rejected. split; [by apply addFiles_liveRegion|].
  destruct (addFiles_values fileList s Hinv) as (news & Hvals & Hfiles & Hpend).
  fold s' in Hvals.
  apply Forall2_app_inv_l in Hvals as (olds' & news' & Hold & Hnew & Heq).
  rewrite Heq. split.
  - rewrite fmap_app, <- Hfiles. by f_equal; apply started_or_same_files.
  - rewrite (Forall2_length _ _ _ Hold), drop_app_length.
    intros job Hjob.
    apply list_elem_of_lookup in Hjob as [i Hi].
    destruct (Forall2_lookup_r _ _ _ _ _ Hnew Hi) as (job0 & Hi0 & Hcase).
    assert (Job.status job0 = pending) as Hst.
    { by eapply (proj1 (Forall_lookup _ _) Hpend). }
    destruct Hcase as [->|[_ ->]]; [by left | by right].
Qed.

(** C8 (as stated) fails.  On the empty queue the export button and the
    export itself return without throwing, announcing or logging anything:
    no "nothing to export" condition is signalled. *)
Lemma C8_counterexample :
  count_status ready init = 0 ∧
  downloadAllReadyJobs (λ _, None) init = init ∧
  let r := downloadAllClick (λ _, None) init in
  ¬ signals init r.1 r.2.
Proof.
  split; [reflexivity|]. split; [reflexivity|].
  intros r [H|[H|H]]; by apply H.
Qed.

(** C8 (amended).  When no job of the store is ready, or none can be
    included, the export button and the export return without throwing and
    leave the whole state as it was: no archive is started or built, no
    link is clicked, nothing is announced or logged (in particular not the
    failure of an export), and the queue is untouched. *)
Theorem C8_nothing_to_export events fetch :
  let s := run events init in
  count_status ready s = 0 ∨ filter (λ a, ref_exportable s a) (refs s) = [] →
  downloadAllClick fetch s = (s, Normal) ∧
  downloadAllReadyJobs fetch s = s.
Proof.
  intros s. reach_inv events s Hinv. intros Hzero.
  assert (readyJobCount s = 0) as Hcount.
  { rewrite (dom_ready s (inv_dom s Hinv)).
    destruct Hzero as [?|Hnil]; [done|].
    pose proof (store_export_calls s (inv_store s Hinv)) as Hcalls.
    rewrite Hnil in Hcalls. apply Forall2_nil_inv_r in Hcalls.
    by apply count_status_zero. }
  unfold downloadAllClick, downloadAllReadyJobs. by rewrite Hcount.
Qed.

Lemma C8_witness :
  (count_status ready (run [AddFiles [png "a.png" 10]] init) = 0 ∨
   filter (λ a, ref_exportable (run [AddFiles [png "a.png" 10]] init) a)
     (refs (run [AddFiles [png "a.png" 10]] init)) = []) ∧
  downloadAllClick (λ _, None) (run [AddFiles [png "a.png" 10]] init)
    = (run [AddFiles [png "a.png" 10]] init, Normal).
Proof.
  assert (count_status ready (run [AddFiles [png "a.png" 10]] init) = 0) as H
    by (vm_compute; reflexivity).
  split; [by left|].
  apply (C8_nothing_to_export [AddFiles [png "a.png" 10]] (λ _, None)).
  by left.
Defined.

(** C9.  The code loses a result where the claim asks for a suffix.  Two
    jobs whose files are [a.png] and [a.jpg] are both ready, with the result
    bytes [A] and [B].  The export derives the name [a-bg-removed.png] for
    each of them and adds no suffix: the second call of [zip.file] replaces
    the entry of the first, so the archive that waits for
    [zip.generateAsync], and the one handed to the browser when that
    fulfils, hold a single entry with the bytes [B], and the result [A] is
    in neither.  The page then announces that the download of all finished
    images has begun. *)
Lemma C9_colliding_names_lose_a_result :
  let s := run [AddFiles [png "a.png" 10; File.mk "a.jpg" 20 "image/jpeg"];
                Settle 0 (Resolved "A"); Settle 1 (Resolved "B")] init in
  let s1 := step s (DownloadAll (λ _, None)) in
  let s2 := step s1 (ZipSettle 0 true "now") in
  statuses s = [ready; ready] ∧
  Job.resultBlob <$> values s = [Some "A"; Some "B"] ∧
  (λ job, downloadName (File.name (Job.file job))) <$> values s
    = ["a-bg-removed.png"; "a-bg-removed.png"] ∧
  zipping s1 = [[("a-bg-removed.png", ZipFile "B")]] ∧
  archives s2 = [[("a-bg-removed.png", ZipFile "B")]] ∧
  head (liveRegion s2) = Some AnnZipStarted.
Proof. split_and!; vm_compute; reflexivity. Qed.

(** C10.  After every sequence of events, every job of the store holds a
    result (bytes and URL) exactly when its status is [ready], and an error
    message exactly when its status is [error]. *)
Theorem C10_result_iff_ready events :
  let s := run events init in
  ∀ job, job ∈ values s →
    (is_Some (Job.resultBlob job) ↔ Job.status job = ready) ∧
    (is_Some (Job.resultUrl job) ↔ Job.status job = ready) ∧
    (is_Some (Job.error job) ↔ Job.status job = error).
Proof.
  intros s. reach_inv events s Hinv.
  intros job (a & [id Ha]%elem_refs & Hjob)%elem_values.
  destruct (wf_heap s (inv_store _ Hinv) id a Ha)
    as (j & Hj & _ & [H1 H2 H3 _ _]).
  by assert (j = job) as -> by congruence.
Qed.

Lemma C10_witness :
  ready_job ∈ values (run [AddFiles [png "a.png" 10]; Settle 0 (Resolved "A")] init) ∧
  (is_Some (Job.resultBlob ready_job) ↔ Job.status ready_job = ready) ∧
  (is_Some (Job.resultUrl ready_job) ↔ Job.status ready_job = ready) ∧
  (is_Some (Job.error ready_job) ↔ Job.status ready_job = error).
Proof.
  assert (ready_job ∈
          values (run [AddFiles [png "a.png" 10]; Settle 0 (Resolved "A")] init))
    as Hin.
  { assert (values (run [AddFiles [png "a.png" 10]; Settle 0 (Resolved "A")] init)
            = [ready_job]) as -> by (vm_compute; reflexivity).
    left. }
  split; [exact Hin|].
  exact (C10_result_iff_ready
           [AddFiles [png "a.png" 10]; Settle 0 (Resolved "A")] ready_job Hin).
Defined.

(* ===================================================================== *)
(** ** Further properties of the program *)
(* ===================================================================== *)

(** *** The texts *)

(** X1.  The text [escapeHtml] returns holds no angle bracket, no
    apostrophe and no double quote, and every ampersand in it is the first
    character of an entity of the table [escapeHtml] replaces with: a file
    name or an error message put through it cannot open a tag, close an
    attribute or start a character reference of its own. *)
Theorem X1_escapeHtml_is_text input :
  Forall (λ c, c ∉ ["<"; ">"; "'"; "034"]%char) (chars (escapeHtml input)) ∧
  ∀ pre post,
    escapeHtml input = pre +:+ String "&" post →
    ∃ e rest, e ∈ entities.*2 ∧ String "&" post = e +:+ rest.
Proof. split; [apply escapeHtml_no_markup | apply escapeHtml_amp]. Qed.

(** X2.  [escapeHtml] loses nothing: two texts with the same escaped form
    are the same text. *)
Theorem X2_escapeHtml_injective s1 s2 :
  escapeHtml s1 = escapeHtml s2 → s1 = s2.
Proof. apply escapeHtml_inj. Qed.

Lemma X2_witness :
  escapeHtml "a<b" = escapeHtml "a<b" ∧ "a<b" = "a<b".
Proof.
  split; [reflexivity|]. apply (X2_escapeHtml_injective "a<b" "a<b"). reflexivity.
Defined.

(** X3.  [escapeHtml] never shortens a text, returns a text that holds none
    of the five characters as it is, and changes every other text; the
    escaped form of a concatenation is the concatenation of the escaped
    forms. *)
Theorem X3_escapeHtml_plain input :
  (String.length input <= String.length (escapeHtml input))%nat ∧
  (escapeHtml input = input ↔ Forall (λ c, c ∉ markup) (chars input)) ∧
  ∀ more, escapeHtml (input +:+ more) = escapeHtml input +:+ escapeHtml more.
Proof.
  split_and!; [apply escapeHtml_length|apply escapeHtml_plain|].
  intros more. apply escapeHtml_app.
Qed.

(** X4.  The name under which a result is downloaded or filed.  When the
    file name ends with a dot followed by one or more characters other than
    a dot, that ending is dropped, and nothing else; a name with no such
    ending is kept whole.  When nothing is left the base is
    [eltavolitott-hatter]; [-bg-removed.png] is added in every case. *)
Theorem X4_downloadName :
  (∀ base ext, ext ≠ "" → hasDot ext = false →
     downloadName (base +:+ "." +:+ ext) =
     (if truthy base then base else "eltavolitott-hatter") +:+ "-bg-removed.png") ∧
  (∀ name,
     (∀ base ext, name = base +:+ "." +:+ ext → ext = "" ∨ hasDot ext = true) →
     downloadName name =
     (if truthy name then name else "eltavolitott-hatter") +:+ "-bg-removed.png").
Proof.
  split.
  - intros base ext Hext Hdot. unfold downloadName.
    by rewrite stripExtension_last.
  - intros name Hname. unfold downloadName. by rewrite stripExtension_other.
Qed.

(** X5.  The time stamp of the archive name has the length of the clock
    reading, holds no colon and no dot, and is the clock reading itself when
    that holds none. *)
Theorem X5_timestamp now :
  String.length (timestamp now) = String.length now ∧
  Forall (λ c, c ∉ [":"; "."]%char) (chars (timestamp now)) ∧
  (Forall (λ c, c ∉ [":"; "."]%char) (chars now) → timestamp now = now).
Proof.
  split_and!; [apply timestamp_length|apply timestamp_chars|apply timestamp_fixed].
Qed.

(** *** The controls of the page *)

(** X6.  After every sequence of events the three counters of the summary
    section show the store: the jobs pending or processing, the jobs ready,
    the jobs in error; [readyJobCount] is the number of ready jobs; and the
    three counters add up to the size of the store. *)
Theorem X6_summary events :
  let s := run events init in
  summary s = (count_status pending s + count_status processing s,
               count_status ready s, count_status error s) ∧
  readyJobCount s = count_status ready s ∧
  count_status pending s + count_status processing s
  + count_status ready s + count_status error s = Z.of_nat (length (jobs s)).
Proof.
  intros s. pose proof (reachable_Sync events) as Hsync. fold s in Hsync.
  reach_inv events s Hinv. split_and!.
  - apply (sync_summary s Hsync).
  - apply Hinv.
  - apply summary_total, Hinv.
Qed.

(** X7.  After every sequence of events the export button is enabled only
    if a job is ready; and when no export waits for its archive, it is
    enabled if a job is ready. *)
Theorem X7_export_button events :
  let s := run events init in
  (downloadAllDisabled s = false → 0 < count_status ready s) ∧
  (zipping s = [] → downloadAllDisabled s = bool_decide (count_status ready s = 0)).
Proof.
  intros s. pose proof (reachable_Sync events) as Hsync. fold s in Hsync.
  destruct Hsync as [_ H1 H2]. reach_inv events s Hinv. rewrite <- (dom_ready s (inv_dom s Hinv)).
  assert (0 <= readyJobCount s) as Hpos.
  { rewrite (dom_ready s (inv_dom s Hinv)). unfold count_status. lia. }
  split.
  - intros Hd. specialize (H1 Hd). lia.
  - intros Hz. rewrite (H2 Hz). destruct (Z.eqb_spec (readyJobCount s) 0) as [He|He].
    + by rewrite bool_decide_true.
    + by rewrite bool_decide_false.
Qed.

(** X8.  After every sequence of events no job waits while a worker is
    free: no job is pending, or [MAX_PARALLEL_JOBS] jobs are processing. *)
Theorem X8_no_idle_worker events :
  let s := run events init in
  count_status pending s = 0 ∨ count_status processing s = MAX_PARALLEL_JOBS.
Proof.
  intros s. pose proof (reachable_Saturated events) as Hsat. fold s in Hsat.
  reach_inv events s Hinv. destruct Hsat as [Hnone|Hfull].
  - left. rewrite count_status_refs. fold (pendingRefs s). by rewrite Hnone.
  - right. rewrite processing_count; [done|apply Hinv..].
Qed.

(** X9.  After every sequence of events the job list on the page is the
    store: its content is the one [renderJobs] would write now, one card
    per job, the newest job first. *)
Theorem X9_page_shows_store events :
  let s := run events init in
  head (jobList s) = Some (reverse (card <$> values s)) ∧
  card_id <$> reverse (card <$> values s) = reverse (JsMap.keys (jobs s)) ∧
  length (values s) = length (jobs s).
Proof.
  intros s. reach_inv events s Hinv. split_and!.
  - apply Hinv.
  - apply view_ids, Hinv.
  - apply values_length, Hinv.
Qed.

(** X10.  The buttons of a card do what the card shows.  For a card of the
    page: the download button, when disabled, does nothing, and otherwise
    clicks one link, to the image the card shows, under the download name
    of the file, and nothing else; the remove button, when disabled, does
    nothing, and otherwise takes the job out of the store; the retry
    button, when hidden, does nothing, and otherwise leaves the job pending
    or processing, without message. *)
Theorem X10_buttons events c :
  let s := run events init in
  c ∈ view s →
  (jobListClick (card_id c) download s).1 =
    (if card_downloadDisabled c then s
     else click_link (downloadName (card_name c)) (card_src c) s) ∧
  (if card_removeDisabled c then (jobListClick (card_id c) remove s).1 = s
   else JsMap.get (card_id c) (jobs (jobListClick (card_id c) remove s).1) = None) ∧
  (if card_retryHidden c then (jobListClick (card_id c) retry s).1 = s
   else ∃ job', job' ∈ values (jobListClick (card_id c) retry s).1 ∧
          Job.id job' = card_id c ∧
          (Job.status job' = pending ∨ Job.status job' = processing) ∧
          Job.error job' = None).
Proof.
  intros s. reach_inv events s Hinv. intros Hc.
  destruct (card_job s c (inv_store s Hinv) Hc) as (a & job & Hget & Ha & Hjob & -> & Hok).
  change (card_id (card job)) with (Job.id job) in *.
  change (card_name (card job)) with (File.name (Job.file job)).
  split_and!.
  - rewrite (jobListClick_download s _ a job) by done. cbn [card_downloadDisabled card].
    by destruct (has_status ready job).
  - rewrite (jobListClick_remove s _ a job) by done. cbn [card_removeDisabled card].
    destruct (has_status processing job); [done|].
    destruct (removed_frame (Job.id job) a job s Hjob) as (_ & -> & _).
    apply JsMapFacts.get_delete_eq, Hinv.
  - rewrite (jobListClick_retry s _ a job) by done. cbn [card_retryHidden card].
    destruct (has_status error job) eqn:Hst; [|done]. cbn [negb].
    destruct (startNextJobs_later_status (retried a s) a (retry_fields job))
      as (job' & Hjob' & Hcase).
    { by rewrite retried_heap, list_lookup_alter_eq, Hjob. }
    exists job'. split_and!.
    + apply elem_values. exists a. split; [|done].
      destruct (startNextJobs_loop_frame (length (jobs (retried a s))) (retried a s))
        as (Hj & _).
      unfold refs, startNextJobs. by rewrite Hj, retried_jobs.
    + by destruct Hcase as [->|[_ ->]].
    + destruct Hcase as [->|[_ ->]]; [by left|by right].
    + by destruct Hcase as [->|[_ ->]].
Qed.

Lemma X10_witness :
  card done_job ∈ view (run one_ready init) ∧
  (jobListClick "0" download (run one_ready init)).1 =
    click_link "a-bg-removed.png" "blob:1" (run one_ready init).
Proof.
  assert (card done_job ∈ view (run one_ready init)) as Hin.
  { assert (view (run one_ready init) = [card done_job]) as ->
      by (vm_compute; reflexivity).
    left. }
  split; [exact Hin|].
  exact (proj1 (X10_buttons one_ready (card done_job) Hin)).
Defined.

(** X11.  A click on a remove button takes one card off the page and
    leaves the others as they were, in their order; unless the card shows
    the button disabled, and then nothing changes. *)
Theorem X11_remove_card events id :
  let s := run events init in
  let s' := (jobListClick id remove s).1 in
  (∃ c, c ∈ view s ∧ card_id c = id ∧ card_removeDisabled c = true ∧ s' = s) ∨
  (view s' = filter (λ c, card_id c ≠ id) (view s) ∧
   head (jobList s') = Some (view s')).
Proof.
  intros s s'. pose proof (jobListClick_Inv id remove s) as Hinv'. fold s' in Hinv'.
  reach_inv events s Hinv. specialize (Hinv' Hinv).
  destruct (JsMap.get id (jobs s)) as [a|] eqn:Hget.
  - pose proof (JsMapFacts.get_Some_elem _ _ _ Hget) as Hin.
    destruct (wf_heap s (inv_store s Hinv) id a Hin) as (job & Hjob & Hid & Hok).
    pose proof (jobListClick_remove s id a job Hget Hjob) as Hs'. fold s' in Hs'.
    destruct (has_status processing job) eqn:Hst.
    + left. exists (card job). split_and!; try done.
      apply elem_view. exists job. split; [|done].
      apply elem_values. exists a. split; [|done]. apply elem_refs. by exists id.
    + right. split; [|apply Hinv'].
      destruct (removed_frame id a job s Hjob) as (Hh & Hj & _).
      unfold view. rewrite Hs', (values_delete s _ id a); [|apply Hinv|done|done|].
      * by rewrite <- filter_card_id, filter_reverse.
      * intros b Hb. by rewrite Hh, list_lookup_alter_ne.
  - right. split; [|apply Hinv'].
    assert (s' = s) as -> by (unfold s', jobListClick; by rewrite Hget).
    symmetry. apply filter_all. intros c Hc Heq.
    destruct (card_job s c (inv_store s Hinv) Hc) as (a & job & Hget' & _).
    congruence.
Qed.

(** *** The worker *)

(** X12.  When the promise of a worker settles, its job keeps its id, its
    file and its preview URL.  Fulfilled with bytes, the job is ready and
    holds these bytes and a result URL made for the occasion, never made
    before, and no message; rejected, it is in error with the message of
    the error thrown, or the fixed message when what was thrown is no
    [Error], and holds no result.  One announcement is written, naming the
    file, and no URL is revoked. *)
Theorem X12_settle events a o :
  let s := run events init in
  a ∈ inflight s →
  let s' := step s (Settle a o) in
  ∃ job job',
    heap s !! a = Some job ∧ heap s' !! a = Some job' ∧
    Job.id job' = Job.id job ∧ Job.file job' = Job.file job ∧
    Job.previewUrl job' = Job.previewUrl job ∧
    revoked s' = revoked s ∧
    match o with
    | Resolved blob =>
        Job.status job' = ready ∧ Job.resultBlob job' = Some blob ∧
        (∃ url, Job.resultUrl job' = Some url ∧ ¬ minted s url) ∧
        Job.error job' = None ∧
        liveRegion s' = AnnFinished (File.name (Job.file job)) :: liveRegion s
    | Rejected e =>
        Job.status job' = error ∧
        Job.error job' = Some match e with
                              | ErrorObject m => m
                              | OtherValue => "Ismeretlen hiba történt."
                              end ∧
        Job.resultBlob job' = None ∧ Job.resultUrl job' = None ∧
        liveRegion s' = AnnFailed (File.name (Job.file job)) :: liveRegion s
    end.
Proof.
  intros s. reach_inv events s Hinv. intros Ha s'.
  destruct (inflight_job s a (inv_store s Hinv) (inv_workers s Hinv) Ha)
    as (Hin & job & Hjob & Hst & Hok).
  destruct (processing_fields job Hok Hst) as (Hblob & Hurl & Herr).
  assert (s' = runJob_resume a o s) as ->.
  { unfold s'. cbn [step]. by rewrite bool_decide_true. }
  destruct (runJob_resume_frame s a o job Hjob Hurl) as (_ & Hr & _ & Hl).
  exists job, (settle_fields o ("blob:" +:+ pretty (nextUrl s)) job).
  split; [done|]. split; [by apply runJob_resume_job|].
  destruct o as [blob|e]; cbn [settle_fields]; split_and!; try done.
  exists ("blob:" +:+ pretty (nextUrl s)). split; [done|apply minted_next].
Qed.

Lemma X12_witness :
  (0%nat ∈ inflight (run one_running init)) ∧
  ∃ job job',
    heap (run one_running init) !! 0%nat = Some job ∧
    heap (step (run one_running init) (Settle 0 (Resolved "A"))) !! 0%nat = Some job' ∧
    Job.status job' = ready ∧ Job.resultBlob job' = Some "A".
Proof.
  assert (0%nat ∈ inflight (run one_running init)) as Hin.
  { assert (inflight (run one_running init) = [0%nat]) as -> by (vm_compute; reflexivity).
    left. }
  split; [exact Hin|].
  destruct (X12_settle one_running 0%nat (Resolved "A") Hin)
    as (job & job' & H1 & H2 & _ & _ & _ & _ & H3 & H4 & _).
  exists job, job'. split; [exact H1|]. split; [exact H2|]. split; [exact H3|exact H4].
Defined.

(** X13.  The outcome of a worker, a result or a failure, touches no other
    job: the store keeps its entries, and every other job object is as it
    was, or was pending and has been started by the scheduler. *)
Theorem X13_settle_isolation events a o :
  let s := run events init in
  a ∈ inflight s →
  let s' := step s (Settle a o) in
  jobs s' = jobs s ∧ downloads s' = downloads s ∧
  ∀ b job, b ≠ a → heap s !! b = Some job →
    ∃ job', heap s' !! b = Some job' ∧ started_or_same job job'.
Proof.
  intros s. reach_inv events s Hinv. intros Ha s'.
  destruct (inflight_job s a (inv_store s Hinv) (inv_workers s Hinv) Ha)
    as (Hin & job & Hjob & Hst & Hok).
  destruct (processing_fields job Hok Hst) as (Hblob & Hurl & Herr).
  assert (s' = runJob_resume a o s) as ->.
  { unfold s'. cbn [step]. by rewrite bool_decide_true. }
  destruct (runJob_resume_frame s a o job Hjob Hurl) as (Hj & _ & Hd & _).
  split_and!; [done..|].
  intros b jb Hne Hjb. by apply (runJob_resume_others s a o job).
Qed.

Lemma X13_witness :
  (0%nat ∈ inflight (run one_running init)) ∧
  jobs (step (run one_running init) (Settle 0 (Rejected OtherValue)))
  = jobs (run one_running init).
Proof.
  assert (0%nat ∈ inflight (run one_running init)) as Hin.
  { assert (inflight (run one_running init) = [0%nat]) as -> by (vm_compute; reflexivity).
    left. }
  split; [exact Hin|].
  exact (proj1 (X13_settle_isolation one_running 0%nat (Rejected OtherValue) Hin)).
Defined.

(** *** The export *)

(** X14.  After every sequence of events, a click on the export button
    leaves the queue and the page as they are: it writes no job, revokes,
    announces, logs and downloads nothing, and does not depend on what
    [fetch] would return, as it fetches nothing.  The end of an export,
    whether the archive was built or not, leaves the queue and the job list
    as they are as well. *)
Theorem X14_export_frame events :
  let s := run events init in
  (∀ fetch,
     let s' := step s (DownloadAll fetch) in
     heap s' = heap s ∧ jobs s' = jobs s ∧ inflight s' = inflight s ∧
     activeWorkers s' = activeWorkers s ∧ jobList s' = jobList s ∧
     summary s' = summary s ∧ revoked s' = revoked s ∧
     liveRegion s' = liveRegion s ∧ console s' = console s ∧
     downloads s' = downloads s ∧ archives s' = archives s ∧
     ∀ fetch', step s (DownloadAll fetch') = s') ∧
  (∀ i generateOk now,
     let s' := step s (ZipSettle i generateOk now) in
     heap s' = heap s ∧ jobs s' = jobs s ∧ inflight s' = inflight s ∧
     activeWorkers s' = activeWorkers s ∧ jobList s' = jobList s ∧
     summary s' = summary s ∧ revoked s' = revoked s).
Proof.
  intros s. reach_inv events s Hinv. pose proof (inv_store s Hinv) as Hwf. split.
  - intros fetch s'.
    assert (∀ f, step s (DownloadAll f) = downloadAllReadyJobs f s) as Hstep.
    { intros f. cbn [step]. unfold downloadAllClick, downloadAllReadyJobs.
      by destruct (readyJobCount s =? 0). }
    unfold s'. rewrite Hstep.
    destruct (downloadAllReadyJobs_frame fetch s Hwf) as (? & ? & _ & ? & ? & ? & _).
    destruct (downloadAllReadyJobs_frame_urls fetch s Hwf)
      as (_ & ? & ? & ? & ? & ? & ?).
    split_and!; try done.
    intros fetch'. by rewrite Hstep, !downloadAllReadyJobs_reached.
  - intros i generateOk now s'.
    destruct (downloadAllReadyJobs_resume_frame i generateOk now s)
      as (? & ? & _ & ? & ? & ? & _).
    split_and!; try done.
    + unfold s'. cbn [step]. unfold downloadAllReadyJobs_resume.
      destruct (zipping s !! i); [|done]. by destruct generateOk.
    + unfold s'. cbn [step]. unfold downloadAllReadyJobs_resume.
      destruct (zipping s !! i); [|done]. by destruct generateOk.
Qed.

(** *** Admission *)

(** X15.  A batch with no acceptable file (an empty batch for one) leaves
    the whole state as it is, but for the announcement of the oversized
    images when there is one: nothing is rendered, counted or started. *)
Theorem X15_batch_without_acceptable_file fileList s :
  Forall (λ f, acceptable f = false) fileList →
  addFiles fileList s =
    let rejected := Z.of_nat (length (filter (λ f, oversized f) fileList)) in
    if 0 <? rejected then announce (AnnRejected rejected) s else s.
Proof. apply addFiles_reject. Qed.

Lemma X15_witness :
  Forall (λ f, acceptable f = false) [File.mk "notes.txt" 10 "text/plain"] ∧
  addFiles [File.mk "notes.txt" 10 "text/plain"] init = init.
Proof.
  assert (Forall (λ f, acceptable f = false) [File.mk "notes.txt" 10 "text/plain"])
    as Hl by (repeat constructor).
  split; [exact Hl|].
  exact (X15_batch_without_acceptable_file [File.mk "notes.txt" 10 "text/plain"] init Hl).
Defined.

(** *** Object URLs *)

(** X16.  After every sequence of events no URL held by a job of the
    store has been revoked, so the image of every card of the page is
    live; and no URL was revoked twice. *)
Theorem X16_urls_live events :
  let s := run events init in
  NoDup (revoked s) ∧
  (∀ job url, job ∈ values s → url ∈ job_urls job → url ∉ revoked s) ∧
  (∀ c, c ∈ view s → card_src c ∉ revoked s).
Proof.
  intros s. pose proof (reachable_UrlsOk events) as Hu. fold s in Hu.
  assert (∀ job url, job ∈ values s → url ∈ job_urls job → url ∉ revoked s) as Hlive.
  { intros job url (a & Ha & Hjob)%elem_values Hurl.
    apply (url_live s Hu a). by rewrite (store_urls_job s a job). }
  split_and!; [apply Hu|done|].
  intros c (job & Hjob & ->)%elem_view. apply (Hlive job); [done|].
  unfold job_urls. cbn [card_src card].
  destruct (Job.resultUrl job); [right; by left|by left].
Qed.

(** X17.  After every sequence of events the preview URL and the result
    URL of a job differ, and no URL is held by two jobs of the store. *)
Theorem X17_urls_distinct events :
  let s := run events init in
  (∀ job, job ∈ values s → NoDup (job_urls job)) ∧
  (∀ id id' a a' job job' url,
     JsMap.get id (jobs s) = Some a → heap s !! a = Some job →
     JsMap.get id' (jobs s) = Some a' → heap s !! a' = Some job' →
     url ∈ job_urls job → url ∈ job_urls job' → id = id').
Proof.
  intros s. pose proof (reachable_UrlsOk events) as Hu. fold s in Hu.
  reach_inv events s Hinv. split.
  - intros job (a & Ha & Hjob)%elem_values.
    rewrite <- (store_urls_job s a job) by done. apply Hu.
  - intros id id' a a' job job' url Hget Hjob Hget' Hjob' Hurl Hurl'.
    apply JsMapFacts.get_Some_elem in Hget, Hget'.
    assert (a = a') as <-.
    { apply (url_distinct s Hu a a' url).
      - rewrite (store_urls_job s a job); [done| |done]. apply elem_refs. by exists id.
      - rewrite (store_urls_job s a' job'); [done| |done]. apply elem_refs. by exists id'. }
    destruct (wf_heap s (inv_store s Hinv) id a Hget) as (j & Hj & <- & _).
    destruct (wf_heap s (inv_store s Hinv) id' a Hget') as (j' & Hj' & <- & _).
    congruence.
Qed.

(** X18.  After every sequence of events every object URL the program has
    made is held by a job of the store, or has been revoked, or was the
    target of a link it clicked; and the URLs held and revoked are URLs it
    made. *)
Theorem X18_urls_accounted events url :
  let s := run events init in
  (minted s url →
   (∃ job, job ∈ values s ∧ url ∈ job_urls job) ∨
   url ∈ revoked s ∨ url ∈ (downloads s).*2) ∧
  ((∃ job, job ∈ values s ∧ url ∈ job_urls job) ∨ url ∈ revoked s →
   minted s url).
Proof.
  intros s. pose proof (reachable_UrlsOk events) as Hu. fold s in Hu. split.
  - intros Hm. destruct (url_accounted s Hu url Hm) as [[a Ha]|[?|?]];
      [left|by right; left|by right; right].
    apply store_urls_elem in Ha as (Ha & job & Hjob & Hurl).
    exists job. split; [|done]. apply elem_values. by exists a.
  - intros [(job & (a & Ha & Hjob)%elem_values & Hurl)|Hr].
    + apply (url_minted s Hu a). by rewrite (store_urls_job s a job).
    + by apply (url_revoked s Hu).
Qed.

(** *** What a job keeps *)

(** X19.  An id of the store stands for the same job for as long as it is
    in the store: whatever happens next, the id is gone from the store or
    leads to the same object, with the same id, file and preview URL. *)
Theorem X19_job_identity events more id a job :
  let s := run events init in
  let s' := run more s in
  JsMap.get id (jobs s) = Some a → heap s !! a = Some job →
  JsMap.get id (jobs s') = None ∨
  (JsMap.get id (jobs s') = Some a ∧
   ∃ job', heap s' !! a = Some job' ∧ Job.id job' = id ∧
     Job.file job' = Job.file job ∧ Job.previewUrl job' = Job.previewUrl job).
Proof.
  intros s s'. pose proof (run_later more s) as Hl. fold s' in Hl.
  reach_inv events s Hinv. specialize (Hl Hinv). intros Hget Hjob.
  destruct (JsMap.get id (jobs s')) as [a'|] eqn:Hget'; [right|by left].
  assert (a' = a) as -> by (by eapply (later_get s s'); [apply Hinv|..]).
  split; [done|].
  destruct (later_heap s s' Hl a job Hjob) as (job' & Hjob' & [H1 H2 H3 _] & _).
  exists job'. split_and!; try done.
  apply JsMapFacts.get_Some_elem in Hget.
  destruct (wf_heap s (inv_store s Hinv) id a Hget) as (j & Hj & <- & _). congruence.
Qed.

Lemma X19_witness :
  JsMap.get "0" (jobs (run one_running init)) = Some 0%nat ∧
  heap (run one_running init) !! 0%nat = Some running_job ∧
  (JsMap.get "0" (jobs (run [Settle 0 (Resolved "A")] (run one_running init))) = None ∨
   (JsMap.get "0" (jobs (run [Settle 0 (Resolved "A")] (run one_running init)))
      = Some 0%nat ∧
    ∃ job', heap (run [Settle 0 (Resolved "A")] (run one_running init)) !! 0%nat
              = Some job' ∧ Job.id job' = "0" ∧
      Job.file job' = Job.file running_job ∧
      Job.previewUrl job' = Job.previewUrl running_job)).
Proof.
  assert (JsMap.get "0" (jobs (run one_running init)) = Some 0%nat) as Hget
    by (vm_compute; reflexivity).
  assert (heap (run one_running init) !! 0%nat = Some running_job) as Hjob
    by (vm_compute; reflexivity).
  split; [exact Hget|]. split; [exact Hjob|].
  exact (X19_job_identity one_running [Settle 0 (Resolved "A")] "0" 0%nat running_job
           Hget Hjob).
Defined.

(** X20.  A ready job stays as it is: whatever happens next, its id is
    gone from the store, or it is ready with the same result URL and the
    same result bytes. *)
Theorem X20_ready_is_final events more id a job :
  let s := run events init in
  let s' := run more s in
  JsMap.get id (jobs s) = Some a → heap s !! a = Some job →
  Job.status job = ready →
  JsMap.get id (jobs s') = None ∨
  ∃ job', JsMap.get id (jobs s') = Some a ∧ heap s' !! a = Some job' ∧
    Job.status job' = ready ∧ Job.resultUrl job' = Job.resultUrl job ∧
    Job.resultBlob job' = Job.resultBlob job.
Proof.
  intros s s'. pose proof (run_later more s) as Hl. fold s' in Hl.
  reach_inv events s Hinv. specialize (Hl Hinv). intros Hget Hjob Hst.
  destruct (JsMap.get id (jobs s')) as [a'|] eqn:Hget'; [right|by left].
  assert (a' = a) as -> by (by eapply (later_get s s'); [apply Hinv|..]).
  destruct (later_heap s s' Hl a job Hjob) as (job' & Hjob' & [_ _ _ H4] & Hb).
  destruct (H4 Hst) as [Hst' Hurl'].
  exists job'. split_and!; try done.
  apply Hb; [|done]. apply elem_refs. exists id.
  by apply JsMapFacts.get_Some_elem.
Qed.

Lemma X20_witness :
  JsMap.get "0" (jobs (run one_ready init)) = Some 0%nat ∧
  heap (run one_ready init) !! 0%nat = Some done_job ∧
  Job.status done_job = ready ∧
  (JsMap.get "0" (jobs (run [Click "0" retry] (run one_ready init))) = None ∨
   ∃ job', JsMap.get "0" (jobs (run [Click "0" retry] (run one_ready init)))
             = Some 0%nat ∧
     heap (run [Click "0" retry] (run one_ready init)) !! 0%nat = Some job' ∧
     Job.status job' = ready ∧ Job.resultUrl job' = Job.resultUrl done_job ∧
     Job.resultBlob job' = Job.resultBlob done_job).
Proof.
  assert (JsMap.get "0" (jobs (run one_ready init)) = Some 0%nat) as Hget
    by (vm_compute; reflexivity).
  assert (heap (run one_ready init) !! 0%nat = Some done_job) as Hjob
    by (vm_compute; reflexivity).
  split; [exact Hget|]. split; [exact Hjob|]. split; [reflexivity|].
  exact (X20_ready_is_final one_ready [Click "0" retry] "0" 0%nat done_job
           Hget Hjob eq_refl).
Defined.

(** *** Progress *)

(** X21.  The queue drains.  From any state the program reaches, each
    settlement of the promise of the oldest suspended worker, with a result
    or with a failure, finishes one job: the number of jobs pending or
    processing goes down by one, until it is zero, and the store keeps its
    entries.  So after as many settlements as there were such jobs, no job
    is pending or processing, no worker is suspended, and every job of the
    store is ready or in error. *)
Theorem X21_queue_drains events outcomes :
  let s := run events init in
  let s' := settle_all outcomes s in
  waiting s' = Z.max 0 (waiting s - Z.of_nat (length outcomes)) ∧
  jobs s' = jobs s ∧
  (waiting s <= Z.of_nat (length outcomes) →
   count_status pending s' = 0 ∧ count_status processing s' = 0 ∧
   inflight s' = [] ∧
   count_status ready s' + count_status error s' = Z.of_nat (length (jobs s))).
Proof.
  intros s s'. pose proof (reachable_Saturated events) as Hsat. fold s in Hsat.
  pose proof (settle_all_waiting outcomes s) as Hall. fold s' in Hall.
  reach_inv events s Hinv.
  destruct (Hall Hinv Hsat) as (Hinv' & _ & Hj & Hw).
  split_and!; [done..|]. intros Hle.
  assert (waiting s' = 0) as Hzero by lia.
  assert (count_status pending s' = 0 ∧ count_status processing s' = 0) as [Hp Hr].
  { unfold waiting, count_status in *. lia. }
  split_and!; [done..| |].
  - apply length_zero_iff_nil.
    pose proof (wk_active s' (inv_workers s' Hinv')) as Ha.
    rewrite <- (processing_count s') in Ha by apply Hinv'. lia.
  - pose proof (summary_total s' (inv_store s' Hinv')) as Ht.
    rewrite Hj in Ht. lia.
Qed.

(** X22.  No worker runs for a job that left the store: after every
    sequence of events the job of every suspended worker is in the store,
    under its own id, processing, and a click on its remove button changes
    nothing; so the outcome of a worker is always written to a job of the
    store. *)
Theorem X22_no_orphan_worker events a :
  let s := run events init in
  a ∈ inflight s →
  ∃ id job,
    JsMap.get id (jobs s) = Some a ∧ heap s !! a = Some job ∧
    Job.id job = id ∧ Job.status job = processing ∧
    (jobListClick id remove s).1 = s.
Proof.
  intros s. reach_inv events s Hinv. intros Ha.
  destruct (inflight_job s a (inv_store s Hinv) (inv_workers s Hinv) Ha)
    as ([id Hid]%elem_refs & job & Hjob & Hst & _).
  destruct (wf_heap s (inv_store s Hinv) id a Hid) as (j & Hj & Hjid & _).
  assert (j = job) as -> by congruence.
  assert (JsMap.get id (jobs s) = Some a) as Hget
    by (apply JsMapFacts.elem_get; [apply Hinv|done]).
  exists id, job. split_and!; try done.
  rewrite (jobListClick_remove s id a job) by done.
  by rewrite (proj2 (has_status_true processing job) Hst).
Qed.

Lemma X22_witness :
  (0%nat ∈ inflight (run one_running init)) ∧
  ∃ id job,
    JsMap.get id (jobs (run one_running init)) = Some 0%nat ∧
    heap (run one_running init) !! 0%nat = Some job ∧
    Job.id job = id ∧ Job.status job = processing ∧
    (jobListClick id remove (run one_running init)).1 = run one_running init.
Proof.
  assert (0%nat ∈ inflight (run one_running init)) as Hin.
  { assert (inflight (run one_running init) = [0%nat]) as -> by (vm_compute; reflexivity).
    left. }
  split; [exact Hin|].
  exact (X22_no_orphan_worker one_running 0%nat Hin).
Defined.

(** *** Batches *)

(** X23.  One batch or two.  From any state the program reaches, adding
    the files of two batches at once or one batch after the other gives
    the same queue: the same job objects (ids, files, URLs, statuses), the
    same store in the same order, the same suspended workers and worker
    count; the page shows the same cards and the same summary. *)
Theorem X23_one_batch_or_two events l1 l2 :
  let s := run events init in
  let one := addFiles (l1 ++ l2) s in
  let two := addFiles l2 (addFiles l1 s) in
  heap one = heap two ∧ jobs one = jobs two ∧
  inflight one = inflight two ∧ activeWorkers one = activeWorkers two ∧
  head (jobList one) = head (jobList two) ∧ summary one = summary two.
Proof.
  intros s one two.
  pose proof (reachable_Inv (events ++ [AddFiles (l1 ++ l2)])) as Hinv1.
  pose proof (reachable_Sync (events ++ [AddFiles (l1 ++ l2)])) as Hsync1.
  pose proof (reachable_Inv (events ++ [AddFiles l1; AddFiles l2])) as Hinv2.
  pose proof (reachable_Sync (events ++ [AddFiles l1; AddFiles l2])) as Hsync2.
  rewrite run_app in Hinv1, Hsync1, Hinv2, Hsync2.
  change (Inv one) in Hinv1. change (Sync one) in Hsync1.
  change (Inv two) in Hinv2. change (Sync two) in Hsync2.
  pose proof (addFiles_split l1 l2 s) as Hsame. fold one two in Hsame.
  reach_inv events s Hinv. destruct (Hsame Hinv) as [Hh Hj Hi Ha _ _ _ _].
  split_and!; try done.
  - rewrite (dom_view one (inv_dom one Hinv1)), (dom_view two (inv_dom two Hinv2)).
    f_equal. by apply view_ext.
  - rewrite (sync_summary one Hsync1), (sync_summary two Hsync2).
    unfold summary_of. by rewrite !(count_status_ext _ one two).
Qed.

(** *** The archive of an export *)

(** X24.  What the export files.  From any state the program reaches, the
    export calls [zip.file] once per ready job of the store, in the order
    of the store, with the name [downloadName] derives from the file of
    the job and the result bytes of the job.  The archive so filled waits
    for [zip.generateAsync] and is the archive built when that fulfils;
    with no ready job none is started.  The names of the archive are
    unique, every name filed is one of them, and every file entry of it
    was filed.  When the names filed differ from one another and hold no
    slash, the archive is one file entry per ready job, in the order of the
    store, and nothing else. *)
Theorem X24_export_calls events fetch :
  let s := run events init in
  let s' := downloadAllReadyJobs fetch s in
  ∃ calls,
    Forall2 (λ job call, call.1 = downloadName (File.name (Job.file job)) ∧
                         Job.resultBlob job = Some call.2)
      (filter (λ job, has_status ready job) (values s)) calls ∧
    zipping s' =
      (if bool_decide (calls = []) then zipping s
       else zipping s ++ [JSZip_entries calls]) ∧
    (∀ now,
       archives (downloadAllReadyJobs_resume (length (zipping s)) true now s') =
         if bool_decide (calls = []) then archives s
         else JSZip_entries calls :: archives s) ∧
    NoDup (JSZip_entries calls).*1 ∧
    (∀ name, name ∈ calls.*1 → name ∈ (JSZip_entries calls).*1) ∧
    (∀ name blob, (name, ZipFile blob) ∈ JSZip_entries calls → (name, blob) ∈ calls) ∧
    (NoDup calls.*1 → Forall (λ call, "/"%char ∉ chars call.1) calls →
     JSZip_entries calls = (λ call, (call.1, ZipFile call.2)) <$> calls).
Proof.
  intros s. reach_inv events s Hinv. intros s'.
  set (readyJobs := filter (λ a, ref_exportable s a) (refs s)).
  exists (omap (entry_of s) readyJobs).
  pose proof (store_export_calls s (inv_store s Hinv)) as Hcalls.
  fold readyJobs in Hcalls.
  split; [done|].
  assert (zipping s' =
            (if bool_decide (omap (entry_of s) readyJobs = []) then zipping s
             else zipping s ++ [JSZip_entries (omap (entry_of s) readyJobs)]) ∧
          archives s' = archives s ∧
          (omap (entry_of s) readyJobs = [] → s' = s)) as (Hzip & Harch & Hsame).
  { unfold s', downloadAllReadyJobs.
    destruct (Z.eqb_spec (readyJobCount s) 0) as [Hzero|Hpos].
    - rewrite (dom_ready s (inv_dom s Hinv)) in Hzero.
      apply count_status_zero in Hzero. rewrite Hzero in Hcalls.
      apply Forall2_nil_inv_l in Hcalls. by rewrite Hcalls.
    - cbn zeta.
      change (filter (λ a, ref_exportable (set_downloadAllDisabled true s) a)
                (refs (set_downloadAllDisabled true s))) with readyJobs.
      assert (omap (entry_of s) readyJobs ≠ []) as Hne.
      { intros Hnil. rewrite Hnil in Hcalls. apply Forall2_nil_inv_r in Hcalls.
        apply Hpos. rewrite (dom_ready s (inv_dom s Hinv)).
        by apply count_status_zero. }
      assert (readyJobs ≠ []) as Hne' by (by intros Hnil; rewrite Hnil in Hne).
      rewrite bool_decide_false by done. rewrite (bool_decide_false _ Hne).
      rewrite zip_loop_blobs; [done|].
      intros a Ha. by apply (readyJobs_blobs s); [apply Hinv|]. }
  split; [done|]. split; [|apply JSZip_entries_facts].
  intros now. unfold downloadAllReadyJobs_resume. rewrite Hzip.
  case_bool_decide as Hnil.
  - rewrite (Hsame Hnil).
    by rewrite (proj2 (lookup_ge_None (zipping s) (length (zipping s)))) by lia.
  - rewrite lookup_app_r, Nat.sub_diag by lia. simpl. by rewrite Harch.
Qed.
